(** * generate-darwin-source-and-headers.py: staging, building and
    header unification, embedded over an explicit model of the file
    system, the working directory and the configure child process. *)

From Stdlib Require Import ZArith Ascii String.
From stdpp Require Import base gmap sets list strings.

Local Open Scope Z_scope.

(** ** Strings and the pieces of [os.path] the script calls *)

Module Str.

Definition slash : ascii := "/"%char.
Definition dot : ascii := "."%char.

(** [str.rfind]: index of the last occurrence, [-1] when absent. *)
Fixpoint rfind (c : ascii) (s : string) : Z :=
  match s with
  | EmptyString => -1
  | String a r =>
      let i := rfind c r in
      if 0 <=? i then 1 + i
      else if Ascii.eqb a c then 0 else -1
  end.

Fixpoint take (n : nat) (s : string) : string :=
  match n, s with
  | O, _ => EmptyString
  | S _, EmptyString => EmptyString
  | S k, String a r => String a (take k r)
  end.

Fixpoint drop (n : nat) (s : string) : string :=
  match n, s with
  | O, _ => s
  | S _, EmptyString => EmptyString
  | S k, String _ r => drop k r
  end.

(** [s[i:j]] for non-negative bounds. *)
Definition slice (i j : Z) (s : string) : string :=
  take (Z.to_nat (j - i)) (drop (Z.to_nat i) s).

Fixpoint contains (c : ascii) (s : string) : bool :=
  match s with
  | EmptyString => false
  | String a r => Ascii.eqb a c || contains c r
  end.

Fixpoint all_are (c : ascii) (s : string) : bool :=
  match s with
  | EmptyString => true
  | String a r => Ascii.eqb a c && all_are c r
  end.

Fixpoint startswith (s : string) (p : string) {struct p} : bool :=
  match p with
  | EmptyString => true
  | String b p' =>
      match s with
      | EmptyString => false
      | String a s' => Ascii.eqb a b && startswith s' p'
      end
  end.

Definition endswith (s : string) (p : string) : bool :=
  String.eqb (drop (String.length s - String.length p) s) p
  && (String.length p <=? String.length s)%nat.


(** Python truthiness of a [str]. *)
Definition nonempty (s : string) : bool :=
  match s with EmptyString => false | _ => true end.

End Str.

Module os_path.

(** [posixpath.join(a, b)]. *)
Definition join (a b : string) : string :=
  if Str.startswith b "/" then b
  else if negb (Str.nonempty a) || Str.endswith a "/" then a +:+ b
  else a +:+ "/" +:+ b.

(** [posixpath.join(a, b, c)]: the loop of [join] over the tail. *)
Definition join3 (a b c : string) : string := join (join a b) c.

(** [posixpath.basename]. *)
Definition basename (p : string) : string :=
  Str.drop (Z.to_nat (Str.rfind Str.slash p + 1)) p.

(** [posixpath.dirname]: the head, stripped of trailing slashes unless
    it consists of slashes only. *)
Fixpoint rstrip_slash (s : string) : string :=
  match s with
  | EmptyString => EmptyString
  | String a r =>
      match rstrip_slash r with
      | EmptyString => if Ascii.eqb a Str.slash then EmptyString else String a EmptyString
      | r' => String a r'
      end
  end.

Definition dirname (p : string) : string :=
  let head := Str.take (Z.to_nat (Str.rfind Str.slash p + 1)) p in
  if Str.nonempty head && negb (Str.all_are Str.slash head)
  then rstrip_slash head else head.

(** [posixpath.splitext] ([genericpath._splitext]): the extension
    starts at the last dot of the last component, unless that
    component has only leading dots before it. *)
Definition splitext (p : string) : string * string :=
  let sepIndex := Str.rfind Str.slash p in
  let dotIndex := Str.rfind Str.dot p in
  if (sepIndex <? dotIndex)
     && negb (Str.all_are Str.dot (Str.slice (sepIndex + 1) dotIndex p))
  then (Str.take (Z.to_nat dotIndex) p, Str.drop (Z.to_nat dotIndex) p)
  else (p, EmptyString).

End os_path.

Example splitext_sysv : os_path.splitext "sysv.S" = ("sysv", ".S").
Proof. reflexivity. Qed.
Example splitext_hidden : os_path.splitext ".bashrc" = (".bashrc", "").
Proof. reflexivity. Qed.
Example splitext_dotted : os_path.splitext "a.b/c" = ("a.b/c", "").
Proof. reflexivity. Qed.
Example splitext_dotdot : os_path.splitext "..x.h" = ("..x", ".h").
Proof. reflexivity. Qed.
Example basename_path : os_path.basename "build/include/ffi.h" = "ffi.h".
Proof. reflexivity. Qed.
Example dirname_path : os_path.dirname "/w/build/ffi.h" = "/w/build".
Proof. reflexivity. Qed.
Example join_rel : os_path.join3 "darwin_ios" "src" "x86" = "darwin_ios/src/x86".
Proof. reflexivity. Qed.
Example join_abs : os_path.join "darwin_ios" "/etc" = "/etc".
Proof. reflexivity. Qed.

(** ** The world the script runs in *)

(** The [errno] values the model distinguishes. *)
Inductive errno := EEXIST | ENOENT | ENOTDIR | EISDIR | EACCES.

#[global] Instance errno_eq_dec : EqDecision errno.
Proof. solve_decision. Defined.

(** Python exceptions that can travel through the script. *)
Inductive exn :=
| OSError (e : errno) (path : string)
| CalledProcessError (returncode : Z) (cmd : list string)
| TypeError
| SystemExit (code : Z).

Inductive result (A : Type) :=
| Ok (a : A)
| Raise (e : exn).
Arguments Ok {A} a.
Arguments Raise {A} e.

(** An entry of a registry set: [(prefix, arch, suffix)]. *)
Abbreviation tag_tuple := (string * string * string)%type.

(** [collections.defaultdict(set)] keyed by header filename. *)
Abbreviation registry := (gmap string (gset tag_tuple)).

(** Regular files with their contents, and directories, both keyed by
    absolute path. *)
Record filesystem := Filesystem {
  files : gmap string string;
  dirs : gset string
}.

(** What the process asks of the operating system: directory creation,
    files opened for writing, child processes run to completion. Paths
    are logged as the script passes them. *)
Inductive event :=
| EvMakedirs (path : string)
| EvOpenW (path : string)
| EvCall (args : list string) (env : list (string * string)) (returncode : Z).

Record world := World {
  cwd : string;
  fs : filesystem;
  heap : list registry;
  trace : list event
}.

Definition set_cwd (d : string) (w : world) : world :=
  World d (fs w) (heap w) (trace w).
Definition set_fs (f : filesystem) (w : world) : world :=
  World (cwd w) f (heap w) (trace w).
Definition set_heap (h : list registry) (w : world) : world :=
  World (cwd w) (fs w) h (trace w).
Definition log (ev : event) (w : world) : world :=
  World (cwd w) (fs w) (heap w) (trace w ++ [ev]).

(** ** Computations: state passing with exceptions *)

Definition M (A : Type) : Type := world -> result A * world.

Definition ret {A} (a : A) : M A := fun w => (Ok a, w).
Definition raise {A} (e : exn) : M A := fun w => (Raise e, w).
Definition bind {A B} (m : M A) (k : A -> M B) : M B :=
  fun w => match m w with
           | (Ok a, w') => k a w'
           | (Raise e, w') => (Raise e, w')
           end.

Notation "'let*' x ':=' m 'in' k" := (bind m (fun x => k))
  (at level 10, x name, m at level 100, k at level 200).
Notation "m '>>' k" := (bind m (fun _ => k))
  (at level 90, right associativity).

(** [try: body finally: fin]. An exception of [fin] replaces the
    outcome of [body]. *)
Definition try_finally {A} (body : M A) (fin : M unit) : M A :=
  fun w => match body w with
           | (r, w1) =>
               match fin w1 with
               | (Ok _, w2) => (r, w2)
               | (Raise e, w2) => (Raise e, w2)
               end
           end.

(** [try: body except OSError as exc: handler(exc)]. *)
Definition try_except_OSError {A} (body : M A) (handler : errno -> string -> M A) : M A :=
  fun w => match body w with
           | (Raise (OSError e p), w1) => handler e p w1
           | other => other
           end.

Definition when (b : bool) (m : M unit) : M unit := if b then m else ret tt.

(** [for x in l: body(x)]. *)
Fixpoint for_each {A} (l : list A) (body : A -> M unit) : M unit :=
  match l with
  | [] => ret tt
  | x :: r => body x >> for_each r body
  end.

(** Python truthiness of an optional string ([None] and [''] are falsy). *)
Definition truthy (o : option string) : bool :=
  match o with Some s => Str.nonempty s | None => false end.

(** ** Operating-system primitives *)

Module os.

Definition abspath (w : world) (p : string) : string :=
  if Str.startswith p "/" then p else cwd w +:+ "/" +:+ p.

Definition is_dir (f : filesystem) (P : string) : bool :=
  String.eqb P "/" || bool_decide (P ∈ dirs f).

Definition exists_ (f : filesystem) (P : string) : bool :=
  is_dir f P || bool_decide (is_Some (files f !! P)).

(** The proper ancestors of a path: its prefixes that end right before
    a slash, the root apart. *)
Fixpoint ancestors_from (acc s : string) : list string :=
  match s with
  | EmptyString => []
  | String a r =>
      (if Ascii.eqb a Str.slash && Str.nonempty acc then [acc] else [])
      ++ ancestors_from (acc +:+ String a EmptyString) r
  end.
Definition ancestors (P : string) : list string := ancestors_from "" P.

(** [os.makedirs(path)], [exist_ok=False]. *)
Definition makedirs (path : string) : M unit := fun w =>
  let w := log (EvMakedirs path) w in
  let P := abspath w path in
  if exists_ (fs w) P then (Raise (OSError EEXIST path), w)
  else if existsb (fun a => bool_decide (is_Some (files (fs w) !! a))) (ancestors P)
  then (Raise (OSError ENOTDIR path), w)
  else (Ok tt,
        set_fs (Filesystem (files (fs w))
                           (dirs (fs w) ∪ list_to_set (ancestors P) ∪ {[P]})) w).

Definition getcwd : M string := fun w => (Ok (cwd w), w).

Definition chdir (path : string) : M unit := fun w =>
  let P := abspath w path in
  if is_dir (fs w) P then (Ok tt, set_cwd P w)
  else if bool_decide (is_Some (files (fs w) !! P))
  then (Raise (OSError ENOTDIR path), w)
  else (Raise (OSError ENOENT path), w).

(** The names in directory [D] (absolute): files and directories
    alike, as [os.scandir] lists them. *)
Definition entry_name (D K : string) : option string :=
  let Dslash := if Str.endswith D "/" then D else D +:+ "/" in
  if Str.startswith K Dslash then
    let name := Str.drop (String.length Dslash) K in
    if Str.nonempty name && negb (Str.contains Str.slash name)
    then Some name else None
  else None.

Definition listdir (f : filesystem) (D : string) : list string :=
  omap (entry_name D) (elements (dom (files f) ∪ dirs f)).

End os.

(** [open(path)] for reading returns a handle on the file; the contents
    are those at the time of [read]. Contents are the text [read]
    returns: decoding and newline translation are left out. *)
Definition open_r (path : string) : M string := fun w =>
  let P := os.abspath w path in
  match files (fs w) !! P with
  | Some _ => (Ok P, w)
  | None =>
      if os.is_dir (fs w) P then (Raise (OSError EISDIR path), w)
      else (Raise (OSError ENOENT path), w)
  end.

(** [open(path, 'w')]: creates or truncates; the parent directory has
    to exist. What is written reaches the file at once (no buffer). *)
Definition open_w (path : string) : M string := fun w =>
  let w := log (EvOpenW path) w in
  let P := os.abspath w path in
  if os.is_dir (fs w) P then (Raise (OSError EISDIR path), w)
  else if negb (os.is_dir (fs w) (os_path.dirname P))
  then (Raise (OSError ENOENT path), w)
  else (Ok P, set_fs (Filesystem (<[P := ""]> (files (fs w))) (dirs (fs w))) w).

Definition file_read (handle : string) : M string := fun w =>
  (Ok (default "" (files (fs w) !! handle)), w).

Definition file_write (handle : string) (data : string) : M unit := fun w =>
  (Ok tt,
   set_fs (Filesystem
             (<[handle := default "" (files (fs w) !! handle) +:+ data]> (files (fs w)))
             (dirs (fs w))) w).

(** [collections.defaultdict(set)()]: a fresh, empty registry object. *)
Definition new_defaultdict : M nat := fun w =>
  (Ok (length (heap w)), set_heap (heap w ++ [∅]) w).

Definition registry_at (w : world) (r : nat) : registry :=
  default ∅ (heap w !! r).

(** [d[key].add(t)] on a [defaultdict(set)]: a missing key starts from
    the empty set. *)
Definition reg_add (key : string) (t : tag_tuple) (d : registry) : registry :=
  <[key := default ∅ (d !! key) ∪ {[t]}]> d.

(** [d[key].add(t)] on the registry object [r]. *)
Definition defaultdict_add (r : nat) (key : string) (t : tag_tuple) : M unit := fun w =>
  let d := registry_at w r in
  (Ok tt, set_heap (<[r := reg_add key t d]> (heap w)) w).

(** [d.items()], each set enumerated in some order. *)
Definition defaultdict_items (r : nat) : M (list (string * list tag_tuple)) := fun w =>
  (Ok (prod_map id elements <$> map_to_list (registry_at w r)), w).

(** [fnmatch.fnmatchcase] for patterns made of literal characters, [*]
    and [?]. *)
Fixpoint fnmatch (pat : string) : string -> bool :=
  match pat with
  | EmptyString => fun name => negb (Str.nonempty name)
  | String c pat' =>
      if Ascii.eqb c "*" then
        fix star (name : string) : bool :=
          fnmatch pat' name
          || match name with
             | EmptyString => false
             | String _ r => star r
             end
      else if Ascii.eqb c "?" then
        fun name => match name with
                    | EmptyString => false
                    | String _ r => fnmatch pat' r
                    end
      else
        fun name => match name with
                    | EmptyString => false
                    | String a r => Ascii.eqb a c && fnmatch pat' r
                    end
  end.

Example fnmatch_h : fnmatch "*.h" "ffi.h" = true.
Proof. reflexivity. Qed.
Example fnmatch_c : fnmatch "*.h" "ffi.c" = false.
Proof. reflexivity. Qed.
Example fnmatch_hh : fnmatch "*.h" "ffi.h.in" = false.
Proof. reflexivity. Qed.

Module glob.

(** [glob.iglob(pathname)] where only the last component of
    [pathname] has wildcards: the entries of the directory that match
    it, hidden ones left out, each joined to the directory as given. *)
Definition iglob (pathname : string) : M (list string) := fun w =>
  let dirname := os_path.dirname pathname in
  let pattern := os_path.basename pathname in
  let D := if Str.nonempty dirname then os.abspath w dirname else cwd w in
  if os.is_dir (fs w) D then
    (Ok (os_path.join dirname <$>
           filter (fun name =>
                     (Str.startswith pattern "." || negb (Str.startswith name "."))
                     && fnmatch pattern name = true)
                  (os.listdir (fs w) D)), w)
  else (Ok [], w).

End glob.

(** ** The platform descriptors *)

Record Platform := {
  directory : string;
  sdk : string;
  arch : string;
  triple : string;
  version_min : string;
  prefix : string;
  suffix : string;
  src_dir : string;
  src_files : list string;
  hdr_files : list string
}.

(** The line feed of the guard strings. *)
Definition LF : string := String (ascii_of_nat 10) EmptyString.

Definition ios_simulator_platform : Platform := {|
  directory := "darwin_ios";
  sdk := "iphonesimulator";
  arch := "i386";
  triple := "i386-apple-darwin11";
  version_min := "-miphoneos-version-min=8.0";
  prefix := "#ifdef __i386__" +:+ LF +:+ LF;
  suffix := LF +:+ LF +:+ "#endif";
  src_dir := "x86";
  src_files := ["sysv.S"; "ffi.c"];
  hdr_files := ["internal.h"]
|}.

Definition ios_simulator64_platform : Platform := {|
  directory := "darwin_ios";
  sdk := "iphonesimulator";
  arch := "x86_64";
  triple := "x86_64-apple-darwin13";
  version_min := "-miphoneos-version-min=8.0";
  prefix := "#ifdef __x86_64__" +:+ LF +:+ LF;
  suffix := LF +:+ LF +:+ "#endif";
  src_dir := "x86";
  src_files := ["unix64.S"; "ffi64.c"; "ffiw64.c"; "win64.S"];
  hdr_files := ["internal64.h"; "asmnames.h"]
|}.

Definition ios_device_platform : Platform := {|
  directory := "darwin_ios";
  sdk := "iphoneos";
  arch := "armv7";
  triple := "arm-apple-darwin11";
  version_min := "-miphoneos-version-min=8.0";
  prefix := "#ifdef __arm__" +:+ LF +:+ LF;
  suffix := LF +:+ LF +:+ "#endif";
  src_dir := "arm";
  src_files := ["sysv.S"; "ffi.c"];
  hdr_files := ["internal.h"]
|}.

Definition ios_device64_platform : Platform := {|
  directory := "darwin_ios";
  sdk := "iphoneos";
  arch := "arm64";
  triple := "aarch64-apple-darwin13";
  version_min := "-miphoneos-version-min=8.0";
  prefix := "#ifdef __arm64__" +:+ LF +:+ LF;
  suffix := LF +:+ LF +:+ "#endif";
  src_dir := "aarch64";
  src_files := ["sysv.S"; "ffi.c"];
  hdr_files := ["internal.h"]
|}.

Definition tvos_simulator64_platform : Platform := {|
  directory := "darwin_tvos";
  sdk := "appletvsimulator";
  arch := "x86_64";
  triple := "x86_64-apple-darwin13";
  version_min := "-mappletvos-version-min=9.0";
  prefix := "#ifdef __x86_64__" +:+ LF +:+ LF;
  suffix := LF +:+ LF +:+ "#endif";
  src_dir := "x86";
  src_files := ["unix64.S"; "ffi64.c"];
  hdr_files := ["internal64.h"]
|}.

Definition tvos_device64_platform : Platform := {|
  directory := "darwin_tvos";
  sdk := "appletvos";
  arch := "arm64";
  triple := "aarch64-apple-darwin13";
  version_min := "-mappletvos-version-min=9.0";
  prefix := "#ifdef __arm64__" +:+ LF +:+ LF;
  suffix := LF +:+ LF +:+ "#endif";
  src_dir := "aarch64";
  src_files := ["sysv.S"; "ffi.c"];
  hdr_files := ["internal.h"]
|}.

Definition desktop_amd64_platform : Platform := {|
  directory := "darwin_osx";
  sdk := "macosx";
  arch := "x86_64";
  triple := "x86_64-apple-darwin10";
  version_min := "-mmacosx-version-min=10.6";
  prefix := "#ifdef __x86_64__" +:+ LF +:+ LF;
  suffix := LF +:+ LF +:+ "#endif";
  src_dir := "x86";
  src_files := ["unix64.S"; "ffi64.c"; "ffiw64.c"; "win64.S"];
  hdr_files := ["internal64.h"; "asmnames.h"]
|}.

Definition desktop_arm64_platform : Platform := {|
  directory := "darwin_osx";
  sdk := "macosx";
  arch := "arm64";
  triple := "aarch64-apple-darwin20";
  version_min := "-mmacosx-version-min=11.0";
  prefix := "#ifdef __arm64__" +:+ LF +:+ LF;
  suffix := LF +:+ LF +:+ "#endif";
  src_dir := "aarch64";
  src_files := ["sysv.S"; "ffi.c"];
  hdr_files := ["internal.h"]
|}.

(** ** The script *)

(** How a child process ended: with an exit status, or not started at
    all ([execve] failed). *)
Inductive child_outcome :=
| Exited (returncode : Z)
| NotStarted (e : errno).

(** A child process, run to completion in a working directory with an
    environment: what it leaves on the file system and how it ended. *)
Definition process : Type :=
  list string -> list (string * string) -> string -> filesystem ->
  child_outcome * filesystem.

Section Script.

(** The programs on the machine ([../configure] among them). *)
Variable child : process.

(** [subprocess.check_call(args, env=env)]. *)
Definition check_call (args : list string) (env : list (string * string)) : M unit :=
  fun w =>
    match child args env (cwd w) (fs w) with
    | (Exited rc, f') =>
        let w' := log (EvCall args env rc) (set_fs f' w) in
        if rc =? 0 then (Ok tt, w')
        else (Raise (CalledProcessError rc args), w')
    | (NotStarted e, f') =>
        (Raise (OSError e (default "" (head args))), set_fs f' w)
    end.

Definition mkdir_p (path : string) : M unit :=
  try_except_OSError (os.makedirs path)
    (fun e p => if decide (e ≠ EEXIST) then raise (OSError e p) else ret tt).

(** The name [move_file] writes to. *)
Definition out_filename (filename : string) (file_suffix : option string) : string :=
  match file_suffix with
  | Some sfx =>
      if Str.nonempty sfx then
        if bool_decide (filename ∈ ["internal64.h"; "asmnames.h"; "internal.h"])
        then filename
        else
          let split_name := os_path.splitext filename in
          split_name.1 +:+ "_" +:+ sfx +:+ split_name.2
      else filename
  | None => filename
  end.

Definition move_file (src_dir dst_dir filename : string)
    (file_suffix prefix suffix : option string) : M unit :=
  mkdir_p dst_dir >>
  let out_filename := out_filename filename file_suffix in
  let* in_file := open_r (os_path.join src_dir filename) in
  let* out_file := open_w (os_path.join dst_dir out_filename) in
  when (truthy prefix) (file_write out_file (default "" prefix)) >>
  (let* data := file_read in_file in file_write out_file data) >>
  when (truthy suffix) (file_write out_file (default "" suffix)).

(** The generator [list_files], run to the end. *)
Definition list_files (src_dir : string) (pattern : option string)
    (filelist : option (list string)) : M (list string) :=
  let* filelist :=
    (if truthy pattern
     then let* l := glob.iglob (os_path.join src_dir (default "" pattern)) in ret (Some l)
     else ret filelist) in
  match filelist with
  | Some l => ret (os_path.basename <$> l)
  | None => raise TypeError
  end.

Definition copy_files (src_dir dst_dir : string) (pattern : option string)
    (filelist : option (list string)) (file_suffix prefix suffix : option string) : M unit :=
  let* names := list_files src_dir pattern filelist in
  for_each names (fun filename =>
    move_file src_dir dst_dir filename file_suffix prefix suffix).

Definition copy_src_platform_files (platform : Platform) : M unit :=
  let dst_dir := os_path.join3 (directory platform) "src" (src_dir platform) in
  let src_dir := os_path.join "src" (src_dir platform) in
  copy_files src_dir dst_dir None (Some (src_files platform))
    (Some (arch platform)) (Some (prefix platform)) (Some (suffix platform)) >>
  copy_files src_dir dst_dir None (Some (hdr_files platform))
    None (Some (prefix platform)) (Some (suffix platform)).

Definition xcrun_cmd (platform : Platform) (cmd : string) : string :=
  "xcrun -sdk " +:+ sdk platform +:+ " " +:+ cmd +:+ " -arch " +:+ arch platform.

Definition build_dir (platform : Platform) : string :=
  let tag := sdk platform +:+ "-" +:+ arch platform in
  "build_" +:+ tag.

Definition build_env (platform : Platform) : list (string * string) :=
  [("CC", xcrun_cmd platform "clang");
   ("LD", xcrun_cmd platform "ld");
   ("CFLAGS", version_min platform +:+ " -fembed-bitcode")].

Definition tag_of (platform : Platform) : tag_tuple :=
  (prefix platform, arch platform, suffix platform).

(** [platform_headers] is the reference to the registry object. *)
Definition build_target (platform : Platform) (platform_headers : nat) : M unit :=
  let build_dir := build_dir platform in
  mkdir_p build_dir >>
  let env := build_env platform in
  let* working_dir := os.getcwd in
  try_finally
    (os.chdir build_dir >>
     check_call ["../configure"; "-host"; triple platform] env)
    (os.chdir working_dir) >>
  for_each [build_dir; os_path.join build_dir "include"] (fun src_dir =>
    copy_files src_dir (os_path.join (directory platform) "include")
      (Some "*.h") None
      (Some (arch platform)) (Some (prefix platform)) (Some (suffix platform)) >>
    let* names := list_files src_dir (Some "*.h") None in
    for_each names (fun filename =>
      defaultdict_add platform_headers filename (tag_of platform))).

(** One block of an umbrella header:
    ['%s#include <%s_%s%s>\n%s\n' % (tag[0], basename, tag[1], suffix, tag[2])]. *)
Definition include_block (basename ext : string) (tag : tag_tuple) : string :=
  tag.1.1 +:+ "#include <" +:+ basename +:+ "_" +:+ tag.1.2 +:+ ext +:+ ">" +:+ LF
  +:+ tag.2 +:+ LF.

(** The last part of [generate_source_and_headers]: one umbrella
    header per registry key. *)
Definition unify_headers (platform_headers : nat) : M unit :=
  mkdir_p "darwin_common/include" >>
  let* items := defaultdict_items platform_headers in
  for_each items (fun '(header_name, tag_tuples) =>
    let '(basename, suffix) := os_path.splitext header_name in
    let* header := open_w (os_path.join "darwin_common/include" header_name) in
    for_each tag_tuples (fun tag_tuple =>
      file_write header (include_block basename suffix tag_tuple))).

Definition generate_source_and_headers
    (generate_osx generate_ios generate_tvos : bool) : M unit :=
  copy_files "src" "darwin_common/src" (Some "*.c") None None None None >>
  copy_files "include" "darwin_common/include" (Some "*.h") None None None None >>
  when generate_ios
    (copy_src_platform_files ios_simulator64_platform >>
     copy_src_platform_files ios_device_platform >>
     copy_src_platform_files ios_device64_platform) >>
  when generate_tvos
    (copy_src_platform_files tvos_simulator64_platform >>
     copy_src_platform_files tvos_device64_platform) >>
  when generate_osx
    (copy_src_platform_files desktop_amd64_platform >>
     copy_src_platform_files desktop_arm64_platform) >>
  let* platform_headers := new_defaultdict in
  when generate_ios
    (build_target ios_simulator64_platform platform_headers >>
     build_target ios_device_platform platform_headers >>
     build_target ios_device64_platform platform_headers) >>
  when generate_tvos
    (build_target tvos_simulator64_platform platform_headers >>
     build_target tvos_device64_platform platform_headers) >>
  when generate_osx
    (build_target desktop_amd64_platform platform_headers >>
     build_target desktop_arm64_platform platform_headers) >>
  unify_headers platform_headers.

(** The [argparse] namespace of the three switches. *)
Record Namespace := {
  disable_ios : bool;
  disable_tvos : bool;
  disable_osx : bool
}.

(** [parser.parse_args()] on the command line after the program name:
    each switch is [store_true]; an argument that is not one of the
    three switches ends the process with status 2 ([argparse]'s
    abbreviations and its [-h] are left out). *)
Fixpoint parse_args (argv : list string) : result Namespace :=
  match argv with
  | [] => Ok {| disable_ios := false; disable_tvos := false; disable_osx := false |}
  | a :: rest =>
      match parse_args rest with
      | Ok ns =>
          if String.eqb a "--disable-ios"
          then Ok {| disable_ios := true; disable_tvos := disable_tvos ns;
                     disable_osx := disable_osx ns |}
          else if String.eqb a "--disable-tvos"
          then Ok {| disable_ios := disable_ios ns; disable_tvos := true;
                     disable_osx := disable_osx ns |}
          else if String.eqb a "--disable-osx"
          then Ok {| disable_ios := disable_ios ns; disable_tvos := disable_tvos ns;
                     disable_osx := true |}
          else Raise (SystemExit 2)
      | Raise e => Raise e
      end
  end.

(** The [__main__] block. *)
Definition main (argv : list string) : M unit :=
  match parse_args argv with
  | Ok args =>
      generate_source_and_headers
        (negb (disable_osx args)) (negb (disable_ios args)) false
  | Raise e => raise e
  end.

End Script.

(** ** Vocabulary of the properties *)

(** The events a computation added to the trace, from the worlds before
    and after it. *)
Definition new_events (w w' : world) : list event :=
  drop (length (trace w)) (trace w').

(** [path] is [dir] or lies below it. *)
Definition under (dir path : string) : bool :=
  String.eqb path dir || Str.startswith path (dir +:+ "/").

(** The event creates or writes something in the output tree of the
    platform's family. *)
Definition in_tree (p : Platform) (ev : event) : bool :=
  match ev with
  | EvMakedirs path | EvOpenW path => under (directory p) path
  | EvCall _ _ _ => false
  end.

(** The paths [copy_src_platform_files] writes for a platform. *)
Definition staged_paths (p : Platform) : list string :=
  let dst := os_path.join3 (directory p) "src" (src_dir p) in
  ((fun f => os_path.join dst (out_filename (os_path.basename f) (Some (arch p))))
     <$> src_files p)
  ++ ((fun f => os_path.join dst (out_filename (os_path.basename f) None))
        <$> hdr_files p).

(** The event writes one of the staged sources of the platform. *)
Definition stages (p : Platform) (ev : event) : bool :=
  match ev with
  | EvOpenW path => existsb (String.eqb path) (staged_paths p)
  | _ => false
  end.

(** The event belongs to the build of the platform: its build
    directory, or its run of configure. *)
Definition builds (p : Platform) (ev : event) : bool :=
  match ev with
  | EvMakedirs path | EvOpenW path => under (build_dir p) path
  | EvCall args env _ =>
      bool_decide (args = ["../configure"; "-host"; triple p])
      && bool_decide (env = build_env p)
  end.

(** The event is part of processing the platform: staging its sources
    or building it. *)
Definition processes (p : Platform) (ev : event) : bool :=
  stages p ev || builds p ev.

(** The event concerns one of the platforms [ps]: output tree, staging
    or build. *)
Definition concerns (ps : list Platform) (ev : event) : bool :=
  existsb (fun p => in_tree p ev || processes p ev) ps.

(** The events that staging and building the platform leave when both
    complete. *)
Definition stage_events (p : Platform) : list event :=
  EvOpenW <$> staged_paths p.
Definition build_events (p : Platform) : list event :=
  [EvMakedirs (build_dir p);
   EvCall ["../configure"; "-host"; triple p] (build_env p) 0].

(** The platform was staged and built within the events [new]. *)
Definition processed (new : list event) (p : Platform) : Prop :=
  Forall (fun ev => In ev new) (stage_events p ++ build_events p).

(** The descriptors [generate_source_and_headers] processes for each
    family. *)
Definition ios_platforms : list Platform :=
  [ios_simulator64_platform; ios_device_platform; ios_device64_platform].
Definition tvos_platforms : list Platform :=
  [tvos_simulator64_platform; tvos_device64_platform].
Definition osx_platforms : list Platform :=
  [desktop_amd64_platform; desktop_arm64_platform].

(** The eight descriptors of the table. *)
Definition all_platforms : list Platform :=
  [ios_simulator_platform; ios_simulator64_platform; ios_device_platform;
   ios_device64_platform; tvos_simulator64_platform; tvos_device64_platform;
   desktop_amd64_platform; desktop_arm64_platform].

Definition relative (path : string) : bool := negb (Str.startswith path "/").




(** The three header names that are never suffixed. *)
Definition allow_list : list string := ["internal64.h"; "asmnames.h"; "internal.h"].




(** The body of the umbrella header [header_name] for the triples
    [tags], in the order given. *)
Definition umbrella_body (header_name : string) (tags : list tag_tuple) : string :=
  let '(basename, ext) := os_path.splitext header_name in
  foldr (fun tag rest => include_block basename ext tag +:+ rest) "" tags.

(** A configure that leaves a header [foo.h] in its working directory. *)
Definition configure_foo : process := fun args env d f =>
  (Exited 0, Filesystem (<[d +:+ "/foo.h" := "foo"]> (files f)) (dirs f)).

(** The set recorded for a header name, empty when there is none. *)
Definition tags_of (d : registry) (header_name : string) : gset tag_tuple :=
  default ∅ (d !! header_name).

(** The header names [list_files] finds in a directory of a world. *)
Definition glob_names (w : world) (src_dir pattern : string) : list string :=
  match (list_files src_dir (Some pattern) None w).1 with
  | Ok names => names
  | Raise _ => []
  end.

(** The headers in the two directories [build_target] collects from. *)
Definition found_headers (p : Platform) (w : world) : list string :=
  glob_names w (build_dir p) "*.h"
  ++ glob_names w (os_path.join (build_dir p) "include") "*.h".

(** The include directory a platform's headers are staged into is
    apart from its build directories: relative paths, neither inside
    the other. *)
Definition apart (inc src_dir : string) : bool :=
  let d := os_path.dirname (os_path.join src_dir "*.h") in
  relative d && Str.nonempty d
  && negb (Str.startswith ("/" +:+ inc +:+ "/") ("/" +:+ d))
  && negb (Str.startswith ("/" +:+ d) ("/" +:+ inc +:+ "/")).

Definition build_separated (p : Platform) : bool :=
  let inc := os_path.join (directory p) "include" in
  relative inc && Str.nonempty inc && negb (Str.endswith inc "/")
  && apart inc (build_dir p)
  && apart inc (os_path.join (build_dir p) "include").

(** The descriptors a run processes, from its three switches. *)
Definition enabled_platforms (generate_osx generate_ios generate_tvos : bool)
    : list Platform :=
  (if generate_ios then ios_platforms else [])
  ++ (if generate_tvos then tvos_platforms else [])
  ++ (if generate_osx then osx_platforms else []).


(** A configure run that ended with a non-zero status. *)
Definition failed_call (ev : event) : bool :=
  match ev with
  | EvCall _ _ rc => negb (rc =? 0)
  | _ => false
  end.


(** ** A sample source tree and sample configure scripts *)

#[global] Instance event_eq_dec : EqDecision event.
Proof. solve_decision. Defined.

Definition sample_fs : filesystem :=
  Filesystem
    (list_to_map
       [("/w/configure", "#!/bin/sh");
        ("/w/src/prep_cif.c", "prep");
        ("/w/include/ffi_common.h", "common");
        ("/w/src/x86/unix64.S", "unix64"); ("/w/src/x86/ffi64.c", "ffi64");
        ("/w/src/x86/ffiw64.c", "ffiw64"); ("/w/src/x86/win64.S", "win64");
        ("/w/src/x86/internal64.h", "x86 internal64");
        ("/w/src/x86/asmnames.h", "x86 asmnames");
        ("/w/src/arm/sysv.S", "arm sysv"); ("/w/src/arm/ffi.c", "arm ffi");
        ("/w/src/arm/internal.h", "arm internal");
        ("/w/src/aarch64/sysv.S", "aarch64 sysv");
        ("/w/src/aarch64/ffi.c", "aarch64 ffi");
        ("/w/src/aarch64/internal.h", "aarch64 internal")])
    (list_to_set
       ["/w"; "/w/src"; "/w/src/x86"; "/w/src/arm"; "/w/src/aarch64"; "/w/include"]).

Definition sample_world : world := World "/w" sample_fs [] [].

(** A registry in which two descriptors have recorded [foo.h], and a
    world that holds it. *)
Definition sample_tags : gset tag_tuple :=
  {[ ("#ifdef __x86_64__" +:+ LF +:+ LF, "x86_64", LF +:+ LF +:+ "#endif");
     ("#ifdef __arm64__" +:+ LF +:+ LF, "arm64", LF +:+ LF +:+ "#endif") ]}.
Definition sample_registry : registry := {[ "foo.h" := sample_tags ]}.
Definition sample_world_with_registry : world :=
  World "/w" sample_fs [sample_registry] [].

(** The sample world with one empty registry object allocated. *)
Definition sample_world_empty_registry : world :=
  World "/w" sample_fs [∅] [].

(** A configure that succeeds and leaves [fficonfig.h] and
    [include/ffi.h] in its working directory. *)
Definition configure_ok : process := fun args env d f =>
  (Exited 0,
   Filesystem
     (<[d +:+ "/include/ffi.h" := "ffi for " +:+ default "" (last args)]>
        (<[d +:+ "/fficonfig.h" := "config"]> (files f)))
     (dirs f ∪ {[d +:+ "/include"]})).

(** A configure that fails with status 1 for one host triple and
    behaves as [configure_ok] for the others. *)
Definition configure_failing_for (host : string) : process := fun args env d f =>
  if bool_decide (last args = Some host) then (Exited 1, f)
  else configure_ok args env d f.

(** ** Notions the proofs are stated with *)

(** Whether a computation ended by an exception. *)
Definition is_raise {A} (r : result A) : bool :=
  match r with Raise _ => true | Ok _ => false end.

(** A computation that asks nothing of the operating system that the
    trace records. *)
Definition silent {A} (m : M A) : Prop :=
  forall w r w', m w = (r, w') -> trace w' = trace w.

(** The event is none of those [f] picks out. *)
Definition avoids (f : event -> bool) (ev : event) : Prop := f ev = false.

(** The namespace after [--disable-tvos] has been seen. *)
Definition with_tvos_disabled (ns : Namespace) : Namespace :=
  {| disable_ios := disable_ios ns; disable_tvos := true; disable_osx := disable_osx ns |}.

(** Whenever [m] ends normally, it has appended all of [S] to the
    trace. *)
Definition emits {A} (S : list event) (m : M A) : Prop :=
  forall w r w', m w = (r, w') ->
    exists new, trace w' = trace w ++ new
                /\ (is_raise r = false -> Forall (fun ev => In ev new) S).

(** The invariant that accepts every event. *)
Definition trivially : event -> Prop := fun _ => True.

(** The child processes leave the directories of the file system in
    place. *)
Definition keeps_directories (child : process) : Prop :=
  forall args env d f D,
    os.is_dir f D = true -> os.is_dir (child args env d f).2 D = true.

(** The paths [move_file] reads and writes, as the kernel resolves
    them. *)
Definition source_of (w : world) (src filename : string) : string :=
  os.abspath w (os_path.join src filename).
Definition target_of (w : world) (dst filename : string)
    (file_suffix : option string) : string :=
  os.abspath w (os_path.join dst (out_filename filename file_suffix)).

(** The path an umbrella header is written to. *)
Definition umbrella_target (w : world) (header_name : string) : string :=
  os.abspath w (os_path.join "darwin_common/include" header_name).

(** The effect of [defaultdict_add] on the heap, once and over a list
    of keys, and on the registry itself. *)
Definition heap_add (r : nat) (key : string) (t : tag_tuple)
    (h : list registry) : list registry :=
  <[r := reg_add key t (default ∅ (h !! r))]> h.

Definition heap_add_all (r : nat) (t : tag_tuple) (names : list string)
    (h : list registry) : list registry :=
  foldl (fun h f => heap_add r f t h) h names.

Definition add_all (t : tag_tuple) (names : list string) (d : registry) : registry :=
  foldl (fun d f => reg_add f t d) d names.

(** A part of the world that the file system, the trace and the
    working directory do not enter. *)
Definition no_fs (X : Type) (proj : world -> X) : Prop :=
  (forall f w, proj (set_fs f w) = proj w)
  /\ (forall ev w, proj (log ev w) = proj w)
  /\ (forall d w, proj (set_cwd d w) = proj w).

(** The loop of [build_target] over the two directories. *)
Definition collect_headers (p : Platform) (r : nat) (dirs : list string) : M unit :=
  for_each dirs (fun src_dir =>
    copy_files src_dir (os_path.join (directory p) "include")
      (Some "*.h") None
      (Some (arch p)) (Some (prefix p)) (Some (suffix p)) >>
    let* names := list_files src_dir (Some "*.h") None in
    for_each names (fun filename =>
      defaultdict_add r filename (tag_of p))).

(** A name of one path component. *)
Definition slash_free (name : string) : Prop := Str.contains Str.slash name = false.

(** Computations that maintain an invariant of the heap. *)
Definition maintains (I : list registry -> Prop) {A} (m : M A) : Prop :=
  forall w res w', m w = (res, w') -> I (heap w) -> I (heap w').

(** The registry object at index [n] of a heap of [n + 1] objects
    satisfies [J]. *)
Definition registry_ok (J : registry -> Prop) (n : nat) (h : list registry) : Prop :=
  length h = S n /\ J (default ∅ (h !! n)).

(** A property of registries that recording the triple of [p] under
    names of one component keeps. *)
Definition kept_by (p : Platform) (J : registry -> Prop) : Prop :=
  forall names d, Forall slash_free names -> J d -> J (add_all (tag_of p) names d).

(** The keys of a registry are names of one component. *)
Definition base_names (d : registry) : Prop :=
  forall name, is_Some (d !! name) -> slash_free name.

(** How a file system has grown: directories and files are kept, and
    the new ones are among [newdirs] and [newfiles]. *)
Definition grown (newdirs newfiles : string -> Prop) (f f' : filesystem) : Prop :=
  dirs f ⊆ dirs f'
  /\ dom (files f) ⊆ dom (files f')
  /\ (forall K, K ∈ dirs f' -> K ∈ dirs f \/ newdirs K)
  /\ (forall K, K ∈ dom (files f') -> K ∈ dom (files f) \/ newfiles K).

(** The directories [mkdir_p dst] may create. *)
Definition new_dirs (w : world) (dst : string) (K : string) : Prop :=
  K ∈ os.ancestors (os.abspath w dst) \/ K = os.abspath w dst.

(** Every path that exists. *)
Definition keys (f : filesystem) : gset string := dom (files f) ∪ dirs f.

(** The directory [glob.iglob] lists. *)
Definition glob_dir (w : world) (src_dir : string) : string :=
  let dirname := os_path.dirname (os_path.join src_dir "*.h") in
  if Str.nonempty dirname then os.abspath w dirname else cwd w.

(** ** Notions of the further properties *)

(** The directory [glob.iglob pathname] lists. *)
Definition glob_root (w : world) (pathname : string) : string :=
  let dirname := os_path.dirname pathname in
  if Str.nonempty dirname then os.abspath w dirname else cwd w.

(** The wildcard characters of [glob] ([glob.has_magic]). *)
Definition has_magic (s : string) : bool :=
  Str.contains "*" s || Str.contains "?" s || Str.contains "[" s.

(** The calls of [glob] the model covers: a literal directory, and a
    pattern of one component made of literal characters, [*] and [?]. *)
Definition plain_pattern (src pat : string) : bool :=
  negb (has_magic src) && negb (Str.contains "[" pat) && Str.nonempty pat
  && negb (Str.contains Str.slash pat).

(** The first part of [build_target]: the build directory and the run
    of configure in it. *)
Definition configure_phase (child : process) (p : Platform) : M unit :=
  mkdir_p (build_dir p) >>
  let* working_dir := os.getcwd in
  try_finally
    (os.chdir (build_dir p) >>
     check_call child ["../configure"; "-host"; triple p] (build_env p))
    (os.chdir working_dir).

(** Computations whose exceptions are all among [E]. *)
Definition raises_only (E : exn -> Prop) {A} (m : M A) : Prop :=
  forall w e w', m w = (Raise e, w') -> E e.

(** The exception is an [OSError], whatever its [errno] and path. *)
Definition is_OSError (e : exn) : Prop := exists en path, e = OSError en path.


(** The event opens a file for writing. *)
Definition is_write (ev : event) : bool :=
  match ev with EvOpenW _ => true | _ => false end.

(** The event is a run of a child process. *)
Definition is_call (ev : event) : bool :=
  match ev with EvCall _ _ _ => true | _ => false end.







(** Every key of the registry is the name of one path component and
    holds at least one triple. *)
Definition well_keyed (d : registry) : Prop :=
  forall name S, d !! name = Some S -> slash_free name /\ S <> ∅.

(** If the event is the run of a child process, it is the configure
    command of one of [ps] with the environment [build_target] gives
    it. *)
Definition configure_call (ps : list Platform) (ev : event) : Prop :=
  match ev with
  | EvCall args env _ =>
      exists p, In p ps /\ args = ["../configure"; "-host"; triple p]
                /\ env = build_env p
  | _ => True
  end.


(** A relative path that names a directory as [os.path.join] expects
    it: not empty and without a trailing slash. *)
Definition plain_dir (d : string) : bool :=
  relative d && Str.nonempty d && negb (Str.endswith d "/").



(** The process is in the directory [home], which exists. *)
Definition at_home (home : string) (w : world) : Prop :=
  cwd w = home /\ os.is_dir (fs w) home = true.

(** Computations that keep a property of the world, whatever their
    outcome. *)
Definition stays (I : world -> Prop) {A} (m : M A) : Prop :=
  forall w r w', m w = (r, w') -> I w -> I w'.

(** * Properties *)

(** ** Inversion of the monadic combinators *)

Lemma bind_inv {A B} (m : M A) (k : A -> M B) w r w' :
  bind m k w = (r, w') ->
  (exists a w1, m w = (Ok a, w1) /\ k a w1 = (r, w'))
  \/ (exists e, m w = (Raise e, w') /\ r = Raise e).
Proof.
  unfold bind. destruct (m w) as [[a|e] w1]; intros H.
  - left. eauto.
  - right. inversion H; subst. eauto.
Qed.

Lemma bind_ok {A B} (m : M A) (k : A -> M B) w a w1 :
  m w = (Ok a, w1) -> bind m k w = k a w1.
Proof. unfold bind. intros ->. reflexivity. Qed.

Lemma bind_raise {A B} (m : M A) (k : A -> M B) w e w1 :
  m w = (Raise e, w1) -> bind m k w = (Raise e, w1).
Proof. unfold bind. intros ->. reflexivity. Qed.

Lemma try_finally_inv {A} (body : M A) (fin : M unit) w r w' :
  try_finally body fin w = (r, w') ->
  exists r1 w1 r2, body w = (r1, w1) /\ fin w1 = (r2, w')
    /\ r = match r2 with Ok _ => r1 | Raise e => Raise e end.
Proof.
  unfold try_finally. destruct (body w) as [r1 w1].
  destruct (fin w1) as [[u|e] w2] eqn:Hfin; intros H; inversion H; subst;
    do 3 eexists; repeat split; eauto.
Qed.

(** ** What each primitive appends to the trace *)

Lemma silent_ret {A} (a : A) : silent (ret a).
Proof. intros w r w' H. inversion H. reflexivity. Qed.

Lemma silent_raise {A} e : silent (@raise A e).
Proof. intros w r w' H. inversion H. reflexivity. Qed.

Lemma silent_bind {A B} (m : M A) (k : A -> M B) :
  silent m -> (forall a, silent (k a)) -> silent (bind m k).
Proof.
  intros Hm Hk w r w' H. apply bind_inv in H as [(a & w1 & H1 & H2)|(e & H1 & _)].
  - rewrite (Hk _ _ _ _ H2). eauto.
  - eauto.
Qed.

Lemma silent_when b m : silent m -> silent (when b m).
Proof. destruct b; simpl; auto using silent_ret. Qed.

Lemma silent_for_each {A} (l : list A) body :
  (forall x, silent (body x)) -> silent (for_each l body).
Proof.
  intros Hb. induction l as [|x l IH]; simpl.
  - apply silent_ret.
  - apply silent_bind; auto.
Qed.

Lemma silent_open_r path : silent (open_r path).
Proof.
  intros w r w'. unfold open_r.
  destruct (files (fs w) !! os.abspath w path); [|destruct (os.is_dir _ _)];
    intros H; inversion H; reflexivity.
Qed.

Lemma silent_file_read h : silent (file_read h).
Proof. intros w r w' H. inversion H. reflexivity. Qed.

Lemma silent_file_write h d : silent (file_write h d).
Proof. intros w r w' H. inversion H. reflexivity. Qed.

Lemma silent_getcwd : silent os.getcwd.
Proof. intros w r w' H. inversion H. reflexivity. Qed.

Lemma silent_chdir path : silent (os.chdir path).
Proof.
  intros w r w'. unfold os.chdir.
  destruct (os.is_dir _ _); [|destruct (bool_decide _)];
    intros H; inversion H; reflexivity.
Qed.

Lemma silent_new_defaultdict : silent new_defaultdict.
Proof. intros w r w' H. inversion H. reflexivity. Qed.

Lemma silent_defaultdict_add r key t : silent (defaultdict_add r key t).
Proof. intros w r' w' H. inversion H. reflexivity. Qed.

Lemma silent_defaultdict_items r : silent (defaultdict_items r).
Proof. intros w r' w' H. inversion H. reflexivity. Qed.

Lemma silent_iglob pathname : silent (glob.iglob pathname).
Proof.
  intros w r w'. unfold glob.iglob.
  destruct (os.is_dir _ _); intros H; inversion H; reflexivity.
Qed.

Lemma silent_list_files src pattern filelist :
  silent (list_files src pattern filelist).
Proof.
  unfold list_files. apply silent_bind.
  - destruct (truthy pattern).
    + apply silent_bind; [apply silent_iglob | intros; apply silent_ret].
    + apply silent_ret.
  - intros [l|]; [apply silent_ret | apply silent_raise].
Qed.

Lemma trace_makedirs path w r w' :
  os.makedirs path w = (r, w') -> trace w' = trace w ++ [EvMakedirs path].
Proof.
  unfold os.makedirs. cbv zeta.
  destruct (os.exists_ _ _); [|destruct (existsb _ _)];
    intros H; inversion H; reflexivity.
Qed.

Lemma trace_mkdir_p path w r w' :
  mkdir_p path w = (r, w') -> trace w' = trace w ++ [EvMakedirs path].
Proof.
  unfold mkdir_p, try_except_OSError.
  destruct (os.makedirs path w) as [[u|e] w1] eqn:Hmk;
    apply trace_makedirs in Hmk.
  - intros H; inversion H; subst; auto.
  - destruct e as [e p| | |].
    + destruct (decide (e ≠ EEXIST)); intros H; inversion H; subst; auto.
    + intros H; inversion H; subst; auto.
    + intros H; inversion H; subst; auto.
    + intros H; inversion H; subst; auto.
Qed.

Lemma trace_open_w path w r w' :
  open_w path w = (r, w') -> trace w' = trace w ++ [EvOpenW path].
Proof.
  unfold open_w. cbv zeta.
  destruct (os.is_dir _ _); [|destruct (negb _)];
    intros H; inversion H; reflexivity.
Qed.

Lemma trace_check_call child args env w r w' :
  check_call child args env w = (r, w') ->
  (exists e, r = Raise e /\ trace w' = trace w)
  \/ (exists rc, trace w' = trace w ++ [EvCall args env rc]
                 /\ (rc = 0 -> r = Ok tt)
                 /\ (rc <> 0 -> r = Raise (CalledProcessError rc args))).
Proof.
  unfold check_call. destruct (child args env (cwd w) (fs w)) as [[rc|e] f'].
  - destruct (Z.eqb_spec rc 0) as [->|Hne]; intros H; inversion H; subst;
      right; eexists; simpl; repeat split; eauto; congruence.
  - intros H; inversion H; subst. left. eauto.
Qed.

(** ** Names and paths *)

Lemma rfind_ge c s : -1 <= Str.rfind c s.
Proof.
  induction s as [|a r IH]; simpl; [lia|].
  destruct (Z.leb_spec 0 (Str.rfind c r)); [lia|].
  destruct (Ascii.eqb a c); lia.
Qed.

Lemma rfind_absent c s : Str.rfind c s < 0 -> Str.contains c s = false.
Proof.
  induction s as [|a r IH]; simpl; [reflexivity|].
  destruct (Z.leb_spec 0 (Str.rfind c r)); [lia|].
  destruct (Ascii.eqb a c); [lia|]. intros _. simpl. apply IH. lia.
Qed.

Lemma basename_no_slash p : Str.contains Str.slash (os_path.basename p) = false.
Proof.
  unfold os_path.basename. induction p as [|a r IH]; [reflexivity|].
  simpl Str.rfind. pose proof (rfind_ge Str.slash r) as Hge.
  destruct (Z.leb_spec 0 (Str.rfind Str.slash r)) as [Hpos|Hneg].
  - replace (Z.to_nat (1 + Str.rfind Str.slash r + 1))
      with (S (Z.to_nat (Str.rfind Str.slash r + 1))) by lia.
    exact IH.
  - pose proof (rfind_absent _ _ Hneg) as Hr.
    destruct (Ascii.eqb a Str.slash) eqn:Ha; simpl; [exact Hr|].
    rewrite Ha, Hr. reflexivity.
Qed.

Lemma no_slash_relative name :
  Str.contains Str.slash name = false -> Str.startswith name "/" = false.
Proof.
  destruct name as [|a r]; [reflexivity|]. simpl. unfold Str.slash.
  destruct (Ascii.eqb a "/"); [discriminate|reflexivity].
Qed.

Lemma append_cons a s t : String a s +:+ t = String a (s +:+ t).
Proof. reflexivity. Qed.

Lemma append_nil t : "" +:+ t = t.
Proof. reflexivity. Qed.

Lemma take_relative k name rest :
  Str.startswith name "/" = false ->
  Str.startswith (Str.take k name +:+ String "_" rest) "/" = false.
Proof.
  destruct k as [|k], name as [|a r]; try reflexivity.
  simpl Str.take. rewrite append_cons. simpl.
  rewrite !andb_true_r. auto.
Qed.

Lemma take_all s : Str.take (String.length s) s = s.
Proof. induction s; simpl; congruence. Qed.

Lemma splitext_stem p : exists k, (os_path.splitext p).1 = Str.take k p.
Proof.
  unfold os_path.splitext. destruct (_ && _).
  - eexists; reflexivity.
  - exists (String.length p). simpl. symmetry. apply take_all.
Qed.

Lemma out_filename_relative name file_suffix :
  Str.startswith name "/" = false ->
  Str.startswith (out_filename name file_suffix) "/" = false.
Proof.
  intros Hn. unfold out_filename.
  destruct file_suffix as [sfx|]; [|exact Hn].
  destruct (Str.nonempty sfx); [|exact Hn].
  destruct (bool_decide _); [exact Hn|].
  destruct (splitext_stem name) as [k ->].
  apply take_relative, Hn.
Qed.

Lemma join_relative a b :
  Str.startswith b "/" = false -> Str.nonempty a = true -> Str.endswith a "/" = false ->
  os_path.join a b = a +:+ "/" +:+ b.
Proof. unfold os_path.join. intros -> -> ->. reflexivity. Qed.

Lemma list_files_names src pattern filelist w r w' :
  list_files src pattern filelist w = (r, w') ->
  w' = w /\ forall names, r = Ok names ->
    Forall (fun name => Str.contains Str.slash name = false) names.
Proof.
  unfold list_files. intros H.
  apply bind_inv in H as [(fl & w1 & H1 & H2)|(e & H1 & ->)].
  - assert (w1 = w) as ->.
    { destruct (truthy pattern).
      - apply bind_inv in H1 as [(l & w2 & H3 & H4)|(e & H3 & ?)].
        + inversion H4; subst. unfold glob.iglob in H3.
          destruct (os.is_dir _ _); inversion H3; reflexivity.
        + unfold glob.iglob in H3.
          destruct (os.is_dir _ _); inversion H3; reflexivity.
      - inversion H1; reflexivity. }
    destruct fl as [l|]; inversion H2; subst. 
    + split; [reflexivity|]. intros names Hn. inversion Hn; subst.
      apply Forall_fmap, Forall_forall. intros x _. apply basename_no_slash.
    + split; [reflexivity|]. intros names Hn. discriminate.
  - split; [|intros names Hn; discriminate].
    destruct (truthy pattern).
    + apply bind_inv in H1 as [(l & w2 & H3 & H4)|(e' & H3 & ?)].
      * inversion H4.
      * unfold glob.iglob in H3.
        destruct (os.is_dir _ _); inversion H3; reflexivity.
    + inversion H1.
Qed.

(** ** Invariants of the trace *)

Section TraceInvariant.

(** [Q raised new]: the events [new] are acceptable for a computation
    that ended normally ([raised = false]) or by an exception. *)
Variable Q : bool -> list event -> Prop.
Hypothesis Q_nil : Q false [].
Hypothesis Q_app : forall b n1 n2, Q false n1 -> Q b n2 -> Q b (n1 ++ n2).
Hypothesis Q_raise : forall n, Q false n -> Q true n.

Definition respects {A} (m : M A) : Prop :=
  forall w r w', m w = (r, w') ->
    exists new, trace w' = trace w ++ new /\ Q (is_raise r) new.

Lemma Q_any b n : Q false n -> Q b n.
Proof. destruct b; auto. Qed.

Lemma respects_silent {A} (m : M A) : silent m -> respects m.
Proof.
  intros Hs w r w' H. exists []. rewrite app_nil_r.
  split; [eapply Hs; eauto | apply Q_any, Q_nil].
Qed.

Lemma respects_bind {A B} (m : M A) (k : A -> M B) :
  respects m -> (forall a, respects (k a)) -> respects (bind m k).
Proof.
  intros Hm Hk w r w' H.
  apply bind_inv in H as [(a & w1 & H1 & H2)|(e & H1 & ->)].
  - destruct (Hm _ _ _ H1) as (n1 & E1 & Q1).
    destruct (Hk _ _ _ _ H2) as (n2 & E2 & Q2).
    exists (n1 ++ n2). rewrite E2, E1, app_assoc. split; [reflexivity|].
    apply Q_app; assumption.
  - destruct (Hm _ _ _ H1) as (n1 & E1 & Q1). eauto.
Qed.


Lemma respects_for_each {A} (l : list A) body :
  (forall x, x ∈ l -> respects (body x)) -> respects (for_each l body).
Proof.
  induction l as [|x l IH]; intros Hb; simpl.
  - apply respects_silent, silent_ret.
  - apply respects_bind.
    + apply Hb. left.
    + intros _. apply IH. intros y Hy. apply Hb. right. exact Hy.
Qed.

Lemma respects_try_finally {A} (body : M A) fin :
  respects body -> silent fin -> respects (try_finally body fin).
Proof.
  intros Hb Hf w r w' H.
  apply try_finally_inv in H as (r1 & w1 & r2 & H1 & H2 & ->).
  destruct (Hb _ _ _ H1) as (n & E & Qn).
  exists n. rewrite (Hf _ _ _ H2). split; [exact E|].
  destruct r2; [exact Qn|]. destruct r1; simpl in *; auto.
Qed.

Lemma respects_mkdir_p path :
  Q false [EvMakedirs path] -> respects (mkdir_p path).
Proof.
  intros HQ w r w' H. eexists. split; [eapply trace_mkdir_p; eauto|].
  apply Q_any, HQ.
Qed.

Lemma respects_open_w path :
  Q false [EvOpenW path] -> respects (open_w path).
Proof.
  intros HQ w r w' H. eexists. split; [eapply trace_open_w; eauto|].
  apply Q_any, HQ.
Qed.

Lemma respects_move_file src dst filename file_suffix pre suf :
  Q false [EvMakedirs dst] ->
  Q false [EvOpenW (os_path.join dst (out_filename filename file_suffix))] ->
  respects (move_file src dst filename file_suffix pre suf).
Proof.
  intros Hmk Hop. unfold move_file.
  apply respects_bind; [apply respects_mkdir_p, Hmk|]. intros _.
  apply respects_bind; [apply respects_silent, silent_open_r|]. intros h.
  apply respects_bind; [apply respects_open_w, Hop|]. intros o.
  apply respects_silent.
  repeat (apply silent_bind || intros _ || apply silent_when
          || apply silent_file_write || apply silent_file_read).
Qed.

End TraceInvariant.

Section ScriptTrace.

Variable child : process.
Variable Q : bool -> list event -> Prop.
Hypothesis Q_nil : Q false [].
Hypothesis Q_app : forall b n1 n2, Q false n1 -> Q b n2 -> Q b (n1 ++ n2).
Hypothesis Q_raise : forall n, Q false n -> Q true n.

(** The events the invariant accepts one at a time. *)
Variable E : event -> Prop.
Hypothesis Q_one : forall ev, E ev -> Q false [ev].

Local Ltac side := try exact Q_nil; try exact Q_app; try exact Q_raise.
Local Ltac r_bind := apply respects_bind; side.
Local Ltac r_silent := apply respects_silent; side.

(** What the invariant has to accept of staging [names] into [dst]. *)
Definition writes_ok (dst : string) (file_suffix : option string)
    (names : list string) : Prop :=
  Forall (fun name =>
            E (EvOpenW (os_path.join dst (out_filename name file_suffix)))) names.

Lemma respects_staging src dst names file_suffix pre suf :
  E (EvMakedirs dst) -> writes_ok dst file_suffix names ->
  respects Q (for_each names (fun filename =>
                move_file src dst filename file_suffix pre suf)).
Proof.
  intros Hmk Hw. apply respects_for_each; side. intros x Hx.
  apply respects_move_file; side; auto.
  apply Q_one. unfold writes_ok in Hw. rewrite Forall_forall in Hw. auto.
Qed.

Lemma respects_copy_files src dst pattern filelist file_suffix pre suf :
  E (EvMakedirs dst) ->
  (forall w names w', list_files src pattern filelist w = (Ok names, w') ->
     writes_ok dst file_suffix names) ->
  respects Q (copy_files src dst pattern filelist file_suffix pre suf).
Proof.
  intros Hmk Hw w r w' H. unfold copy_files in H.
  apply bind_inv in H as [(names & w1 & H1 & H2)|(e & H1 & ->)].
  - pose proof (Hw _ _ _ H1) as Hok.
    apply list_files_names in H1 as [-> _].
    eapply respects_staging; eauto.
  - apply list_files_names in H1 as [-> _].
    exists []. rewrite app_nil_r. split; [reflexivity|]. apply Q_any; auto.
Qed.

Lemma respects_copy_filelist src dst l file_suffix pre suf :
  E (EvMakedirs dst) -> writes_ok dst file_suffix (os_path.basename <$> l) ->
  respects Q (copy_files src dst None (Some l) file_suffix pre suf).
Proof.
  intros Hmk Hw. apply respects_copy_files; [exact Hmk|].
  intros w names w' H. inversion H; subst. exact Hw.
Qed.

Lemma respects_copy_glob src dst pat file_suffix pre suf :
  E (EvMakedirs dst) ->
  (forall name, Str.contains Str.slash name = false ->
     E (EvOpenW (os_path.join dst (out_filename name file_suffix)))) ->
  respects Q (copy_files src dst (Some pat) None file_suffix pre suf).
Proof.
  intros Hmk Hw. apply respects_copy_files; [exact Hmk|].
  intros w names w' H. apply list_files_names in H as [_ Hn].
  specialize (Hn names eq_refl). unfold writes_ok.
  eapply Forall_impl; [exact Hn|]. simpl. auto.
Qed.

(** The invariant accepts everything staging [p]'s sources does. *)
Definition staging_ok (p : Platform) : Prop :=
  let dst := os_path.join3 (directory p) "src" (src_dir p) in
  E (EvMakedirs dst)
  /\ writes_ok dst (Some (arch p)) (os_path.basename <$> src_files p)
  /\ writes_ok dst None (os_path.basename <$> hdr_files p).

Lemma respects_copy_src_platform_files p :
  staging_ok p -> respects Q (copy_src_platform_files p).
Proof.
  intros (Hmk & Hs & Hh). unfold copy_src_platform_files.
  r_bind; [|intros _]; apply respects_copy_filelist; auto.
Qed.

(** The invariant accepts everything building [p] does. *)
Definition building_ok (p : Platform) : Prop :=
  let dst := os_path.join (directory p) "include" in
  E (EvMakedirs (build_dir p))
  /\ respects Q (check_call child ["../configure"; "-host"; triple p] (build_env p))
  /\ E (EvMakedirs dst)
  /\ (forall name, Str.contains Str.slash name = false ->
        E (EvOpenW (os_path.join dst (out_filename name (Some (arch p)))))).

Lemma respects_build_target p r :
  building_ok p -> respects Q (build_target child p r).
Proof.
  intros (Hmk & Hcall & Hinc & Hw). unfold build_target.
  r_bind; [apply respects_mkdir_p; auto|]. intros _.
  r_bind; [r_silent; apply silent_getcwd|]. intros wd.
  r_bind.
  - apply respects_try_finally; side; [|apply silent_chdir].
    r_bind; [r_silent; apply silent_chdir|]. intros _. exact Hcall.
  - intros _. apply respects_for_each; side. intros d _.
    r_bind; [apply respects_copy_glob; auto|]. intros _.
    r_silent.
    apply silent_bind; [apply silent_list_files|].
    intros names. apply silent_for_each. intros x. apply silent_defaultdict_add.
Qed.

(** The invariant accepts what is staged for all platforms and what
    the unifier writes. *)
Definition common_ok : Prop :=
  E (EvMakedirs "darwin_common/src")
  /\ E (EvMakedirs "darwin_common/include")
  /\ (forall name, Str.contains Str.slash name = false ->
        E (EvOpenW (os_path.join "darwin_common/src" (out_filename name None))))
  /\ (forall name, E (EvOpenW (os_path.join "darwin_common/include" name))).

Lemma respects_unify_headers r :
  common_ok -> respects Q (unify_headers r).
Proof.
  intros (_ & Hmk & _ & Hw). unfold unify_headers.
  r_bind; [apply respects_mkdir_p; auto|]. intros _.
  r_bind; [r_silent; apply silent_defaultdict_items|].
  intros items. apply respects_for_each; side. intros [name tags] _.
  destruct (os_path.splitext name) as [stem ext].
  r_bind; [apply respects_open_w; auto|]. intros h.
  r_silent. apply silent_for_each. intros t. apply silent_file_write.
Qed.

Definition family_ok (enabled : bool) (ps : list Platform) : Prop :=
  enabled = true -> Forall (fun p => staging_ok p /\ building_ok p) ps.

Lemma respects_generate_source_and_headers generate_osx generate_ios generate_tvos :
  common_ok ->
  family_ok generate_ios
    [ios_simulator64_platform; ios_device_platform; ios_device64_platform] ->
  family_ok generate_tvos [tvos_simulator64_platform; tvos_device64_platform] ->
  family_ok generate_osx [desktop_amd64_platform; desktop_arm64_platform] ->
  respects Q (generate_source_and_headers child generate_osx generate_ios generate_tvos).
Proof.
  intros Hc Hios Htv Hosx. pose proof Hc as (Hs & Hi & Hws & Hwi).
  assert (forall b ps, family_ok b ps -> forall p, p ∈ ps ->
            respects Q (when b (copy_src_platform_files p))) as Hstage.
  { intros b ps Hf p Hp. destruct b; simpl; [|r_silent; apply silent_ret].
    specialize (Hf eq_refl). rewrite Forall_forall in Hf.
    apply respects_copy_src_platform_files, Hf, Hp. }
  assert (forall b ps, family_ok b ps -> forall p r, p ∈ ps ->
            respects Q (when b (build_target child p r))) as Hbuild.
  { intros b ps Hf p r Hp. destruct b; simpl; [|r_silent; apply silent_ret].
    specialize (Hf eq_refl). rewrite Forall_forall in Hf.
    apply respects_build_target, Hf, Hp. }
  unfold generate_source_and_headers.
  r_bind; [apply respects_copy_glob; auto|]. intros _.
  r_bind; [apply respects_copy_glob; auto|]. intros _.
  r_bind.
  { destruct generate_ios; [|r_silent; apply silent_ret].
    specialize (Hstage true _ Hios). simpl in *.
    repeat (r_bind; [solve [apply Hstage; set_solver]|intros _]); apply Hstage; set_solver. }
  intros _. r_bind.
  { destruct generate_tvos; [|r_silent; apply silent_ret].
    specialize (Hstage true _ Htv). simpl in *.
    repeat (r_bind; [solve [apply Hstage; set_solver]|intros _]); apply Hstage; set_solver. }
  intros _. r_bind.
  { destruct generate_osx; [|r_silent; apply silent_ret].
    specialize (Hstage true _ Hosx). simpl in *.
    repeat (r_bind; [solve [apply Hstage; set_solver]|intros _]); apply Hstage; set_solver. }
  intros _. r_bind; [r_silent; apply silent_new_defaultdict|].
  intros r. r_bind.
  { destruct generate_ios; [|r_silent; apply silent_ret].
    specialize (Hbuild true _ Hios). simpl in *.
    repeat (r_bind; [solve [apply Hbuild; set_solver]|intros _]); apply Hbuild; set_solver. }
  intros _. r_bind.
  { destruct generate_tvos; [|r_silent; apply silent_ret].
    specialize (Hbuild true _ Htv). simpl in *.
    repeat (r_bind; [solve [apply Hbuild; set_solver]|intros _]); apply Hbuild; set_solver. }
  intros _. r_bind.
  { destruct generate_osx; [|r_silent; apply silent_ret].
    specialize (Hbuild true _ Hosx). simpl in *.
    repeat (r_bind; [solve [apply Hbuild; set_solver]|intros _]); apply Hbuild; set_solver. }
  intros _. apply respects_unify_headers, Hc.
Qed.

End ScriptTrace.

(** ** Events a run never produces *)

Lemma new_events_app w w' new :
  trace w' = trace w ++ new -> new_events w w' = new.
Proof. unfold new_events. intros ->. apply drop_app_length. Qed.

Section Only.

Variable P : event -> Prop.

Definition only : bool -> list event -> Prop := fun _ new => Forall P new.

Lemma only_nil : only false [].
Proof. constructor. Qed.

Lemma only_app b n1 n2 : only false n1 -> only b n2 -> only b (n1 ++ n2).
Proof. unfold only. intros. apply Forall_app; auto. Qed.

Lemma only_raise n : only false n -> only true n.
Proof. auto. Qed.

Lemma only_one ev : P ev -> only false [ev].
Proof. unfold only. auto. Qed.

Lemma only_check_call child args env :
  (forall rc, P (EvCall args env rc)) ->
  respects only (check_call child args env).
Proof.
  intros HP w r w' H.
  apply trace_check_call in H as [(e & -> & Ht)|(rc & Ht & _)].
  - exists []. rewrite app_nil_r. split; [exact Ht | constructor].
  - exists [EvCall args env rc]. split; [exact Ht|]. unfold only. auto.
Qed.

End Only.

Lemma join_cases a b :
  Str.nonempty a = true -> Str.endswith a "/" = false ->
  (exists r, b = String "/" r /\ os_path.join a b = b)
  \/ (Str.startswith b "/" = false /\ os_path.join a b = a +:+ "/" +:+ b).
Proof.
  intros Ha He. unfold os_path.join. rewrite Ha, He. simpl.
  destruct b as [|c r]; simpl; [right; auto|].
  destruct (Ascii.eqb_spec c "/") as [->|Hne]; simpl; [left; eauto|right; auto].
Qed.

Ltac avoid_path :=
  lazymatch goal with
  | |- avoids _ (_ (os_path.join ?a (out_filename ?name ?sfx))) =>
      rewrite (join_relative a (out_filename name sfx))
        by (first [reflexivity | apply out_filename_relative, no_slash_relative; assumption]);
      generalize (out_filename name sfx); intros ?; vm_compute; reflexivity
  | |- avoids _ (_ (os_path.join ?a ?name)) =>
      let r := fresh "r" in let Hb := fresh in let Hj := fresh in
      destruct (join_cases a name eq_refl eq_refl) as [(r & Hb & Hj)|(Hb & Hj)];
      rewrite Hj; [rewrite Hb|]; vm_compute; reflexivity
  | |- avoids _ _ => vm_compute; reflexivity
  end.

Ltac avoid_staging :=
  split; [vm_compute; reflexivity | split];
  unfold writes_ok; simpl;
  repeat (constructor 2; [vm_compute; reflexivity|]); constructor 1.

Ltac avoid_building child :=
  split; [|split; [|split]];
  [ vm_compute; reflexivity
  | apply only_check_call; intros rc; vm_compute; reflexivity
  | vm_compute; reflexivity
  | intros name Hname; avoid_path ].

Ltac avoid_common :=
  split; [|split; [|split]];
  [ vm_compute; reflexivity
  | vm_compute; reflexivity
  | intros name Hname; avoid_path
  | intros name; avoid_path ].

Lemma generate_avoids child (f : event -> bool) generate_osx generate_ios generate_tvos :
  common_ok (avoids f) ->
  family_ok child (only (avoids f)) (avoids f) generate_ios ios_platforms ->
  family_ok child (only (avoids f)) (avoids f) generate_tvos tvos_platforms ->
  family_ok child (only (avoids f)) (avoids f) generate_osx osx_platforms ->
  forall w r w',
    generate_source_and_headers child generate_osx generate_ios generate_tvos w = (r, w') ->
    Forall (avoids f) (new_events w w').
Proof.
  intros Hc Hi Ht Ho w r w' H.
  destruct (respects_generate_source_and_headers child (only (avoids f))
              (only_nil _) (only_app _) (only_raise _) (avoids f) (only_one _)
              generate_osx generate_ios generate_tvos Hc Hi Ht Ho w r w' H)
    as (new & Hn & HQ).
  rewrite (new_events_app _ _ _ Hn). exact HQ.
Qed.

Lemma common_avoids_tvos : common_ok (avoids (concerns tvos_platforms)).
Proof. avoid_common. Qed.

Ltac avoid_family child :=
  intros _; unfold ios_platforms, tvos_platforms, osx_platforms;
  repeat (constructor 2; [split; [avoid_staging | avoid_building child]|]);
  constructor 1.

Lemma family_off child Q E ps : family_ok child Q E false ps.
Proof. intros H. discriminate. Qed.

Lemma ios_avoids_tvos child b :
  family_ok child (only (avoids (concerns tvos_platforms)))
    (avoids (concerns tvos_platforms)) b ios_platforms.
Proof. avoid_family child. Qed.

Lemma osx_avoids_tvos child b :
  family_ok child (only (avoids (concerns tvos_platforms)))
    (avoids (concerns tvos_platforms)) b osx_platforms.
Proof. avoid_family child. Qed.

Lemma common_avoids_i386 :
  common_ok (avoids (processes ios_simulator_platform)).
Proof. avoid_common. Qed.

Lemma families_avoid_i386 child b ps :
  ps = ios_platforms \/ ps = tvos_platforms \/ ps = osx_platforms ->
  family_ok child (only (avoids (processes ios_simulator_platform)))
    (avoids (processes ios_simulator_platform)) b ps.
Proof. intros [->|[->| ->]]; avoid_family child. Qed.

(** ** A failed configure ends the run *)

Section Abort.

Definition good (ev : event) : Prop := failed_call ev = false.

(** Normal termination has seen no failed call; an exception has seen
    none before its last event. *)
Definition abort_inv (raised : bool) (new : list event) : Prop :=
  Forall good (if raised then removelast new else new).

Lemma abort_nil : abort_inv false [].
Proof. constructor. Qed.

Lemma Forall_removelast {A} (P : A -> Prop) (l : list A) :
  Forall P l -> Forall P (removelast l).
Proof.
  induction 1 as [|x l Hx Hl IH]; simpl; [constructor|].
  destruct l; [constructor|]. constructor; auto.
Qed.

Lemma abort_app b n1 n2 :
  abort_inv false n1 -> abort_inv b n2 -> abort_inv b (n1 ++ n2).
Proof.
  unfold abort_inv. destruct b; intros H1 H2.
  - destruct n2 as [|x n2].
    + rewrite app_nil_r. apply Forall_removelast, H1.
    + rewrite removelast_app by discriminate. apply Forall_app; auto.
  - apply Forall_app; auto.
Qed.

Lemma abort_raise n : abort_inv false n -> abort_inv true n.
Proof. apply Forall_removelast. Qed.

Lemma abort_one ev : good ev -> abort_inv false [ev].
Proof. unfold abort_inv. auto. Qed.

Lemma abort_check_call child args env :
  respects abort_inv (check_call child args env).
Proof.
  intros w r w' H.
  apply trace_check_call in H as [(e & -> & Ht)|(rc & Ht & Hz & Hnz)].
  - exists []. rewrite app_nil_r. split; [exact Ht | constructor].
  - exists [EvCall args env rc]. split; [exact Ht|].
    destruct (Z.eq_dec rc 0) as [->|Hne].
    + rewrite Hz by reflexivity. repeat constructor.
    + rewrite Hnz by assumption. constructor.
Qed.

Lemma abort_generate child generate_osx generate_ios generate_tvos :
  respects abort_inv
    (generate_source_and_headers child generate_osx generate_ios generate_tvos).
Proof.
  assert (forall b ps, family_ok child abort_inv good b ps) as Hfam.
  { intros b ps _. apply Forall_forall. intros p _. split.
    - split; [reflexivity|]. split; apply Forall_forall; reflexivity.
    - split; [reflexivity|]. split; [apply abort_check_call|].
      split; [reflexivity|]. reflexivity. }
  apply respects_generate_source_and_headers with (E := good);
    auto using abort_nil, abort_app, abort_raise, abort_one.
  repeat split.
Qed.

End Abort.

(** ** What a run does and what it never does *)

(** C4: when a configure invocation of a run exits with a non-zero
    status, the run ends with an exception and that invocation is the
    last thing the run did: nothing is created, written or run after it,
    so no later platform is built and the unifier, which starts by
    creating [darwin_common/include], never executes. *)
Theorem configure_failure_aborts_run
    (child : process) (generate_osx generate_ios generate_tvos : bool) (w : world)
    (args : list string) (env : list (string * string)) (rc : Z) :
  let out := generate_source_and_headers child generate_osx generate_ios generate_tvos w in
  In (EvCall args env rc) (new_events w out.2) ->
  rc <> 0 ->
  (exists e, out.1 = Raise e)
  /\ exists before,
       new_events w out.2 = before ++ [EvCall args env rc]
       /\ Forall (fun ev => failed_call ev = false) before.
Proof.
  intros out Hin Hrc. subst out.
  destruct (generate_source_and_headers child generate_osx generate_ios generate_tvos w)
    as [r w'] eqn:Hrun.
  destruct (abort_generate child _ _ _ _ _ _ Hrun) as (new & Hnew & Hinv).
  clear Hrun. cbn [fst snd] in *. rewrite (new_events_app _ _ _ Hnew) in *.
  assert (~ good (EvCall args env rc)) as Hbad.
  { unfold good. simpl. destruct (Z.eqb_spec rc 0); [contradiction|discriminate]. }
  unfold abort_inv in Hinv. destruct r as [u|e]; simpl in Hinv.
  - exfalso. apply Hbad. rewrite List.Forall_forall in Hinv. auto.
  - split; [eauto|]. destruct new as [|x new]; [destruct Hin|].
    assert (x :: new <> []) as Hne by discriminate.
    destruct (exists_last Hne) as (before & ev & Heq). rewrite Heq in *.
    rewrite removelast_last in Hinv.
    apply in_app_or in Hin as [Hin|[<-|[]]].
    + exfalso. apply Hbad. rewrite List.Forall_forall in Hinv. auto.
    + exists before. split; [reflexivity | exact Hinv].
Qed.


Lemma In_decide {A} `{EqDecision A} (x : A) (l : list A) :
  bool_decide (x ∈ l) = true -> In x l.
Proof.
  intros H. apply list_elem_of_In. apply bool_decide_eq_true in H. exact H.
Qed.

Lemma configure_failure_aborts_run_witness :
  let out := generate_source_and_headers (configure_failing_for "arm-apple-darwin11")
               true true false sample_world in
  (exists e, out.1 = Raise e)
  /\ exists before,
       new_events sample_world out.2
       = before ++ [EvCall ["../configure"; "-host"; "arm-apple-darwin11"]
                      (build_env ios_device_platform) 1]
       /\ Forall (fun ev => failed_call ev = false) before.
Proof.
  refine (configure_failure_aborts_run (configure_failing_for "arm-apple-darwin11")
            true true false sample_world
            ["../configure"; "-host"; "arm-apple-darwin11"]
            (build_env ios_device_platform) 1 _ _).
  - refine (In_decide _ _ _). vm_compute. reflexivity.
  - discriminate.
Defined.

Lemma parse_args_disable_tvos before after :
  parse_args (before ++ "--disable-tvos" :: after)
  = match parse_args (before ++ after) with
    | Ok ns => Ok (with_tvos_disabled ns)
    | Raise e => Raise e
    end.
Proof.
  induction before as [|a before IH]; simpl.
  - destruct (parse_args after); reflexivity.
  - rewrite IH. destruct (parse_args (before ++ after)) as [ns|e]; [|reflexivity].
    destruct (String.eqb a "--disable-ios"); [reflexivity|].
    destruct (String.eqb a "--disable-tvos"); [reflexivity|].
    destruct (String.eqb a "--disable-osx"); reflexivity.
Qed.

Lemma new_events_same w : new_events w w = [].
Proof. unfold new_events. apply drop_all. Qed.

Lemma generate_without_tvos child generate_osx generate_ios w :
  Forall (avoids (concerns tvos_platforms))
    (new_events w (generate_source_and_headers child generate_osx generate_ios false w).2).
Proof.
  destruct (generate_source_and_headers child generate_osx generate_ios false w)
    as [r w'] eqn:Hrun.
  eapply generate_avoids; [| | | |exact Hrun];
    auto using common_avoids_tvos, ios_avoids_tvos, osx_avoids_tvos, family_off.
Qed.

(** C6: whatever the command line, [--disable-tvos] passed or not, no
    event of a run concerns a tvOS descriptor: nothing is created or
    written under [darwin_tvos], none of their sources is staged, no
    build directory of theirs is made and configure is never run for
    them; and passing [--disable-tvos] changes nothing at all. *)
Theorem tvos_never_generated (child : process) (argv : list string) (w : world) :
  Forall (fun ev => concerns tvos_platforms ev = false)
    (new_events w (main child argv w).2)
  /\ forall before after,
       main child (before ++ "--disable-tvos" :: after) w
       = main child (before ++ after) w.
Proof.
  split.
  - unfold main. destruct (parse_args argv) as [args|e].
    + apply generate_without_tvos.
    + simpl. rewrite new_events_same. constructor.
  - intros before after. unfold main. rewrite parse_args_disable_tvos.
    destruct (parse_args (before ++ after)); reflexivity.
Qed.

(** The calls the script leaves out would have been seen: with tvOS
    switched on a run has events of the tvOS descriptors, and a build
    of the i386 simulator descriptor has events of that descriptor. *)
Example tvos_events_when_enabled :
  existsb (concerns tvos_platforms)
    (new_events sample_world
       (generate_source_and_headers configure_ok true true true sample_world).2)
  = true.
Proof. vm_compute. reflexivity. Qed.

Example i386_events_when_built :
  existsb (processes ios_simulator_platform)
    (new_events sample_world_empty_registry
       (build_target configure_ok ios_simulator_platform 0
          sample_world_empty_registry).2)
  = true.
Proof. vm_compute. reflexivity. Qed.

(** ** Events a completed run has produced *)

Lemma emits_weaken {A} S S' (m : M A) :
  (forall ev, In ev S' -> In ev S) -> emits S m -> emits S' m.
Proof.
  intros Hsub Hm w r w' H. destruct (Hm _ _ _ H) as (new & Hn & HS).
  exists new. split; [exact Hn|]. intros Hr. specialize (HS Hr).
  rewrite List.Forall_forall in *. auto.
Qed.

Lemma emits_of_only {A} P (m : M A) : respects (only P) m -> emits [] m.
Proof.
  intros Hm w r w' H. destruct (Hm _ _ _ H) as (new & Hn & _).
  exists new. split; [exact Hn|]. constructor.
Qed.

Lemma emits_silent {A} (m : M A) : silent m -> emits [] m.
Proof.
  intros Hs w r w' H. exists []. rewrite app_nil_r.
  split; [eapply Hs; eauto | constructor].
Qed.

Lemma emits_bind {A B} S1 S2 (m : M A) (k : A -> M B) :
  emits S1 m -> (forall a, emits S2 (k a)) -> emits (S1 ++ S2) (bind m k).
Proof.
  intros Hm Hk w r w' H.
  apply bind_inv in H as [(a & w1 & H1 & H2)|(e & H1 & ->)].
  - destruct (Hm _ _ _ H1) as (n1 & E1 & Q1).
    destruct (Hk _ _ _ _ H2) as (n2 & E2 & Q2).
    exists (n1 ++ n2). rewrite E2, E1, app_assoc. split; [reflexivity|].
    intros Hr. specialize (Q1 eq_refl). specialize (Q2 Hr).
    rewrite List.Forall_forall in *. intros ev Hev.
    apply in_or_app. apply in_app_or in Hev as [?|?]; auto.
  - destruct (Hm _ _ _ H1) as (n1 & E1 & _).
    exists n1. split; [exact E1|]. discriminate.
Qed.

Lemma emits_when S (b : bool) (m : M unit) :
  emits S m -> emits (if b then S else []) (when b m).
Proof. destruct b; simpl; [auto|]. intros _. apply emits_silent, silent_ret. Qed.

Lemma emits_try_finally {A} S (body : M A) fin :
  emits S body -> silent fin -> emits S (try_finally body fin).
Proof.
  intros Hb Hf w r w' H.
  apply try_finally_inv in H as (r1 & w1 & r2 & H1 & H2 & ->).
  destruct (Hb _ _ _ H1) as (n & E & Qn).
  exists n. rewrite (Hf _ _ _ H2). split; [exact E|].
  destruct r2; [exact Qn|discriminate].
Qed.

Lemma emits_mkdir_p path : emits [EvMakedirs path] (mkdir_p path).
Proof.
  intros w r w' H. eexists. split; [eapply trace_mkdir_p; eauto|].
  intros _. repeat constructor.
Qed.

Lemma emits_open_w path : emits [EvOpenW path] (open_w path).
Proof.
  intros w r w' H. eexists. split; [eapply trace_open_w; eauto|].
  intros _. repeat constructor.
Qed.

Lemma emits_check_call child args env :
  emits [EvCall args env 0] (check_call child args env).
Proof.
  intros w r w' H.
  apply trace_check_call in H as [(e & -> & Ht)|(rc & Ht & Hz & Hnz)].
  - exists []. rewrite app_nil_r. split; [exact Ht | discriminate].
  - exists [EvCall args env rc]. split; [exact Ht|].
    destruct (Z.eq_dec rc 0) as [->|Hne].
    + intros _. repeat constructor.
    + rewrite Hnz by assumption. discriminate.
Qed.

Lemma emits_move_file src dst filename file_suffix pre suf :
  emits [EvOpenW (os_path.join dst (out_filename filename file_suffix))]
    (move_file src dst filename file_suffix pre suf).
Proof.
  unfold move_file.
  eapply emits_weaken; [|apply emits_bind with (S1 := [EvMakedirs dst]);
    [apply emits_mkdir_p|intros _; apply emits_bind with (S1 := []);
      [apply emits_silent, silent_open_r|intros h; apply emits_bind with (S2 := []);
        [apply emits_open_w|intros o]]]].
  - simpl. intros ev [<-|[]]. auto.
  - apply emits_silent.
    repeat (apply silent_bind || intros _ || apply silent_when
            || apply silent_file_write || apply silent_file_read).
Qed.

Lemma emits_staging src dst names file_suffix pre suf :
  emits ((fun name => EvOpenW (os_path.join dst (out_filename name file_suffix))) <$> names)
    (for_each names (fun filename => move_file src dst filename file_suffix pre suf)).
Proof.
  induction names as [|x names IH]; simpl.
  - apply emits_silent, silent_ret.
  - apply (emits_bind [_] _); [apply emits_move_file|intros _; exact IH].
Qed.

Lemma emits_copy_filelist src dst l file_suffix pre suf :
  emits ((fun f => EvOpenW (os_path.join dst
                              (out_filename (os_path.basename f) file_suffix))) <$> l)
    (copy_files src dst None (Some l) file_suffix pre suf).
Proof.
  unfold copy_files, list_files. simpl.
  intros w r w' H. unfold bind at 1 2 in H. simpl in H.
  destruct (emits_staging _ _ _ _ _ _ _ _ _ H) as (new & Hn & HS).
  exists new. split; [exact Hn|]. intros Hr. specialize (HS Hr).
  rewrite <- list_fmap_compose in HS. exact HS.
Qed.

Lemma emits_copy_src_platform_files p :
  emits (stage_events p) (copy_src_platform_files p).
Proof.
  unfold copy_src_platform_files, stage_events, staged_paths.
  rewrite fmap_app, <- !list_fmap_compose.
  apply emits_bind; [|intros _]; apply emits_copy_filelist.
Qed.

Lemma emits_build_target child p r :
  emits (build_events p) (build_target child p r).
Proof.
  unfold build_target, build_events.
  apply (emits_bind [_] [_]); [apply emits_mkdir_p|]. intros _.
  apply (emits_bind [] [_]); [apply emits_silent, silent_getcwd|]. intros wd.
  apply (emits_bind [_] []).
  - apply emits_try_finally; [|apply silent_chdir].
    apply (emits_bind [] [_]); [apply emits_silent, silent_chdir|]. intros _.
    apply emits_check_call.
  - intros _. apply (emits_of_only trivially).
    apply respects_for_each; auto using only_nil, only_app. intros d _.
    apply respects_bind; auto using only_app.
    + apply respects_copy_glob with (E := trivially);
        unfold trivially; auto using only_nil, only_app, only_raise, only_one.
    + intros _. apply respects_silent; auto using only_nil, only_raise.
      apply silent_bind; [apply silent_list_files|].
      intros names. apply silent_for_each. intros x. apply silent_defaultdict_add.
Qed.

Lemma emits_generate child (generate_osx generate_ios generate_tvos : bool) :
  emits
    ((if generate_ios then flat_map stage_events ios_platforms else [])
     ++ (if generate_tvos then flat_map stage_events tvos_platforms else [])
     ++ (if generate_osx then flat_map stage_events osx_platforms else [])
     ++ (if generate_ios then flat_map build_events ios_platforms else [])
     ++ (if generate_tvos then flat_map build_events tvos_platforms else [])
     ++ (if generate_osx then flat_map build_events osx_platforms else []))
    (generate_source_and_headers child generate_osx generate_ios generate_tvos).
Proof.
  assert (forall src dst pat, emits [] (copy_files src dst (Some pat) None None None None))
    as Hcommon.
  { intros. apply (emits_of_only trivially).
    apply respects_copy_glob with (E := trivially);
      unfold trivially; auto using only_nil, only_app, only_raise, only_one. }
  assert (forall r, emits [] (unify_headers r)) as Hunify.
  { intros. apply (emits_of_only trivially).
    apply respects_unify_headers with (E := trivially);
      unfold trivially; auto using only_nil, only_app, only_raise, only_one.
    repeat split. }
  unfold generate_source_and_headers.
  apply (emits_bind [] _); [apply Hcommon|]. intros _.
  apply (emits_bind [] _); [apply Hcommon|]. intros _.
  apply emits_bind.
  { apply emits_when.
    unfold ios_platforms, tvos_platforms, osx_platforms. cbn [flat_map].
    rewrite app_nil_r.
    repeat (apply emits_bind; [apply emits_copy_src_platform_files|intros _]).
    apply emits_copy_src_platform_files. }
  intros _. apply emits_bind.
  { apply emits_when.
    unfold ios_platforms, tvos_platforms, osx_platforms. cbn [flat_map].
    rewrite app_nil_r.
    repeat (apply emits_bind; [apply emits_copy_src_platform_files|intros _]).
    apply emits_copy_src_platform_files. }
  intros _. apply emits_bind.
  { apply emits_when.
    unfold ios_platforms, tvos_platforms, osx_platforms. cbn [flat_map].
    rewrite app_nil_r.
    repeat (apply emits_bind; [apply emits_copy_src_platform_files|intros _]).
    apply emits_copy_src_platform_files. }
  intros _. apply (emits_bind [] _); [apply emits_silent, silent_new_defaultdict|].
  intros r. apply emits_bind.
  { apply emits_when.
    unfold ios_platforms, tvos_platforms, osx_platforms. cbn [flat_map].
    rewrite app_nil_r.
    apply (emits_bind (build_events _) _); [apply emits_build_target|intros _].
    apply (emits_bind (build_events _) _); [apply emits_build_target|intros _].
    apply emits_build_target. }
  intros _. apply emits_bind.
  { apply emits_when.
    unfold ios_platforms, tvos_platforms, osx_platforms. cbn [flat_map].
    rewrite app_nil_r.
    apply (emits_bind (build_events _) _); [apply emits_build_target|intros _].
    apply emits_build_target. }
  intros _. rewrite <- (app_nil_r (if generate_osx then _ else _)). apply emits_bind.
  { apply emits_when.
    unfold ios_platforms, tvos_platforms, osx_platforms. cbn [flat_map].
    rewrite app_nil_r.
    apply (emits_bind (build_events _) _); [apply emits_build_target|intros _].
    apply emits_build_target. }
  intros _. apply Hunify.
Qed.

Lemma generate_processes child generate_osx generate_ios generate_tvos w w' :
  generate_source_and_headers child generate_osx generate_ios generate_tvos w = (Ok tt, w') ->
  (generate_ios = true -> Forall (processed (new_events w w')) ios_platforms)
  /\ (generate_tvos = true -> Forall (processed (new_events w w')) tvos_platforms)
  /\ (generate_osx = true -> Forall (processed (new_events w w')) osx_platforms).
Proof.
  intros H. destruct (emits_generate child _ _ _ _ _ _ H) as (new & Hn & HS).
  rewrite (new_events_app _ _ _ Hn). specialize (HS eq_refl).
  rewrite !Forall_app in HS. destruct HS as (Si & St & So & Bi & Bt & Bo).
  unfold processed.
  unfold ios_platforms, tvos_platforms, osx_platforms in *.
  repeat split; intros ->; cbn [flat_map] in *;
    rewrite ?app_nil_r, ?Forall_app in *;
    repeat (constructor 2; [rewrite Forall_app; tauto|]); constructor 1.
Qed.

(** ** Parts of the world a computation leaves alone *)

Section Preserves.

Context {X : Type} (proj : world -> X).

Definition preserves {A} (m : M A) : Prop :=
  forall w r w', m w = (r, w') -> proj w' = proj w.

Definition fs_blind : Prop := forall f w, proj (set_fs f w) = proj w.
Definition log_blind : Prop := forall ev w, proj (log ev w) = proj w.
Definition cwd_blind : Prop := forall d w, proj (set_cwd d w) = proj w.

Lemma preserves_ret {A} (a : A) : preserves (ret a).
Proof. intros w r w' H. inversion H. reflexivity. Qed.

Lemma preserves_raise {A} e : preserves (@raise A e).
Proof. intros w r w' H. inversion H. reflexivity. Qed.

Lemma preserves_bind {A B} (m : M A) (k : A -> M B) :
  preserves m -> (forall a, preserves (k a)) -> preserves (bind m k).
Proof.
  intros Hm Hk w r w' H. apply bind_inv in H as [(a & w1 & H1 & H2)|(e & H1 & _)].
  - rewrite (Hk _ _ _ _ H2). eauto.
  - eauto.
Qed.

Lemma preserves_when b m : preserves m -> preserves (when b m).
Proof. destruct b; simpl; auto using preserves_ret. Qed.

Lemma preserves_for_each {A} (l : list A) body :
  (forall x, preserves (body x)) -> preserves (for_each l body).
Proof.
  intros Hb. induction l as [|x l IH]; simpl.
  - apply preserves_ret.
  - apply preserves_bind; auto.
Qed.

Lemma preserves_try_finally {A} (body : M A) fin :
  preserves body -> preserves fin -> preserves (try_finally body fin).
Proof.
  intros Hb Hf w r w' H.
  apply try_finally_inv in H as (r1 & w1 & r2 & H1 & H2 & _).
  rewrite (Hf _ _ _ H2). eauto.
Qed.

Lemma preserves_open_r path : preserves (open_r path).
Proof.
  intros w r w'. unfold open_r.
  destruct (files (fs w) !! os.abspath w path); [|destruct (os.is_dir _ _)];
    intros H; inversion H; reflexivity.
Qed.

Lemma preserves_file_read h : preserves (file_read h).
Proof. intros w r w' H. inversion H. reflexivity. Qed.

Lemma preserves_getcwd : preserves os.getcwd.
Proof. intros w r w' H. inversion H. reflexivity. Qed.

Lemma preserves_defaultdict_items r : preserves (defaultdict_items r).
Proof. intros w r' w' H. inversion H. reflexivity. Qed.

Lemma preserves_iglob pathname : preserves (glob.iglob pathname).
Proof.
  intros w r w'. unfold glob.iglob.
  destruct (os.is_dir _ _); intros H; inversion H; reflexivity.
Qed.

Lemma preserves_list_files src pattern filelist :
  preserves (list_files src pattern filelist).
Proof.
  intros w r w' H. apply list_files_names in H as [-> _]. reflexivity.
Qed.

Lemma preserves_chdir path : cwd_blind -> preserves (os.chdir path).
Proof.
  intros Hc w r w'. unfold os.chdir.
  destruct (os.is_dir _ _); [|destruct (bool_decide _)];
    intros H; inversion H; auto.
Qed.

Hypothesis Hfs : fs_blind.

Lemma preserves_file_write h d : preserves (file_write h d).
Proof. intros w r w' H. inversion H. apply Hfs. Qed.

Hypothesis Hlog : log_blind.

Lemma preserves_makedirs path : preserves (os.makedirs path).
Proof.
  intros w r w'. unfold os.makedirs. cbv zeta.
  destruct (os.exists_ _ _); [|destruct (existsb _ _)];
    intros H; inversion H; rewrite ?Hfs; apply Hlog.
Qed.

Lemma preserves_mkdir_p path : preserves (mkdir_p path).
Proof.
  intros w r w'. unfold mkdir_p, try_except_OSError.
  destruct (os.makedirs path w) as [[u|e] w1] eqn:Hmk;
    apply preserves_makedirs in Hmk.
  - intros H; inversion H; subst; auto.
  - destruct e as [e p| | |].
    + destruct (decide (e ≠ EEXIST)); intros H; inversion H; subst; auto.
    + intros H; inversion H; subst; auto.
    + intros H; inversion H; subst; auto.
    + intros H; inversion H; subst; auto.
Qed.

Lemma preserves_open_w path : preserves (open_w path).
Proof.
  intros w r w'. unfold open_w. cbv zeta.
  destruct (os.is_dir _ _); [|destruct (negb _)];
    intros H; inversion H; rewrite ?Hfs; apply Hlog.
Qed.

Lemma preserves_check_call child args env :
  preserves (check_call child args env).
Proof.
  intros w r w'. unfold check_call.
  destruct (child args env (cwd w) (fs w)) as [[rc|e] f'].
  - destruct (rc =? 0); intros H; inversion H; rewrite Hlog; apply Hfs.
  - intros H; inversion H. apply Hfs.
Qed.

Lemma preserves_move_file src dst filename file_suffix pre suf :
  preserves (move_file src dst filename file_suffix pre suf).
Proof.
  unfold move_file.
  apply preserves_bind; [apply preserves_mkdir_p|]. intros _.
  apply preserves_bind; [apply preserves_open_r|]. intros h.
  apply preserves_bind; [apply preserves_open_w|]. intros o.
  repeat (apply preserves_bind || intros _ || apply preserves_when
          || apply preserves_file_write || apply preserves_file_read).
Qed.

Lemma preserves_copy_files src dst pattern filelist file_suffix pre suf :
  preserves (copy_files src dst pattern filelist file_suffix pre suf).
Proof.
  unfold copy_files. apply preserves_bind; [apply preserves_list_files|].
  intros names. apply preserves_for_each. intros x. apply preserves_move_file.
Qed.

Lemma preserves_copy_src_platform_files p :
  preserves (copy_src_platform_files p).
Proof.
  unfold copy_src_platform_files.
  apply preserves_bind; [|intros _]; apply preserves_copy_files.
Qed.

End Preserves.

Lemma preserves_defaultdict_add {X} (proj : world -> X) r key t :
  (forall h w, proj (set_heap h w) = proj w) ->
  preserves proj (defaultdict_add r key t).
Proof. intros Hh w r' w' H. inversion H. apply Hh. Qed.

Lemma preserves_new_defaultdict {X} (proj : world -> X) :
  (forall h w, proj (set_heap h w) = proj w) ->
  preserves proj new_defaultdict.
Proof. intros Hh w r' w' H. inversion H. apply Hh. Qed.

(** ** The working directory *)

Lemma is_dir_mkdir_p path D w r w' :
  mkdir_p path w = (r, w') -> os.is_dir (fs w) D = true -> os.is_dir (fs w') D = true.
Proof.
  unfold mkdir_p, try_except_OSError.
  assert (forall r1 w1, os.makedirs path w = (r1, w1) ->
            os.is_dir (fs w) D = true -> os.is_dir (fs w1) D = true) as Hmk.
  { intros r1 w1. unfold os.makedirs. cbv zeta.
    destruct (os.exists_ _ _); [|destruct (existsb _ _)];
      intros H; inversion H; subst; simpl; auto.
    unfold os.is_dir. simpl. intros Hd.
    apply orb_true_iff in Hd as [Hd|Hd]; [rewrite Hd; reflexivity|].
    apply orb_true_iff. right. apply bool_decide_eq_true in Hd.
    apply bool_decide_eq_true. set_solver. }
  destruct (os.makedirs path w) as [[u|e] w1] eqn:E; specialize (Hmk _ _ eq_refl).
  - intros H; inversion H; subst; auto.
  - destruct e as [e p| | |].
    + destruct (decide (e ≠ EEXIST)); intros H; inversion H; subst; auto.
    + intros H; inversion H; subst; auto.
    + intros H; inversion H; subst; auto.
    + intros H; inversion H; subst; auto.
Qed.

Lemma abspath_absolute w p : Str.startswith p "/" = true -> os.abspath w p = p.
Proof. unfold os.abspath. intros ->. reflexivity. Qed.

Lemma chdir_fs path w r w' : os.chdir path w = (r, w') -> fs w' = fs w.
Proof.
  unfold os.chdir. destruct (os.is_dir _ _); [|destruct (bool_decide _)];
    intros H; inversion H; reflexivity.
Qed.

Lemma chdir_back D w :
  Str.startswith D "/" = true -> os.is_dir (fs w) D = true ->
  os.chdir D w = (Ok tt, set_cwd D w).
Proof.
  intros Ha Hd. unfold os.chdir. rewrite (abspath_absolute _ _ Ha), Hd. reflexivity.
Qed.

Lemma is_dir_check_call child args env D w r w' :
  keeps_directories child ->
  check_call child args env w = (r, w') ->
  os.is_dir (fs w) D = true -> os.is_dir (fs w') D = true.
Proof.
  intros Hk. unfold check_call. specialize (Hk args env (cwd w) (fs w) D).
  destruct (child args env (cwd w) (fs w)) as [[rc|e] f']; simpl in Hk.
  - destruct (rc =? 0); intros H; inversion H; subst; simpl; auto.
  - intros H; inversion H; subst; simpl; auto.
Qed.

(** C7: a call of [build_target] leaves the process in the working
    directory it started in, however the call ends (directory creation
    failing, configure failing or not starting, staging failing, or
    normal return), as long as the child process does not remove
    directories and the process starts in an existing directory given by
    an absolute path. *)
Theorem build_target_restores_cwd
    (child : process) (platform : Platform) (platform_headers : nat) (w : world) :
  keeps_directories child ->
  Str.startswith (cwd w) "/" = true ->
  os.is_dir (fs w) (cwd w) = true ->
  cwd (build_target child platform platform_headers w).2 = cwd w.
Proof.
  intros Hkeep Habs Hdir.
  destruct (build_target child platform platform_headers w) as [r w'] eqn:Hrun.
  simpl. unfold build_target in Hrun.
  assert (forall ev w0, cwd (log ev w0) = cwd w0) as Hlog by reflexivity.
  assert (forall f w0, cwd (set_fs f w0) = cwd w0) as Hfs by reflexivity.
  assert (forall h w0, cwd (set_heap h w0) = cwd w0) as Hheap by reflexivity.
  apply bind_inv in Hrun as [(u & w1 & H1 & Hrun)|(e & H1 & _)];
    [|apply (preserves_mkdir_p cwd Hfs Hlog) in H1; exact H1].
  pose proof (preserves_mkdir_p cwd Hfs Hlog _ _ _ _ H1) as Hc1.
  pose proof (is_dir_mkdir_p _ _ _ _ _ H1 Hdir) as Hd1.
  apply bind_inv in Hrun as [(wd & w1' & Hg & Hrun)|(e & Hg & _)];
    [|inversion Hg].
  inversion Hg; subst wd w1'. clear Hg.
  assert (forall r2 w2,
            try_finally
              (os.chdir (build_dir platform) >>
               check_call child ["../configure"; "-host"; triple platform]
                 (build_env platform))
              (os.chdir (cwd w1)) w1 = (r2, w2) -> cwd w2 = cwd w) as Htry.
  { intros r2 w2 H. apply try_finally_inv in H as (rb & wb & rf & Hb & Hf & _).
    assert (os.is_dir (fs wb) (cwd w1) = true) as Hdb.
    { rewrite Hc1. apply bind_inv in Hb as [(u' & wc & Hcd & Hcall)|(e & Hcd & _)].
      - eapply is_dir_check_call; eauto.
        rewrite (chdir_fs _ _ _ _ Hcd). exact Hd1.
      - rewrite (chdir_fs _ _ _ _ Hcd). exact Hd1. }
    rewrite chdir_back in Hf; [|rewrite Hc1; exact Habs|exact Hdb].
    inversion Hf; subst. simpl. exact Hc1. }
  apply bind_inv in Hrun as [(u2 & w2 & Ht & Hrun)|(e & Ht & _)];
    [|eapply Htry; eauto].
  rewrite <- (Htry _ _ Ht).
  revert Hrun. generalize w2 r w'.
  change (preserves cwd (for_each [build_dir platform;
            os_path.join (build_dir platform) "include"] (fun src_dir =>
      copy_files src_dir (os_path.join (directory platform) "include")
        (Some "*.h") None
        (Some (arch platform)) (Some (prefix platform)) (Some (suffix platform)) >>
      let* names := list_files src_dir (Some "*.h") None in
      for_each names (fun filename =>
        defaultdict_add platform_headers filename (tag_of platform))))).
  apply preserves_for_each. intros d.
  apply preserves_bind; [apply preserves_copy_files; auto|]. intros _.
  apply preserves_bind; [apply preserves_list_files|]. intros names.
  apply preserves_for_each. intros x. apply preserves_defaultdict_add. auto.
Qed.

Lemma keeps_directories_configure_ok : keeps_directories configure_ok.
Proof.
  intros args env d f D. unfold configure_ok, os.is_dir. simpl.
  intros H. apply orb_true_iff in H as [->|H]; [reflexivity|].
  apply orb_true_iff. right. apply bool_decide_eq_true in H.
  apply bool_decide_eq_true. set_solver.
Qed.

Lemma keeps_directories_configure_failing_for host :
  keeps_directories (configure_failing_for host).
Proof.
  intros args env d f D. unfold configure_failing_for.
  destruct (bool_decide _); [auto|]. apply keeps_directories_configure_ok.
Qed.

Example build_target_failing_configure :
  (build_target (configure_failing_for "x86_64-apple-darwin13")
     ios_simulator64_platform 0 sample_world).1
  = Raise (CalledProcessError 1 ["../configure"; "-host"; "x86_64-apple-darwin13"]).
Proof. vm_compute. reflexivity. Qed.

Lemma build_target_restores_cwd_witness :
  cwd (build_target (configure_failing_for "x86_64-apple-darwin13")
         ios_simulator64_platform 0 sample_world).2
  = cwd sample_world.
Proof.
  refine (build_target_restores_cwd (configure_failing_for "x86_64-apple-darwin13")
            ios_simulator64_platform 0 sample_world _ _ _).
  - apply keeps_directories_configure_failing_for.
  - reflexivity.
  - vm_compute. reflexivity.
Defined.

(** ** Directory creation *)

Lemma makedirs_files path w :
  files (fs (os.makedirs path w).2) = files (fs w)
  /\ dirs (fs w) ⊆ dirs (fs (os.makedirs path w).2).
Proof.
  unfold os.makedirs. cbv zeta.
  destruct (os.exists_ _ _); [|destruct (existsb _ _)]; simpl; split;
    try reflexivity; set_solver.
Qed.

Lemma mkdir_p_cases path w :
  match os.makedirs path w with
  | (Ok _, w1) => mkdir_p path w = (Ok tt, w1)
  | (Raise (OSError e p), w1) =>
      if decide (e = EEXIST) then mkdir_p path w = (Ok tt, w1)
      else mkdir_p path w = (Raise (OSError e p), w1)
  | (Raise e, w1) => mkdir_p path w = (Raise e, w1)
  end.
Proof.
  unfold mkdir_p, try_except_OSError.
  destruct (os.makedirs path w) as [[[]|[e p| | |]] w1]; try reflexivity.
  destruct (decide (e = EEXIST)) as [->|Hne].
  - destruct (decide (EEXIST ≠ EEXIST)); [contradiction|reflexivity].
  - destruct (decide (e ≠ EEXIST)); [reflexivity|contradiction].
Qed.

Lemma mkdir_p_world path w : (mkdir_p path w).2 = (os.makedirs path w).2.
Proof.
  pose proof (mkdir_p_cases path w) as H.
  destruct (os.makedirs path w) as [[u|[e p| | |]] w1]; simpl;
    try (rewrite H; reflexivity).
  destruct (decide (e = EEXIST)); rewrite H; reflexivity.
Qed.

Lemma mkdir_p_exists path w :
  os.exists_ (fs w) (os.abspath w path) = true ->
  mkdir_p path w = (Ok tt, log (EvMakedirs path) w).
Proof.
  intros Hex. pose proof (mkdir_p_cases path w) as H.
  unfold os.makedirs in H. cbv zeta in H.
  change (os.abspath (log (EvMakedirs path) w) path) with (os.abspath w path) in H.
  change (fs (log (EvMakedirs path) w)) with (fs w) in H.
  rewrite Hex in H. simpl in H. exact H.
Qed.

Lemma mkdir_p_ok_exists path w :
  (mkdir_p path w).1 = Ok tt ->
  os.exists_ (fs (mkdir_p path w).2) (os.abspath (mkdir_p path w).2 path) = true.
Proof.
  pose proof (mkdir_p_cases path w) as H. revert H.
  unfold os.makedirs. cbv zeta.
  change (os.abspath (log (EvMakedirs path) w) path) with (os.abspath w path).
  change (fs (log (EvMakedirs path) w)) with (fs w).
  destruct (os.exists_ (fs w) (os.abspath w path)) eqn:Hex.
  - simpl. intros -> _. simpl. exact Hex.
  - destruct (existsb _ _).
    + simpl. intros ->. discriminate.
    + intros -> _. simpl. unfold os.exists_, os.is_dir. simpl.
      apply orb_true_iff. left. apply orb_true_iff. right.
      apply bool_decide_eq_true. set_solver.
Qed.

(** C9: [mkdir_p] on a path that already exists returns normally and
    leaves the file system as it was, so that a second [mkdir_p] after a
    successful one changes nothing; whatever happens it removes no file
    and no directory; and an error of [os.makedirs] other than [EEXIST]
    comes out of [mkdir_p] unchanged and, through it, out of the
    [move_file] that was staging into that directory. *)
Theorem mkdir_p_idempotent (path : string) (w : world) :
  (os.exists_ (fs w) (os.abspath w path) = true ->
     (mkdir_p path w).1 = Ok tt /\ fs (mkdir_p path w).2 = fs w)
  /\ ((mkdir_p path w).1 = Ok tt ->
       (mkdir_p path (mkdir_p path w).2).1 = Ok tt
       /\ fs (mkdir_p path (mkdir_p path w).2).2 = fs (mkdir_p path w).2)
  /\ (files (fs (mkdir_p path w).2) = files (fs w)
      /\ dirs (fs w) ⊆ dirs (fs (mkdir_p path w).2))
  /\ (forall e p, (os.makedirs path w).1 = Raise (OSError e p) -> e <> EEXIST ->
        (mkdir_p path w).1 = Raise (OSError e p)
        /\ forall src filename file_suffix pre suf,
             (move_file src path filename file_suffix pre suf w).1
             = Raise (OSError e p)).
Proof.
  split; [|split; [|split]].
  - intros Hex. rewrite (mkdir_p_exists _ _ Hex). split; reflexivity.
  - intros Hok. rewrite (mkdir_p_exists _ _ (mkdir_p_ok_exists _ _ Hok)).
    split; reflexivity.
  - rewrite mkdir_p_world. apply makedirs_files.
  - intros e p Hmk Hne. pose proof (mkdir_p_cases path w) as H.
    destruct (os.makedirs path w) as [r1 w1]; simpl in Hmk; subst r1.
    destruct (decide (e = EEXIST)); [contradiction|].
    split; [rewrite H; reflexivity|]. intros.
    unfold move_file. rewrite (bind_raise _ _ _ _ _ H). reflexivity.
Qed.

Lemma mkdir_p_idempotent_witness :
  ((mkdir_p "src" sample_world).1 = Ok tt
   /\ fs (mkdir_p "src" sample_world).2 = fs sample_world)
  /\ ((mkdir_p "darwin_ios" (mkdir_p "darwin_ios" sample_world).2).1 = Ok tt
      /\ fs (mkdir_p "darwin_ios" (mkdir_p "darwin_ios" sample_world).2).2
         = fs (mkdir_p "darwin_ios" sample_world).2)
  /\ ((mkdir_p "configure/build" sample_world).1
      = Raise (OSError ENOTDIR "configure/build")
      /\ forall src filename file_suffix pre suf,
           (move_file src "configure/build" filename file_suffix pre suf sample_world).1
           = Raise (OSError ENOTDIR "configure/build")).
Proof.
  split; [|split].
  - refine (proj1 (mkdir_p_idempotent "src" sample_world) _).
    vm_compute. reflexivity.
  - refine (proj1 (proj2 (mkdir_p_idempotent "darwin_ios" sample_world)) _).
    vm_compute. reflexivity.
  - refine (proj2 (proj2 (proj2 (mkdir_p_idempotent "configure/build" sample_world)))
              ENOTDIR "configure/build" _ _).
    + vm_compute. reflexivity.
    + discriminate.
Defined.

(** ** What staging writes *)

Lemma append_assoc a b c : (a +:+ b) +:+ c = a +:+ (b +:+ c).
Proof. induction a; simpl; [reflexivity|]. rewrite !append_cons. congruence. Qed.

Lemma append_nil_r a : a +:+ "" = a.
Proof. induction a; simpl; [reflexivity|]. rewrite append_cons. congruence. Qed.

Lemma truthy_default o : truthy o = false -> default "" o = "".
Proof. destruct o as [[|]|]; simpl; intros; congruence. Qed.

Lemma mkdir_p_frame path w r w' :
  mkdir_p path w = (r, w') ->
  files (fs w') = files (fs w) /\ cwd w' = cwd w /\ heap w' = heap w.
Proof.
  intros H. split; [|split].
  - pose proof (mkdir_p_world path w) as Hw. rewrite H in Hw. simpl in Hw.
    rewrite Hw. apply (proj1 (makedirs_files path w)).
  - exact (preserves_mkdir_p cwd (fun _ _ => eq_refl) (fun _ _ => eq_refl) _ _ _ _ H).
  - exact (preserves_mkdir_p heap (fun _ _ => eq_refl) (fun _ _ => eq_refl) _ _ _ _ H).
Qed.

Lemma move_file_files src dst filename file_suffix pre suf w w' :
  move_file src dst filename file_suffix pre suf w = (Ok tt, w') ->
  exists c,
    files (fs w) !! source_of w src filename = Some c
    /\ cwd w' = cwd w
    /\ (source_of w src filename <> target_of w dst filename file_suffix ->
        files (fs w')
        = <[target_of w dst filename file_suffix
              := default "" pre +:+ c +:+ default "" suf]> (files (fs w))).
Proof.
  unfold move_file, source_of, target_of. intros H.
  apply bind_inv in H as [(u & w1 & Hmk & H)|(e & _ & He)]; [|discriminate].
  apply mkdir_p_frame in Hmk as (Hf1 & Hc1 & _).
  apply bind_inv in H as [(h & w2 & Hr & H)|(e & _ & He)]; [|discriminate].
  unfold open_r in Hr.
  assert (os.abspath w1 = os.abspath w) as Habs.
  { unfold os.abspath. rewrite Hc1. reflexivity. }
  rewrite Habs, Hf1 in Hr.
  destruct (files (fs w) !! os.abspath w (os_path.join src filename)) as [c|] eqn:Hc;
    [|destruct (os.is_dir _ _); discriminate].
  inversion Hr; subst h w2. clear Hr.
  exists c. split; [reflexivity|].
  apply bind_inv in H as [(o & w3 & Ho & H)|(e & _ & He)]; [|discriminate].
  unfold open_w in Ho. cbv zeta in Ho.
  change (os.abspath (log _ w1)) with (os.abspath w1) in Ho.
  change (fs (log ?ev w1)) with (fs w1) in Ho.
  rewrite Habs in Ho.
  destruct (os.is_dir _ _); [discriminate|].
  destruct (negb _); [discriminate|].
  inversion Ho; subst o w3. clear Ho.
  revert H. unfold bind, when, file_write, file_read. simpl.
  rewrite Hf1.
  set (T := os.abspath w (os_path.join dst (out_filename filename file_suffix))).
  set (S := os.abspath w (os_path.join src filename)) in *.
  destruct (truthy pre) eqn:Hp; destruct (truthy suf) eqn:Hs; simpl;
    intros H; inversion H; subst w'; simpl; (split; [exact Hc1|]); intros Hne;
    rewrite ?lookup_insert_eq, ?insert_insert_eq; simpl;
    rewrite ?lookup_insert_ne by congruence; rewrite ?Hc; simpl;
    rewrite ?lookup_insert_eq, ?insert_insert_eq; simpl;
    rewrite ?(truthy_default _ Hp), ?(truthy_default _ Hs), ?append_nil_r,
      ?append_assoc; try reflexivity.
Qed.

Lemma abspath_relative w p :
  Str.startswith p "/" = false -> os.abspath w p = cwd w +:+ "/" +:+ p.
Proof. unfold os.abspath. intros ->. reflexivity. Qed.

Lemma abspath_inj w p q :
  Str.startswith p "/" = false -> Str.startswith q "/" = false ->
  os.abspath w p = os.abspath w q -> p = q.
Proof.
  intros Hp Hq. rewrite !abspath_relative by assumption. intros H.
  apply String.app_inj in H. apply (String.app_inj "/") in H. exact H.
Qed.

Lemma abspath_cwd w w' p : cwd w' = cwd w -> os.abspath w' p = os.abspath w p.
Proof. unfold os.abspath. intros ->. reflexivity. Qed.










(** ** The names files are staged under *)








(** ** What the unifier writes *)

Lemma write_blocks (B : tag_tuple -> string) h tags : forall w w' c0,
  for_each tags (fun t => file_write h (B t)) w = (Ok tt, w') ->
  files (fs w) !! h = Some c0 ->
  files (fs w') = <[h := c0 +:+ foldr (fun t rest => B t +:+ rest) "" tags]> (files (fs w))
  /\ cwd w' = cwd w.
Proof.
  induction tags as [|t tags IH]; intros w w' c0 H Hc0.
  - inversion H; subst. simpl. rewrite append_nil_r.
    split; [|reflexivity]. symmetry. apply insert_id. exact Hc0.
  - simpl in H. unfold bind at 1 in H. unfold file_write at 1 in H.
    apply IH with (c0 := c0 +:+ B t) in H.
    + destruct H as [Hf Hc]. simpl in Hf, Hc. split; [|exact Hc].
      rewrite Hf, insert_insert_eq. simpl. rewrite append_assoc. reflexivity.
    + simpl. rewrite Hc0. simpl. apply lookup_insert_eq.
Qed.

Lemma unify_one header_name tag_tuples w w' :
  (let '(basename, suffix) := os_path.splitext header_name in
   let* header := open_w (os_path.join "darwin_common/include" header_name) in
   for_each tag_tuples (fun tag_tuple =>
     file_write header (include_block basename suffix tag_tuple))) w = (Ok tt, w') ->
  files (fs w') = <[umbrella_target w header_name
                     := umbrella_body header_name tag_tuples]> (files (fs w))
  /\ cwd w' = cwd w.
Proof.
  unfold umbrella_body, umbrella_target.
  destruct (os_path.splitext header_name) as [stem ext]. intros H.
  apply bind_inv in H as [(h & w1 & Ho & H)|(e & _ & He)]; [|discriminate].
  unfold open_w in Ho. cbv zeta in Ho.
  change (os.abspath (log _ w)) with (os.abspath w) in Ho.
  change (fs (log ?ev w)) with (fs w) in Ho.
  destruct (os.is_dir _ _); [discriminate|].
  destruct (negb _); [discriminate|].
  inversion Ho; subst h w1. clear Ho.
  apply write_blocks with (c0 := "") in H; [|simpl; apply lookup_insert_eq].
  destruct H as [Hf Hc]. simpl in Hf, Hc. split; [|exact Hc].
  rewrite Hf, insert_insert_eq. reflexivity.
Qed.

Lemma for_each_inserts {A} (T : world -> A -> string) (V : A -> string)
    (body : A -> M unit) (l : list A) :
  (forall x w w', cwd w' = cwd w -> T w' x = T w x) ->
  (forall x w w', body x w = (Ok tt, w') ->
     cwd w' = cwd w /\ files (fs w') = <[T w x := V x]> (files (fs w))) ->
  forall w w',
    for_each l body w = (Ok tt, w') ->
    NoDup (T w <$> l) ->
    cwd w' = cwd w
    /\ (forall K, K ∉ T w <$> l -> files (fs w') !! K = files (fs w) !! K)
    /\ (forall x, x ∈ l -> files (fs w') !! T w x = Some (V x)).
Proof.
  intros HT Hbody. induction l as [|x l IH]; intros w w' H Hnd.
  - inversion H; subst. split; [reflexivity|]. split; [reflexivity|].
    intros x Hx. inversion Hx.
  - simpl in H. apply bind_inv in H as [(u & w1 & Hx & H)|(e & _ & He)]; [|discriminate].
    destruct u. apply Hbody in Hx as [Hc1 Hf1].
    simpl in Hnd. apply NoDup_cons in Hnd as [Hnx Hnd].
    assert (T w1 <$> l = T w <$> l) as HTl.
    { apply list_fmap_ext. intros i y _. apply HT, Hc1. }
    destruct (IH _ _ H) as (Hc & Hframe & Hcontent); [rewrite HTl; exact Hnd|].
    rewrite HTl in Hframe.
    split; [congruence|]. split.
    + intros K HK. rewrite Hframe, Hf1.
      * apply lookup_insert_ne. intros Heq. apply HK. subst K. simpl. left.
      * intros HKl. apply HK. simpl. right. exact HKl.
    + intros y Hy. apply elem_of_cons in Hy as [Heq|Hy].
      * subst y. rewrite Hframe by exact Hnx. rewrite Hf1. apply lookup_insert_eq.
      * rewrite <- (HT y w w1 Hc1). apply Hcontent, Hy.
Qed.

Lemma join_include_relative name :
  relative name = true ->
  os_path.join "darwin_common/include" name = "darwin_common/include/" +:+ name.
Proof.
  unfold relative. intros H. apply negb_true_iff in H.
  rewrite join_relative by (exact H || reflexivity). reflexivity.
Qed.

Lemma umbrella_target_inj w a b :
  relative a = true -> relative b = true ->
  umbrella_target w a = umbrella_target w b -> a = b.
Proof.
  intros Ha Hb. unfold umbrella_target.
  rewrite !join_include_relative by assumption. intros H.
  apply abspath_inj in H; [|reflexivity..].
  apply (String.app_inj "darwin_common/include/") in H. exact H.
Qed.

(** C2: when the unifier completes on a registry whose keys are relative
    names (the script records base names only), every recorded header
    name has its umbrella file in [darwin_common/include], and the body
    of that file is, for each triple of its set in turn, the block
    [prefix], [#include <stem_arch.ext>] and a line feed, [suffix] and a
    line feed, and nothing else. In the scenario of two descriptors for
    x86_64 and arm64 whose configure runs both leave a [foo.h], the run
    writes a [foo.h] made of the two guarded blocks, one including
    [foo_x86_64.h] and one including [foo_arm64.h]. *)
Theorem umbrella_headers (platform_headers : nat) (w : world)
    (header_name : string) (tags : gset tag_tuple) :
  ((forall name, is_Some (registry_at w platform_headers !! name) ->
      relative name = true) ->
   (unify_headers platform_headers w).1 = Ok tt ->
   registry_at w platform_headers !! header_name = Some tags ->
   files (fs (unify_headers platform_headers w).2)
     !! os.abspath w (os_path.join "darwin_common/include" header_name)
   = Some (umbrella_body header_name (elements tags)))
  /\ (forall (pre arch suf : string),
        umbrella_body header_name [(pre, arch, suf)]
        = pre +:+ "#include <" +:+ (os_path.splitext header_name).1 +:+ "_" +:+ arch
          +:+ (os_path.splitext header_name).2 +:+ ">" +:+ LF +:+ suf +:+ LF)
  /\ (let w' := (generate_source_and_headers configure_foo true false false
                   sample_world).2 in
      exists block_a block_b,
        files (fs w') !! "/w/darwin_common/include/foo.h" = Some (block_a +:+ block_b)
        /\ ((block_a = include_block "foo" ".h" (tag_of desktop_amd64_platform)
             /\ block_b = include_block "foo" ".h" (tag_of desktop_arm64_platform))
            \/ (block_a = include_block "foo" ".h" (tag_of desktop_arm64_platform)
                /\ block_b = include_block "foo" ".h" (tag_of desktop_amd64_platform)))
        /\ include_block "foo" ".h" (tag_of desktop_amd64_platform)
           = "#ifdef __x86_64__" +:+ LF +:+ LF +:+ "#include <foo_x86_64.h>" +:+ LF
             +:+ LF +:+ LF +:+ "#endif" +:+ LF
        /\ include_block "foo" ".h" (tag_of desktop_arm64_platform)
           = "#ifdef __arm64__" +:+ LF +:+ LF +:+ "#include <foo_arm64.h>" +:+ LF
             +:+ LF +:+ LF +:+ "#endif" +:+ LF).
Proof.
  split; [|split].
  - intros Hrel Hok Hreg.
    destruct (unify_headers platform_headers w) as [r w'] eqn:H.
    simpl in *. subst r. unfold unify_headers in H.
    apply bind_inv in H as [(u & w1 & Hmk & H)|(e & _ & He)]; [|discriminate].
    apply mkdir_p_frame in Hmk as (Hf1 & Hc1 & Hh1).
    apply bind_inv in H as [(items & w2 & Hi & H)|(e & _ & He)]; [|discriminate].
    inversion Hi; subst items w2. clear Hi.
    assert (registry_at w1 platform_headers = registry_at w platform_headers) as Hreg1.
    { unfold registry_at. rewrite Hh1. reflexivity. }
    rewrite Hreg1 in H.
    set (items := prod_map id elements <$> map_to_list (registry_at w platform_headers)) in H.
    apply (for_each_inserts
             (fun v (it : string * list tag_tuple) => umbrella_target v it.1)
             (fun it => umbrella_body it.1 it.2)) in H.
    + destruct H as (_ & _ & Hcontent).
      specialize (Hcontent (header_name, elements tags)).
      unfold umbrella_target in Hcontent. simpl in Hcontent.
      rewrite (abspath_cwd w w1 _ Hc1) in Hcontent. apply Hcontent.
      subst items. apply list_elem_of_fmap. exists (header_name, tags).
      split; [reflexivity|]. apply elem_of_map_to_list. exact Hreg.
    + intros x v v' Hc. apply abspath_cwd, Hc.
    + intros [name tgs] v v' Hb. simpl.
      apply unify_one in Hb. tauto.
    + subst items. rewrite <- list_fmap_compose.
      apply NoDup_fmap_2_strong; [|apply NoDup_map_to_list].
      intros [a ta] [b tb] Ha Hb. simpl. intros Heq.
      apply elem_of_map_to_list in Ha, Hb.
      apply umbrella_target_inj in Heq.
      * subst b. f_equal. congruence.
      * apply Hrel. rewrite Ha. eauto.
      * apply Hrel. rewrite Hb. eauto.
  - intros pre arch suf. unfold umbrella_body, include_block.
    destruct (os_path.splitext header_name) as [stem ext]. simpl.
    rewrite !append_assoc, append_nil_r. reflexivity.
  - cbv zeta.
    exists (include_block "foo" ".h" (tag_of desktop_arm64_platform)),
           (include_block "foo" ".h" (tag_of desktop_amd64_platform)).
    split; [|split; [|split]].
    + vm_compute. reflexivity.
    + right. split; reflexivity.
    + vm_compute. reflexivity.
    + vm_compute. reflexivity.
Qed.

Lemma umbrella_headers_witness :
  files (fs (unify_headers 0 sample_world_with_registry).2)
    !! os.abspath sample_world_with_registry
         (os_path.join "darwin_common/include" "foo.h")
  = Some (umbrella_body "foo.h" (elements sample_tags)).
Proof.
  refine (proj1 (umbrella_headers 0 sample_world_with_registry "foo.h" sample_tags) _ _ _).
  - intros name [x Hx]. unfold registry_at in Hx. simpl in Hx.
    unfold sample_registry in Hx.
    apply lookup_singleton_Some in Hx as [<- _]. reflexivity.
  - vm_compute. reflexivity.
  - apply lookup_singleton_eq.
Defined.

(** ** The registry *)

Lemma register_names r t names : forall w,
  for_each names (fun f => defaultdict_add r f t) w
  = (Ok tt, set_heap (heap_add_all r t names (heap w)) w).
Proof.
  induction names as [|f names IH]; intros w.
  - destruct w. reflexivity.
  - simpl. unfold bind. unfold defaultdict_add at 1. rewrite IH. reflexivity.
Qed.

Lemma heap_add_all_app r t n1 n2 h :
  heap_add_all r t (n1 ++ n2) h = heap_add_all r t n2 (heap_add_all r t n1 h).
Proof. apply foldl_app. Qed.

Lemma heap_add_all_length r t names : forall h,
  length (heap_add_all r t names h) = length h.
Proof.
  induction names as [|f names IH]; intros h; simpl; [reflexivity|].
  rewrite IH. unfold heap_add. apply length_insert.
Qed.

Lemma heap_add_all_lookup r t names : forall h,
  default ∅ (heap_add_all r t names h !! r) = 
  if decide (r < length h)%nat then add_all t names (default ∅ (h !! r)) else ∅.
Proof.
  induction names as [|f names IH]; intros h; simpl.
  - destruct (decide (r < length h)%nat) as [Hlt|Hge]; [reflexivity|].
    rewrite lookup_ge_None_2 by lia. reflexivity.
  - rewrite IH.
    assert (length (heap_add r f t h) = length h) as ->
      by (unfold heap_add; apply length_insert).
    destruct (decide (r < length h)%nat) as [Hlt|Hge]; [|reflexivity].
    unfold heap_add. rewrite list_lookup_insert_eq by exact Hlt. reflexivity.
Qed.

Lemma heap_add_all_other r r' t names : forall h,
  r' <> r -> heap_add_all r t names h !! r' = h !! r'.
Proof.
  induction names as [|f names IH]; intros h Hne; simpl; [reflexivity|].
  rewrite IH by exact Hne. unfold heap_add. apply list_lookup_insert_ne. auto.
Qed.

Lemma tags_of_reg_add key t d name :
  tags_of (reg_add key t d) name
  = if decide (key = name) then tags_of d name ∪ {[t]} else tags_of d name.
Proof.
  unfold tags_of, reg_add. destruct (decide (key = name)) as [->|Hne].
  - rewrite lookup_insert_eq. reflexivity.
  - rewrite lookup_insert_ne by exact Hne. reflexivity.
Qed.

Lemma tags_of_add_all t names : forall d name,
  tags_of (add_all t names d) name
  = if decide (name ∈ names) then tags_of d name ∪ {[t]} else tags_of d name.
Proof.
  induction names as [|f names IH]; intros d name; simpl.
  - destruct (decide (name ∈ [])) as [H|_]; [inversion H|reflexivity].
  - rewrite IH, tags_of_reg_add.
    destruct (decide (f = name)) as [->|Hne].
    + rewrite (decide_True (P := name ∈ name :: names)) by left.
      destruct (decide (name ∈ names)); [|reflexivity].
      rewrite <- (assoc_L (∪)), (idemp_L (∪)). reflexivity.
    + destruct (decide (name ∈ names)) as [Hin|Hnin].
      * rewrite (decide_True (P := name ∈ f :: names)) by (right; exact Hin).
        reflexivity.
      * rewrite (decide_False (P := name ∈ f :: names)); [reflexivity|].
        intros H. apply elem_of_cons in H as [H|H]; [congruence|contradiction].
Qed.



Lemma heap_no_fs : no_fs _ heap.
Proof. repeat split. Qed.

Lemma preserves_try_configure {X} (proj : world -> X) child p wd :
  no_fs X proj ->
  preserves proj
    (try_finally
       (os.chdir (build_dir p) >>
        check_call child ["../configure"; "-host"; triple p] (build_env p))
       (os.chdir wd)).
Proof.
  intros (Hfs & Hlog & Hcwd).
  apply preserves_try_finally; [|apply preserves_chdir; auto].
  apply preserves_bind; [apply preserves_chdir; auto|]. intros _.
  apply preserves_check_call; auto.
Qed.

Lemma build_target_inv child p r w res w' :
  build_target child p r w = (res, w') ->
  (exists wc, heap wc = heap w
     /\ collect_headers p r [build_dir p; os_path.join (build_dir p) "include"] wc
        = (res, w'))
  \/ (heap w' = heap w /\ exists e, res = Raise e).
Proof.
  unfold build_target. intros H.
  apply bind_inv in H as [(u & w1 & Hmk & H)|(e & Hmk & ->)].
  - apply mkdir_p_frame in Hmk as (_ & _ & Hh1).
    apply bind_inv in H as [(wd & w1' & Hg & H)|(e & Hg & _)]; [|inversion Hg].
    inversion Hg; subst wd w1'. clear Hg.
    apply bind_inv in H as [(u2 & wc & Ht & H)|(e & Ht & ->)].
    + left. exists wc. split; [|exact H].
      rewrite <- Hh1. exact (preserves_try_configure heap child p _ heap_no_fs _ _ _ Ht).
    + right. split; [|eauto].
      rewrite <- Hh1. exact (preserves_try_configure heap child p _ heap_no_fs _ _ _ Ht).
  - right. split; [|eauto]. apply mkdir_p_frame in Hmk. tauto.
Qed.

Lemma collect_headers_heap p r dirs : forall w res w',
  collect_headers p r dirs w = (res, w') ->
  exists names, Forall slash_free names
    /\ heap w' = heap_add_all r (tag_of p) names (heap w).
Proof.
  induction dirs as [|d dirs IH]; intros w res w' H.
  - inversion H; subst. exists []. split; [constructor|reflexivity].
  - unfold collect_headers in H. simpl in H.
    apply bind_inv in H as [(u & w1 & H1 & H2)|(e & H1 & _)].
    + apply bind_inv in H1 as [(u1 & wa & Hcp & Hreg)|(e & Hcp & He)]; [|discriminate].
      apply bind_inv in Hreg as [(names & wb & Hls & Hadd)|(e & _ & He)];
        [|discriminate].
      pose proof (list_files_names _ _ _ _ _ _ Hls) as [-> Hsf].
      rewrite register_names in Hadd. inversion Hadd; subst w1. clear Hadd.
      destruct (IH _ _ _ H2) as (names2 & Hsf2 & Hh2).
      exists (names ++ names2). split; [apply Forall_app; split; auto|].
      rewrite Hh2, heap_add_all_app. simpl.
      rewrite (preserves_copy_files heap (fun _ _ => eq_refl) (fun _ _ => eq_refl)
                 _ _ _ _ _ _ _ _ _ _ Hcp).
      reflexivity.
    + apply bind_inv in H1 as [(u1 & wa & Hcp & Hreg)|(e' & Hcp & He)].
      * apply bind_inv in Hreg as [(names & wb & Hls & Hadd)|(e'' & Hls & He)].
        -- rewrite register_names in Hadd. discriminate.
        -- pose proof (list_files_names _ _ _ _ _ _ Hls) as [-> _].
           exists []. split; [constructor|]. simpl.
           exact (preserves_copy_files heap (fun _ _ => eq_refl) (fun _ _ => eq_refl)
                    _ _ _ _ _ _ _ _ _ _ Hcp).
      * exists []. split; [constructor|]. simpl.
        exact (preserves_copy_files heap (fun _ _ => eq_refl) (fun _ _ => eq_refl)
                 _ _ _ _ _ _ _ _ _ _ Hcp).
Qed.

Lemma build_target_heap child p r w res w' :
  build_target child p r w = (res, w') ->
  exists names, Forall slash_free names
    /\ heap w' = heap_add_all r (tag_of p) names (heap w).
Proof.
  intros H. apply build_target_inv in H as [(wc & Hh & H)|(Hh & _)].
  - apply collect_headers_heap in H as (names & Hsf & Hh').
    exists names. split; [exact Hsf|]. rewrite Hh', Hh. reflexivity.
  - exists []. split; [constructor|exact Hh].
Qed.

Lemma preserves_unify_headers {X} (proj : world -> X) r :
  no_fs X proj -> preserves proj (unify_headers r).
Proof.
  intros (Hfs & Hlog & Hcwd). unfold unify_headers.
  apply preserves_bind; [apply preserves_mkdir_p; auto|]. intros _.
  apply preserves_bind; [apply preserves_defaultdict_items|]. intros items.
  apply preserves_for_each. intros [name tgs].
  destruct (os_path.splitext name) as [stem ext].
  apply preserves_bind; [apply preserves_open_w; auto|]. intros h.
  apply preserves_for_each. intros t. apply preserves_file_write; auto.
Qed.

Lemma maintains_bind I {A B} (m : M A) (k : A -> M B) :
  maintains I m -> (forall a, maintains I (k a)) -> maintains I (bind m k).
Proof.
  intros Hm Hk w res w' H HI.
  apply bind_inv in H as [(a & w1 & H1 & H2)|(e & H1 & _)].
  - eapply Hk; [exact H2|]. eapply Hm; eauto.
  - eapply Hm; eauto.
Qed.

Lemma maintains_ret I {A} (a : A) : maintains I (ret a).
Proof. intros w res w' H. inversion H; subst. auto. Qed.

Lemma maintains_when I b m : maintains I m -> maintains I (when b m).
Proof.
  destruct b; simpl; [auto|]. intros _ w res w' H. inversion H; subst. auto.
Qed.

Lemma maintains_preserves I {A} (m : M A) : preserves heap m -> maintains I m.
Proof. intros Hp w res w' H HI. rewrite (Hp _ _ _ H). exact HI. Qed.




Lemma add_all_is_Some t names : forall d name,
  is_Some (add_all t names d !! name) -> is_Some (d !! name) \/ name ∈ names.
Proof.
  induction names as [|f names IH]; intros d name H; simpl in H; [left; exact H|].
  apply IH in H as [H|H]; [|right; right; exact H].
  unfold reg_add in H. destruct (decide (f = name)) as [->|Hne].
  - right. left.
  - rewrite lookup_insert_ne in H by exact Hne. left. exact H.
Qed.

Lemma kept_by_base_names p : kept_by p base_names.
Proof.
  intros names d Hsf Hd name H.
  apply add_all_is_Some in H as [H|H]; [apply Hd; exact H|].
  rewrite Forall_forall in Hsf. apply Hsf. exact H.
Qed.

Lemma base_names_empty : base_names ∅.
Proof. intros name [S H]. rewrite lookup_empty in H. discriminate. Qed.

Lemma slash_free_relative name : slash_free name -> relative name = true.
Proof.
  unfold slash_free, relative. destruct name as [|a r]; [reflexivity|].
  simpl. intros H. apply orb_false_iff in H as [H _].
  unfold Str.slash in H. rewrite H. reflexivity.
Qed.

Lemma maintains_build_target child J n p :
  kept_by p J -> maintains (registry_ok J n) (build_target child p n).
Proof.
  intros Hp w res w' H [Hlen Hin].
  apply build_target_heap in H as (names & Hsf & Hh).
  split.
  - rewrite Hh, heap_add_all_length. exact Hlen.
  - rewrite Hh, heap_add_all_lookup.
    destruct (decide (n < length (heap w))%nat); [|lia].
    apply Hp; assumption.
Qed.

Lemma bind_preserves_heap {A B} (m : M A) (k : A -> M B) w res w' :
  preserves heap m ->
  bind m k w = (res, w') ->
  (exists a w1, heap w1 = heap w /\ k a w1 = (res, w')) \/ heap w' = heap w.
Proof.
  intros Hp H. apply bind_inv in H as [(a & w1 & H1 & H2)|(e & H1 & _)].
  - left. exists a, w1. split; [eapply Hp; eauto|exact H2].
  - right. eapply Hp; eauto.
Qed.

Lemma generate_invariant (child : process) (J : registry -> Prop)
    generate_osx generate_ios generate_tvos w :
  J ∅ ->
  (forall p, In p (enabled_platforms generate_osx generate_ios generate_tvos) ->
     kept_by p J) ->
  J (registry_at
       (generate_source_and_headers child generate_osx generate_ios generate_tvos w).2
       (length (heap w))).
Proof.
  intros Hempty Hkept.
  set (ps := enabled_platforms generate_osx generate_ios generate_tvos) in Hkept.
  destruct (generate_source_and_headers child generate_osx generate_ios generate_tvos w)
    as [res w'] eqn:H. simpl.
  assert (heap w' = heap w -> J (registry_at w' (length (heap w)))) as Hsame.
  { intros Hh. unfold registry_at. rewrite Hh, lookup_ge_None_2 by lia.
    exact Hempty. }
  assert (forall p, preserves heap (copy_src_platform_files p)) as Hst.
  { intros p. apply preserves_copy_src_platform_files; intros ? ?; reflexivity. }
  assert (forall src dst pat, preserves heap (copy_files src dst (Some pat) None None None None))
    as Hcp.
  { intros. apply preserves_copy_files; intros ? ?; reflexivity. }
  unfold generate_source_and_headers in H.
  apply bind_preserves_heap in H as [(u1 & w1 & Hh1 & H)|Hh]; [|auto|apply Hcp].
  apply bind_preserves_heap in H as [(u2 & w2 & Hh2 & H)|Hh]; [|apply Hsame; congruence|apply Hcp].
  apply bind_preserves_heap in H as [(u3 & w3 & Hh3 & H)|Hh]; [|apply Hsame; congruence|].
  2:{ apply preserves_when. repeat (apply preserves_bind; [apply Hst|intros _]). apply Hst. }
  apply bind_preserves_heap in H as [(u4 & w4 & Hh4 & H)|Hh]; [|apply Hsame; congruence|].
  2:{ apply preserves_when. repeat (apply preserves_bind; [apply Hst|intros _]). apply Hst. }
  apply bind_preserves_heap in H as [(u5 & w5 & Hh5 & H)|Hh]; [|apply Hsame; congruence|].
  2:{ apply preserves_when. repeat (apply preserves_bind; [apply Hst|intros _]). apply Hst. }
  apply bind_inv in H as [(r & w6 & Ha & H)|(e & Ha & _)]; [|inversion Ha].
  inversion Ha; subst r w6. clear Ha.
  assert (heap w5 = heap w) as Hh by congruence. rewrite Hh in H.
  assert (registry_ok J (length (heap w)) (heap (set_heap (heap w ++ [∅]) w5))) as Hok.
  { simpl. split; [rewrite length_app; simpl; lia|].
    rewrite lookup_app_r by lia. rewrite Nat.sub_diag. simpl.
    exact Hempty. }
  assert (forall b l,
            (forall p, In p l -> In p ps) ->
            forall m, (m = match l with
                           | [a; b'] => build_target child a (length (heap w)) >>
                                        build_target child b' (length (heap w))
                           | [a; b'; c] => build_target child a (length (heap w)) >>
                                           build_target child b' (length (heap w)) >>
                                           build_target child c (length (heap w))
                           | _ => ret tt
                           end) ->
            maintains (registry_ok J (length (heap w))) (when b m)) as Hfam.
  { intros b l Hl m ->. apply maintains_when.
    destruct l as [|a [|b' [|c [|]]]];
      try (intros v res0 v' Hv; inversion Hv; subst; auto; fail).
    - apply maintains_bind; [|intros _]; apply maintains_build_target; apply Hkept, Hl; simpl; auto.
    - apply maintains_bind; [apply maintains_build_target; apply Hkept, Hl; simpl; auto|].
      intros _.
      apply maintains_bind; [|intros _]; apply maintains_build_target; apply Hkept, Hl; simpl; auto. }
  assert (maintains (registry_ok J (length (heap w)))
            (when generate_ios
               (build_target child ios_simulator64_platform (length (heap w)) >>
                build_target child ios_device_platform (length (heap w)) >>
                build_target child ios_device64_platform (length (heap w))) >>
             when generate_tvos
               (build_target child tvos_simulator64_platform (length (heap w)) >>
                build_target child tvos_device64_platform (length (heap w))) >>
             when generate_osx
               (build_target child desktop_amd64_platform (length (heap w)) >>
                build_target child desktop_arm64_platform (length (heap w))) >>
             unify_headers (length (heap w)))) as Hall.
  { apply maintains_bind.
    { destruct generate_ios; [|simpl; apply maintains_ret].
      apply (Hfam true ios_platforms); [|reflexivity].
      intros p Hp. subst ps. unfold enabled_platforms. apply in_or_app. left. exact Hp. }
    intros _. apply maintains_bind.
    { destruct generate_tvos; [|simpl; apply maintains_ret].
      apply (Hfam true tvos_platforms); [|reflexivity].
      intros p Hp. subst ps. unfold enabled_platforms.
      apply in_or_app. right. apply in_or_app. left. exact Hp. }
    intros _. apply maintains_bind.
    { destruct generate_osx; [|simpl; apply maintains_ret].
      apply (Hfam true osx_platforms); [|reflexivity].
      intros p Hp. subst ps. unfold enabled_platforms.
      apply in_or_app. right. apply in_or_app. right. exact Hp. }
    intros _. apply maintains_preserves, preserves_unify_headers, heap_no_fs. }
  destruct (Hall _ _ _ H Hok) as [_ Hfinal]. exact Hfinal.
Qed.


(** The registry of a run is keyed by base names, which is what the
    unifier needs to write one umbrella file per key. *)
Lemma generate_registry_relative child generate_osx generate_ios generate_tvos w name :
  is_Some (registry_at
             (generate_source_and_headers child generate_osx generate_ios generate_tvos w).2
             (length (heap w)) !! name) ->
  relative name = true.
Proof.
  intros H. apply slash_free_relative. revert name H.
  apply (generate_invariant child base_names); [apply base_names_empty|].
  intros p _. apply kept_by_base_names.
Qed.

(** ** The family switches *)










(** ** Prefixes of paths *)

Lemma startswith_app a s p :
  Str.startswith (a +:+ s) (a +:+ p) = Str.startswith s p.
Proof.
  induction a as [|c a IH]; [reflexivity|].
  rewrite !append_cons. simpl. rewrite Ascii.eqb_refl. exact IH.
Qed.

Lemma startswith_refl s : Str.startswith s s = true.
Proof. induction s as [|c s IH]; simpl; [reflexivity|]. rewrite Ascii.eqb_refl. exact IH. Qed.

Lemma startswith_app_l a b : Str.startswith (a +:+ b) a = true.
Proof.
  induction a as [|c a IH]; [destruct b; reflexivity|].
  rewrite append_cons. simpl. rewrite Ascii.eqb_refl. exact IH.
Qed.

Lemma startswith_trans p k x :
  Str.startswith k x = true -> Str.startswith p k = true ->
  Str.startswith p x = true.
Proof.
  revert p k. induction x as [|c x IH]; intros p k Hkx Hpk; [reflexivity|].
  destruct k as [|ck k]; [discriminate|]. destruct p as [|cp p]; [discriminate|].
  simpl in *. apply andb_true_iff in Hkx as [E1 Hkx]. apply andb_true_iff in Hpk as [E2 Hpk].
  apply Ascii.eqb_eq in E1, E2. subst. rewrite Ascii.eqb_refl. simpl. eauto.
Qed.

(** Two strings neither of which is a prefix of the other stay so when
    the first is extended. *)
Lemma startswith_incomparable a x out :
  Str.startswith a x = false -> Str.startswith x a = false ->
  Str.startswith (a +:+ out) x = false.
Proof.
  revert x. induction a as [|c a IH]; intros x Hax Hxa.
  - destruct x; discriminate.
  - destruct x as [|cx x]; [discriminate|].
    rewrite append_cons. simpl in *.
    destruct (Ascii.eqb c cx) eqn:E; [|reflexivity]. simpl in *.
    apply IH; [exact Hax|].
    apply Ascii.eqb_eq in E. subst. rewrite Ascii.eqb_refl in Hxa. exact Hxa.
Qed.

Lemma ancestors_from_prefix s : forall acc K,
  K ∈ os.ancestors_from acc s -> Str.startswith (acc +:+ s) K = true.
Proof.
  induction s as [|c s IH]; intros acc K HK; [inversion HK|].
  simpl in HK. apply elem_of_app in HK as [HK|HK].
  - destruct (Ascii.eqb c Str.slash && Str.nonempty acc); [|inversion HK].
    apply list_elem_of_singleton in HK. subst K. apply startswith_app_l.
  - apply IH in HK. rewrite append_assoc in HK. exact HK.
Qed.

Lemma ancestors_prefix P K : K ∈ os.ancestors P -> Str.startswith P K = true.
Proof. intros H. apply ancestors_from_prefix in H. exact H. Qed.

Lemma entry_name_prefix D K n :
  os.entry_name D K = Some n -> Str.startswith K D = true.
Proof.
  unfold os.entry_name.
  destruct (Str.startswith K (if Str.endswith D "/" then D else D +:+ "/")) eqn:E;
    [|discriminate].
  intros _. destruct (Str.endswith D "/"); [exact E|].
  eapply startswith_trans; [|exact E]. apply startswith_app_l.
Qed.

(** ** What staging adds to the file system *)

Lemma mkdir_p_fs path w r w' :
  mkdir_p path w = (r, w') ->
  files (fs w') = files (fs w)
  /\ cwd w' = cwd w
  /\ dirs (fs w) ⊆ dirs (fs w')
  /\ (forall K, K ∈ dirs (fs w') ->
        K ∈ dirs (fs w) \/ K ∈ os.ancestors (os.abspath w path)
        \/ K = os.abspath w path).
Proof.
  intros H. destruct (mkdir_p_frame _ _ _ _ H) as (Hf & Hc & _).
  split; [exact Hf|]. split; [exact Hc|].
  pose proof (mkdir_p_world path w) as Hw. rewrite H in Hw. simpl in Hw. subst w'.
  unfold os.makedirs. cbv zeta.
  change (os.abspath (log (EvMakedirs path) w) path) with (os.abspath w path).
  change (fs (log (EvMakedirs path) w)) with (fs w).
  destruct (os.exists_ _ _); [|destruct (existsb _ _)]; simpl;
    (split; [set_solver|]); intros K HK; auto.
  apply elem_of_union in HK as [HK|HK]; [apply elem_of_union in HK as [HK|HK]|].
  - auto.
  - right. left. apply elem_of_list_to_set in HK. exact HK.
  - right. right. apply elem_of_singleton in HK. exact HK.
Qed.

Lemma grown_refl nd nf f : grown nd nf f f.
Proof. repeat split; auto. Qed.

Lemma grown_trans nd nf f1 f2 f3 :
  grown nd nf f1 f2 -> grown nd nf f2 f3 -> grown nd nf f1 f3.
Proof.
  intros (A1 & B1 & C1 & D1) (A2 & B2 & C2 & D2). repeat split.
  - etrans; eauto.
  - etrans; eauto.
  - intros K HK. destruct (C2 K HK) as [H|H]; auto.
  - intros K HK. destruct (D2 K HK) as [H|H]; auto.
Qed.

Lemma grown_weaken (nd nf nd' nf' : string -> Prop) f f' :
  (forall K, nd K -> nd' K) -> (forall K, nf K -> nf' K) ->
  grown nd nf f f' -> grown nd' nf' f f'.
Proof.
  intros Hd Hf (A & B & C & D). repeat split; auto.
  - intros K HK. destruct (C K HK); auto.
  - intros K HK. destruct (D K HK); auto.
Qed.

Lemma move_file_fs src dst filename file_suffix pre suf w res w' :
  move_file src dst filename file_suffix pre suf w = (res, w') ->
  cwd w' = cwd w
  /\ grown (new_dirs w dst) (fun K => K = target_of w dst filename file_suffix)
       (fs w) (fs w').
Proof.
  unfold move_file, target_of. intros H.
  apply bind_inv in H as [(u & w1 & Hmk & H)|(e & Hmk & _)].
  2:{ apply mkdir_p_fs in Hmk as (Hf & Hc & Hd1 & Hd2).
      split; [exact Hc|]. repeat split; auto. rewrite Hf. auto. rewrite Hf. auto. }
  apply mkdir_p_fs in Hmk as (Hf1 & Hc1 & Hd1 & Hd2).
  assert (grown (new_dirs w dst)
            (fun K => K = os.abspath w (os_path.join dst (out_filename filename file_suffix)))
            (fs w) (fs w1)) as G1.
  { repeat split; auto; rewrite Hf1; auto. }
  assert (os.abspath w1 = os.abspath w) as Habs.
  { unfold os.abspath. rewrite Hc1. reflexivity. }
  apply bind_inv in H as [(h & w2 & Hr & H)|(e & Hr & _)].
  2:{ unfold open_r in Hr. destruct (files (fs w1) !! _); [discriminate|].
      destruct (os.is_dir _ _); inversion Hr; subst; auto. }
  unfold open_r in Hr. destruct (files (fs w1) !! _); [|destruct (os.is_dir _ _); discriminate].
  inversion Hr; subst h w2. clear Hr.
  apply bind_inv in H as [(o & w3 & Ho & H)|(e & Ho & _)].
  2:{ unfold open_w in Ho. cbv zeta in Ho.
      destruct (os.is_dir _ _); [inversion Ho; subst; auto|].
      destruct (negb _); inversion Ho; subst; auto. }
  unfold open_w in Ho. cbv zeta in Ho.
  change (os.abspath (log _ w1)) with (os.abspath w1) in Ho.
  change (fs (log ?ev w1)) with (fs w1) in Ho.
  rewrite Habs in Ho.
  destruct (os.is_dir _ _); [discriminate|].
  destruct (negb _); [discriminate|].
  inversion Ho; subst o w3. clear Ho.
  revert H. unfold bind, when, file_write, file_read. simpl.
  set (T := os.abspath w (os_path.join dst (out_filename filename file_suffix))) in *.
  assert (forall v, grown (new_dirs w dst) (fun K => K = T) (fs w)
            (Filesystem (<[T := v]> (files (fs w1))) (dirs (fs w1)))) as G2.
  { intros v. destruct G1 as (A & B & C & D). repeat split; simpl; auto.
    - rewrite dom_insert_L. set_solver.
    - intros K HK. rewrite dom_insert_L in HK.
      apply elem_of_union in HK as [HK|HK]; [right; apply elem_of_singleton in HK; exact HK|].
      auto. }
  destruct (truthy pre); destruct (truthy suf); simpl;
    intros H; inversion H; subst w'; simpl; (split; [exact Hc1|]);
    rewrite ?insert_insert_eq; apply G2.
Qed.

Lemma staging_fs src dst file_suffix pre suf names : forall w res w',
  for_each names (fun filename =>
    move_file src dst filename file_suffix pre suf) w = (res, w') ->
  cwd w' = cwd w
  /\ grown (new_dirs w dst)
       (fun K => exists name, name ∈ names /\ K = target_of w dst name file_suffix)
       (fs w) (fs w').
Proof.
  induction names as [|x names IH]; intros w res w' H.
  - inversion H; subst. split; [reflexivity|apply grown_refl].
  - simpl in H. apply bind_inv in H as [(u & w1 & Hx & H)|(e & Hx & _)].
    + apply move_file_fs in Hx as [Hc1 G1]. apply IH in H as [Hc G].
      split; [congruence|]. eapply grown_trans.
      * eapply grown_weaken; [| |exact G1]; [auto|].
        intros K ->. exists x. split; [left|reflexivity].
      * eapply grown_weaken; [| |exact G].
        -- intros K. unfold new_dirs. rewrite (abspath_cwd w w1 _ Hc1). auto.
        -- intros K (name & Hn & ->). exists name. split; [right; exact Hn|].
           apply abspath_cwd, Hc1.
    + apply move_file_fs in Hx as [Hc1 G1]. split; [exact Hc1|].
      eapply grown_weaken; [| |exact G1]; [auto|].
      intros K ->. exists x. split; [left|reflexivity].
Qed.

Lemma copy_glob_fs src dst pat file_suffix pre suf w res w' :
  copy_files src dst (Some pat) None file_suffix pre suf w = (res, w') ->
  cwd w' = cwd w
  /\ grown (new_dirs w dst)
       (fun K => exists name, slash_free name /\ K = target_of w dst name file_suffix)
       (fs w) (fs w').
Proof.
  unfold copy_files. intros H.
  apply bind_inv in H as [(names & w1 & Hls & H)|(e & Hls & _)].
  - apply list_files_names in Hls as [-> Hsf]. specialize (Hsf names eq_refl).
    apply staging_fs in H as [Hc G]. split; [exact Hc|].
    eapply grown_weaken; [| |exact G]; [auto|].
    intros K (name & Hn & ->). exists name. split; [|reflexivity].
    rewrite Forall_forall in Hsf. apply Hsf, Hn.
  - apply list_files_names in Hls as [-> _]. split; [reflexivity|apply grown_refl].
Qed.

(** ** What a directory listing depends on *)

Lemma elem_of_listdir f D n :
  n ∈ os.listdir f D <-> exists K, K ∈ keys f /\ os.entry_name D K = Some n.
Proof.
  unfold os.listdir, keys. rewrite list_elem_of_omap.
  split; intros (K & HK & HE); exists K; split; auto;
    apply elem_of_elements; exact HK.
Qed.

Lemma glob_names_eq w src_dir :
  glob_names w src_dir "*.h"
  = if os.is_dir (fs w) (glob_dir w src_dir) then
      os_path.basename <$>
        (os_path.join (os_path.dirname (os_path.join src_dir "*.h")) <$>
           filter (fun name =>
                     (Str.startswith (os_path.basename (os_path.join src_dir "*.h")) "."
                      || negb (Str.startswith name "."))
                     && fnmatch (os_path.basename (os_path.join src_dir "*.h")) name = true)
             (os.listdir (fs w) (glob_dir w src_dir)))
    else [].
Proof.
  unfold glob_names, list_files, glob_dir. simpl. unfold bind, glob.iglob, ret.
  destruct (os.is_dir _ _); reflexivity.
Qed.

Lemma list_files_glob_names w src_dir :
  list_files src_dir (Some "*.h") None w = (Ok (glob_names w src_dir "*.h"), w).
Proof.
  unfold glob_names, list_files. simpl. unfold bind, glob.iglob, ret.
  destruct (os.is_dir _ _); reflexivity.
Qed.

Lemma glob_names_frame w w' src_dir :
  cwd w' = cwd w ->
  os.is_dir (fs w') (glob_dir w src_dir) = os.is_dir (fs w) (glob_dir w src_dir) ->
  (forall n, n ∈ os.listdir (fs w') (glob_dir w src_dir)
             <-> n ∈ os.listdir (fs w) (glob_dir w src_dir)) ->
  forall x, x ∈ glob_names w' src_dir "*.h" <-> x ∈ glob_names w src_dir "*.h".
Proof.
  intros Hc Hd Hl x. rewrite !glob_names_eq.
  assert (glob_dir w' src_dir = glob_dir w src_dir) as ->.
  { unfold glob_dir, os.abspath. rewrite Hc. reflexivity. }
  rewrite Hd. destruct (os.is_dir (fs w) (glob_dir w src_dir)); [|reflexivity].
  rewrite !list_elem_of_fmap.
  split; intros (y & -> & Hy); exists y; (split; [reflexivity|]);
    apply list_elem_of_fmap in Hy as (n & -> & Hn); apply list_elem_of_fmap;
    exists n; (split; [reflexivity|]);
    apply list_elem_of_filter in Hn as [HP Hn]; apply list_elem_of_filter;
    (split; [exact HP|]); apply Hl; exact Hn.
Qed.

Lemma grown_listing nd nf f f' D :
  grown nd nf f f' ->
  (forall K, nd K -> Str.startswith K D = false) ->
  (forall K, nf K -> Str.startswith K D = false) ->
  os.is_dir f' D = os.is_dir f D
  /\ forall n, n ∈ os.listdir f' D <-> n ∈ os.listdir f D.
Proof.
  intros (A & B & C & E) Hd Hf. split.
  - unfold os.is_dir. f_equal. apply bool_decide_ext. split; intros H.
    + destruct (C _ H) as [?|Hn]; [assumption|].
      apply Hd in Hn. rewrite startswith_refl in Hn. discriminate.
    + apply A, H.
  - intros n. rewrite !elem_of_listdir. unfold keys.
    split; intros (K & HK & HE); exists K; (split; [|exact HE]).
    + pose proof (entry_name_prefix _ _ _ HE) as Hp.
      apply elem_of_union in HK as [HK|HK]; apply elem_of_union.
      * destruct (E _ HK) as [?|Hn]; [left; assumption|].
        apply Hf in Hn. congruence.
      * destruct (C _ HK) as [?|Hn]; [right; assumption|].
        apply Hd in Hn. congruence.
    + apply elem_of_union in HK as [HK|HK]; apply elem_of_union; [left|right]; auto.
Qed.

Lemma relative_app a b :
  Str.nonempty a = true -> Str.startswith a "/" = false ->
  Str.startswith (a +:+ b) "/" = false.
Proof. destruct a; [discriminate|]. intros _ H. exact H. Qed.

Lemma apart_spec inc d w :
  relative inc = true -> Str.nonempty inc = true -> Str.endswith inc "/" = false ->
  apart inc d = true ->
  (forall K, new_dirs w inc K -> Str.startswith K (glob_dir w d) = false)
  /\ (forall name file_suffix, slash_free name ->
        Str.startswith (target_of w inc name file_suffix) (glob_dir w d) = false).
Proof.
  intros Hrel Hne Hend Hap. unfold apart in Hap.
  apply andb_true_iff in Hap as [Hap H4]. apply andb_true_iff in Hap as [Hap H3].
  apply andb_true_iff in Hap as [H1 H2].
  apply negb_true_iff in H1, H3, H4, Hrel.
  unfold glob_dir. rewrite H2. rewrite (abspath_relative _ _ H1).
  set (dn := os_path.dirname (os_path.join d "*.h")) in *.
  assert (Str.startswith ("/" +:+ inc) ("/" +:+ dn) = false) as Hinc.
  { destruct (Str.startswith ("/" +:+ inc) ("/" +:+ dn)) eqn:E; [|reflexivity].
    rewrite <- H3. symmetry. eapply startswith_trans; [exact E|].
    rewrite <- append_assoc. apply startswith_app_l. }
  split.
  - intros K HK.
    assert (Str.startswith (os.abspath w inc) K = true) as HP.
    { destruct HK as [HK| ->]; [apply ancestors_prefix, HK|apply startswith_refl]. }
    destruct (Str.startswith K (cwd w +:+ "/" +:+ dn)) eqn:E; [|reflexivity].
    pose proof (startswith_trans _ _ _ E HP) as Ht.
    rewrite (abspath_relative _ _ Hrel), startswith_app in Ht. congruence.
  - intros name file_suffix Hsf. unfold target_of.
    pose proof (out_filename_relative name file_suffix (no_slash_relative _ Hsf)) as Hout.
    rewrite (join_relative _ _ Hout Hne Hend).
    rewrite abspath_relative by (apply relative_app; assumption).
    rewrite startswith_app.
    replace ("/" +:+ inc +:+ "/" +:+ out_filename name file_suffix)
      with (("/" +:+ inc +:+ "/") +:+ out_filename name file_suffix)
      by (rewrite !append_assoc; reflexivity).
    apply startswith_incomparable; assumption.
Qed.

Lemma copy_keeps_listing src inc d file_suffix pre suf w res w' :
  relative inc = true -> Str.nonempty inc = true -> Str.endswith inc "/" = false ->
  apart inc d = true ->
  copy_files src inc (Some "*.h") None file_suffix pre suf w = (res, w') ->
  forall x, x ∈ glob_names w' d "*.h" <-> x ∈ glob_names w d "*.h".
Proof.
  intros Hrel Hne Hend Hap H.
  apply copy_glob_fs in H as [Hc G].
  destruct (apart_spec inc d w Hrel Hne Hend Hap) as [Hd Hf].
  eapply grown_listing with (D := glob_dir w d) in G.
  - destruct G as [Hdir Hl]. apply glob_names_frame; assumption.
  - exact Hd.
  - intros K (name & Hsf & ->). apply Hf, Hsf.
Qed.

Lemma glob_names_ext w w' d :
  cwd w' = cwd w -> fs w' = fs w ->
  glob_names w' d "*.h" = glob_names w d "*.h".
Proof.
  intros Hc Hf. rewrite !glob_names_eq.
  assert (glob_dir w' d = glob_dir w d) as ->.
  { unfold glob_dir, os.abspath. rewrite Hc. reflexivity. }
  rewrite Hf. reflexivity.
Qed.

(** On success the loop of [build_target] records exactly the headers
    that are in the two directories when it ends. *)
Lemma collect_headers_found p r w w' :
  build_separated p = true ->
  collect_headers p r [build_dir p; os_path.join (build_dir p) "include"] w
  = (Ok tt, w') ->
  exists names,
    heap w' = heap_add_all r (tag_of p) names (heap w)
    /\ forall x, x ∈ names <-> x ∈ found_headers p w'.
Proof.
  unfold build_separated. intros Hsep H.
  apply andb_true_iff in Hsep as [Hsep Hap2]. apply andb_true_iff in Hsep as [Hsep Hap1].
  apply andb_true_iff in Hsep as [Hsep Hend]. apply andb_true_iff in Hsep as [Hrel Hne].
  apply negb_true_iff in Hend.
  set (inc := os_path.join (directory p) "include") in *.
  set (d1 := build_dir p) in *. set (d2 := os_path.join (build_dir p) "include") in *.
  unfold collect_headers in H. simpl in H.
  apply bind_inv in H as [(u & w2 & H1 & H2)|(e & _ & He)]; [|discriminate].
  apply bind_inv in H1 as [(u1 & wa & Hcp1 & Hreg1)|(e & _ & He)]; [|discriminate].
  rewrite (bind_ok _ _ _ _ _ (list_files_glob_names wa d1)) in Hreg1.
  rewrite register_names in Hreg1. inversion Hreg1; subst w2. clear Hreg1.
  apply bind_inv in H2 as [(u2 & w3 & H3 & H4)|(e & _ & He)]; [|discriminate].
  inversion H4; subst w3. clear H4.
  apply bind_inv in H3 as [(u3 & wc & Hcp2 & Hreg2)|(e & _ & He)]; [|discriminate].
  rewrite (bind_ok _ _ _ _ _ (list_files_glob_names wc d2)) in Hreg2.
  rewrite register_names in Hreg2. inversion Hreg2; subst w'. clear Hreg2.
  exists (glob_names wa d1 "*.h" ++ glob_names wc d2 "*.h"). split.
  - cbn [heap set_heap]. rewrite heap_add_all_app.
    rewrite (preserves_copy_files heap (fun _ _ => eq_refl) (fun _ _ => eq_refl)
               _ _ _ _ _ _ _ _ _ _ Hcp2).
    cbn [heap set_heap].
    rewrite (preserves_copy_files heap (fun _ _ => eq_refl) (fun _ _ => eq_refl)
               _ _ _ _ _ _ _ _ _ _ Hcp1).
    reflexivity.
  - intros x. unfold found_headers. fold d1 d2.
    rewrite !elem_of_app.
    rewrite (glob_names_ext wc (set_heap _ wc) d1) by reflexivity.
    rewrite (glob_names_ext wc (set_heap _ wc) d2) by reflexivity.
    rewrite (copy_keeps_listing _ _ d1 _ _ _ _ _ _ Hrel Hne Hend Hap1 Hcp2 x).
    rewrite (glob_names_ext wa (set_heap _ wa) d1) by reflexivity.
    reflexivity.
Qed.


Lemma registry_after r t names w w' :
  heap w' = heap_add_all r t names (heap w) ->
  (registry_at w' r = add_all t names (registry_at w r) /\ (r < length (heap w))%nat)
  \/ (registry_at w' r = ∅ /\ registry_at w r = ∅ /\ (length (heap w) <= r)%nat).
Proof.
  intros H. unfold registry_at. rewrite H, heap_add_all_lookup.
  destruct (decide (r < length (heap w))%nat) as [Hlt|Hge]; [left; auto|].
  right. split; [reflexivity|]. split; [|lia].
  rewrite lookup_ge_None_2 by lia. reflexivity.
Qed.



Example registry_after_one_build :
  elements (tags_of (registry_at (build_target configure_ok ios_simulator64_platform 0
                                    sample_world_empty_registry).2 0) "ffi.h")
  = [tag_of ios_simulator64_platform].
Proof. vm_compute. reflexivity. Qed.


(** C10: the i386 simulator descriptor is in the table but not among
    the descriptors a run processes for iOS. No run, with whatever
    families enabled, stages one of its sources, makes its build
    directory or runs configure for it; and a run with iOS enabled that
    completes has staged and built the three other iOS descriptors. *)
Theorem ios_simulator_i386_never_processed
    (child : process) (generate_osx generate_ios generate_tvos : bool) (w : world) :
  let run := generate_source_and_headers child generate_osx generate_ios generate_tvos w in
  In ios_simulator_platform all_platforms
  /\ ~ In ios_simulator_platform ios_platforms
  /\ Forall (fun ev => processes ios_simulator_platform ev = false)
       (new_events w run.2)
  /\ (run.1 = Ok tt -> generate_ios = true ->
      Forall (processed (new_events w run.2)) ios_platforms).
Proof.
  cbv zeta. split; [left; reflexivity|]. split.
  { intros [H|[H|[H|[]]]]; apply (f_equal arch) in H; discriminate H. }
  destruct (generate_source_and_headers child generate_osx generate_ios generate_tvos w)
    as [r w'] eqn:Hrun.
  simpl. split.
  - eapply generate_avoids; [| | | |exact Hrun];
      auto using common_avoids_i386, families_avoid_i386.
  - intros -> Hios. apply (generate_processes _ _ _ _ _ _ Hrun). exact Hios.
Qed.

Lemma ios_simulator_i386_never_processed_witness :
  Forall (processed
            (new_events sample_world
               (generate_source_and_headers configure_ok true true false
                  sample_world).2))
    ios_platforms.
Proof.
  refine (proj2 (proj2 (proj2 (ios_simulator_i386_never_processed configure_ok
            true true false sample_world))) _ _).
  - vm_compute. reflexivity.
  - reflexivity.
Defined.

(** * Further properties of staging, building and unifying *)

(** ** Edge cases of [move_file] *)

Lemma mkdir_p_ok_dirs path w w' :
  mkdir_p path w = (Ok tt, w') ->
  fs w' = fs w
  \/ (os.exists_ (fs w) (os.abspath w path) = false
      /\ existsb (fun a => bool_decide (is_Some (files (fs w) !! a)))
           (os.ancestors (os.abspath w path)) = false
      /\ fs w' = Filesystem (files (fs w))
                   (dirs (fs w) ∪ list_to_set (os.ancestors (os.abspath w path))
                    ∪ {[os.abspath w path]})).
Proof.
  pose proof (mkdir_p_cases path w) as H. revert H.
  unfold os.makedirs. cbv zeta.
  change (os.abspath (log (EvMakedirs path) w) path) with (os.abspath w path).
  change (fs (log (EvMakedirs path) w)) with (fs w).
  destruct (os.exists_ (fs w) (os.abspath w path)) eqn:Hex.
  - simpl. intros -> H. inversion H; subst. left. reflexivity.
  - destruct (existsb _ _) eqn:Hanc.
    + simpl. intros -> H. discriminate.
    + intros -> H. inversion H; subst. right. auto.
Qed.

Lemma mkdir_p_keeps_files path w w' K c :
  mkdir_p path w = (Ok tt, w') ->
  files (fs w) !! K = Some c ->
  os.is_dir (fs w) K = false ->
  os.is_dir (fs w') K = false.
Proof.
  intros H HK Hd. apply mkdir_p_ok_dirs in H as [->|(Hex & Hanc & ->)]; [exact Hd|].
  unfold os.is_dir in *. simpl.
  apply orb_false_iff in Hd as [Hroot Hd]. rewrite Hroot. simpl.
  apply bool_decide_eq_false in Hd. apply bool_decide_eq_false.
  intros Hin. apply elem_of_union in Hin as [Hin|Hin].
  - apply elem_of_union in Hin as [Hin|Hin]; [contradiction|].
    apply elem_of_list_to_set in Hin.
    assert (existsb (fun a => bool_decide (is_Some (files (fs w) !! a)))
              (os.ancestors (os.abspath w path)) = true) as Ht.
    { apply existsb_exists. exists K. split; [apply list_elem_of_In; exact Hin|].
      apply bool_decide_eq_true. eauto. }
    congruence.
  - apply elem_of_singleton in Hin. subst K.
    unfold os.exists_ in Hex. apply orb_false_iff in Hex as [_ Hex].
    apply bool_decide_eq_false in Hex. apply Hex. eauto.
Qed.



(** X2: staging a file onto itself loses its contents. When source and
    target are the same file and no prefix is given, opening the target
    for writing empties the file before it is read, so that the file
    ends up holding the suffix only. *)
Theorem move_file_in_place (src dst filename : string)
    (file_suffix pre suf : option string) (c : string) (w : world) :
  target_of w dst filename file_suffix = source_of w src filename ->
  files (fs w) !! source_of w src filename = Some c ->
  os.is_dir (fs w) (source_of w src filename) = false ->
  os.is_dir (fs w) (os_path.dirname (source_of w src filename)) = true ->
  (mkdir_p dst w).1 = Ok tt ->
  truthy pre = false ->
  (move_file src dst filename file_suffix pre suf w).1 = Ok tt
  /\ files (fs (move_file src dst filename file_suffix pre suf w).2)
       !! source_of w src filename
     = Some (default "" suf).
Proof.
  intros Hsame Hsrc Hnd Hparent Hok Hpre.
  destruct (mkdir_p dst w) as [r w1] eqn:Hmk. simpl in Hok. subst r.
  pose proof (mkdir_p_frame _ _ _ _ Hmk) as (Hf & Hc & _).
  pose proof (mkdir_p_keeps_files _ _ _ _ _ Hmk Hsrc Hnd) as Hnd1.
  pose proof (is_dir_mkdir_p _ _ _ _ _ Hmk Hparent) as Hparent1.
  assert (os.abspath w1 = os.abspath w) as Habs.
  { unfold os.abspath. rewrite Hc. reflexivity. }
  unfold move_file. rewrite (bind_ok _ _ _ _ _ Hmk).
  unfold source_of, target_of in *.
  set (P := os.abspath w (os_path.join src filename)) in *.
  assert (open_r (os_path.join src filename) w1 = (Ok P, w1)) as Hr.
  { unfold open_r. rewrite Habs. fold P. rewrite Hf, Hsrc. reflexivity. }
  rewrite (bind_ok _ _ _ _ _ Hr).
  assert (open_w (os_path.join dst (out_filename filename file_suffix)) w1
          = (Ok P, set_fs (Filesystem (<[P := ""]> (files (fs w1))) (dirs (fs w1)))
                     (log (EvOpenW (os_path.join dst (out_filename filename file_suffix)))
                        w1))) as Hw.
  { unfold open_w. cbv zeta.
    change (os.abspath (log ?ev w1)) with (os.abspath w1).
    change (fs (log ?ev w1)) with (fs w1).
    rewrite Habs, Hsame. rewrite Hnd1, Hparent1. reflexivity. }
  rewrite (bind_ok _ _ _ _ _ Hw).
  unfold bind, when, file_write, file_read. rewrite Hpre. simpl.
  destruct (truthy suf) eqn:Hs; simpl; rewrite ?lookup_insert_eq; simpl;
    rewrite ?lookup_insert_eq; simpl; rewrite ?(truthy_default _ Hs);
    split; reflexivity.
Qed.

Lemma move_file_in_place_witness :
  files (fs (move_file "src" "src" "prep_cif.c" None None (Some "/* end */")
               sample_world).2) !! "/w/src/prep_cif.c"
  = Some "/* end */".
Proof.
  refine (proj2 (move_file_in_place "src" "src" "prep_cif.c" None None
                  (Some "/* end */") "prep" sample_world _ _ _ _ _ _));
    vm_compute; reflexivity.
Defined.

(** ** What [list_files] yields for a pattern *)

Lemma rfind_none c s : Str.contains c s = false -> Str.rfind c s = -1.
Proof.
  induction s as [|a r IH]; simpl; [reflexivity|].
  intros H. apply orb_false_iff in H as [Ha Hr]. rewrite (IH Hr), Ha. reflexivity.
Qed.

Lemma rfind_app c a b :
  Str.rfind c (a +:+ b)
  = if 0 <=? Str.rfind c b then Z.of_nat (String.length a) + Str.rfind c b
    else Str.rfind c a.
Proof.
  induction a as [|x a IH].
  - rewrite append_nil. simpl. pose proof (rfind_ge c b).
    destruct (Z.leb_spec 0 (Str.rfind c b)); lia.
  - rewrite append_cons. simpl Str.rfind. rewrite IH.
    destruct (Z.leb_spec 0 (Str.rfind c b)) as [Hb|Hb].
    + destruct (Z.leb_spec 0 (Z.of_nat (String.length a) + Str.rfind c b)); [|lia].
      simpl String.length. lia.
    + reflexivity.
Qed.

Lemma drop_app_length a b k :
  Str.drop (String.length a + k) (a +:+ b) = Str.drop k b.
Proof. induction a as [|x a IH]; [reflexivity|]. rewrite append_cons. exact IH. Qed.

Lemma take_drop n s : Str.take n s +:+ Str.drop n s = s.
Proof.
  revert s. induction n as [|n IH]; intros [|a r]; try reflexivity.
  simpl. rewrite append_cons, IH. reflexivity.
Qed.

Lemma basename_after_slash a b :
  slash_free b -> os_path.basename (a +:+ String "/" b) = b.
Proof.
  intros Hb. unfold os_path.basename. rewrite rfind_app.
  simpl Str.rfind. rewrite (rfind_none _ _ Hb). simpl.
  replace (Z.to_nat (Z.of_nat (String.length a) + 0 + 1))
    with (String.length a + 1)%nat by lia.
  rewrite drop_app_length. reflexivity.
Qed.

Lemma endswith_slash a :
  Str.endswith a "/" = true -> exists a', a = a' +:+ "/".
Proof.
  unfold Str.endswith. intros H. apply andb_true_iff in H as [H _].
  apply String.eqb_eq in H.
  exists (Str.take (String.length a - String.length "/") a).
  pose proof (take_drop (String.length a - String.length "/") a) as E.
  rewrite H in E. symmetry. exact E.
Qed.

Lemma basename_slash_free b : slash_free b -> os_path.basename b = b.
Proof.
  intros Hb. unfold os_path.basename. rewrite (rfind_none _ _ Hb). reflexivity.
Qed.

Lemma basename_join a b : slash_free b -> os_path.basename (os_path.join a b) = b.
Proof.
  intros Hb. unfold os_path.join.
  rewrite (no_slash_relative _ Hb).
  destruct (Str.nonempty a) eqn:Ha; simpl.
  - destruct (Str.endswith a "/") eqn:He.
    + apply endswith_slash in He as [a' ->].
      rewrite append_assoc. apply basename_after_slash, Hb.
    + apply basename_after_slash, Hb.
  - destruct a; [|discriminate]. rewrite append_nil. apply basename_slash_free, Hb.
Qed.

Lemma listdir_slash_free f D n : n ∈ os.listdir f D -> slash_free n.
Proof.
  intros H. apply elem_of_listdir in H as (K & _ & HE).
  unfold os.entry_name in HE. destruct (Str.startswith _ _); [|discriminate].
  destruct (Str.nonempty _ && negb _) eqn:Hn; [|discriminate].
  inversion HE; subst. apply andb_true_iff in Hn as [_ Hn].
  apply negb_true_iff in Hn. exact Hn.
Qed.

Lemma plain_pattern_spec src pat :
  plain_pattern src pat = true -> Str.nonempty pat = true /\ slash_free pat.
Proof.
  unfold plain_pattern. intros H. apply andb_true_iff in H as [H Hsf].
  apply andb_true_iff in H as [_ Hne]. apply negb_true_iff in Hsf. auto.
Qed.

(** X3: with a pattern, [list_files] never fails and ignores the file
    list. For a literal directory and a pattern of literal characters,
    [*] and [?], it yields exactly the names of the entries of the
    directory that match the pattern, files and directories alike, and
    leaves out the entries whose name starts with a dot unless the
    pattern does; a directory that does not exist yields nothing. *)
Theorem list_files_pattern (src pat : string) (filelist : option (list string))
    (w : world) :
  plain_pattern src pat = true ->
  exists names,
    list_files src (Some pat) filelist w = (Ok names, w)
    /\ forall name,
         name ∈ names <->
         os.is_dir (fs w) (glob_root w (os_path.join src pat)) = true
         /\ name ∈ os.listdir (fs w) (glob_root w (os_path.join src pat))
         /\ fnmatch pat name = true
         /\ (Str.startswith pat "." = false -> Str.startswith name "." = false).
Proof.
  intros Hplain. destruct (plain_pattern_spec _ _ Hplain) as [Hne Hsf].
  unfold list_files. simpl truthy. rewrite Hne.
  unfold bind, glob.iglob, ret. simpl default.
  rewrite (basename_join src pat Hsf). fold (glob_root w (os_path.join src pat)).
  set (D := glob_root w (os_path.join src pat)).
  destruct (os.is_dir (fs w) D) eqn:Hd.
  - eexists. split; [reflexivity|]. intros name.
    rewrite list_elem_of_fmap. split.
    + intros (y & -> & Hy). apply list_elem_of_fmap in Hy as (n & -> & Hn).
      apply list_elem_of_filter in Hn as [HP Hn].
      rewrite (basename_join _ n (listdir_slash_free _ _ _ Hn)).
      apply andb_true_iff in HP as [Hv Hm].
      split; [reflexivity|]. split; [exact Hn|]. split; [exact Hm|].
      intros Hp. rewrite Hp in Hv. simpl in Hv. apply negb_true_iff in Hv. exact Hv.
    + intros (_ & Hn & Hm & Hv).
      exists (os_path.join (os_path.dirname (os_path.join src pat)) name).
      split; [symmetry; apply basename_join, (listdir_slash_free _ _ _ Hn)|].
      apply list_elem_of_fmap. exists name. split; [reflexivity|].
      apply list_elem_of_filter. split; [|exact Hn].
      apply andb_true_iff. split; [|exact Hm].
      destruct (Str.startswith pat ".") eqn:Hp; [reflexivity|].
      rewrite (Hv eq_refl). reflexivity.
  - exists []. split; [reflexivity|]. intros name. split.
    + intros H. inversion H.
    + intros [H _]. discriminate.
Qed.

Lemma list_files_pattern_witness :
  exists names,
    list_files "src" (Some "*.c") (Some ["ignored.c"]) sample_world
    = (Ok names, sample_world)
    /\ forall name,
         name ∈ names <->
         os.is_dir (fs sample_world) (glob_root sample_world (os_path.join "src" "*.c"))
         = true
         /\ name ∈ os.listdir (fs sample_world)
                     (glob_root sample_world (os_path.join "src" "*.c"))
         /\ fnmatch "*.c" name = true
         /\ (Str.startswith "*.c" "." = false -> Str.startswith name "." = false).
Proof.
  apply (list_files_pattern "src" "*.c" (Some ["ignored.c"]) sample_world).
  reflexivity.
Defined.

(** X4: staging by pattern out of a directory that does not exist, or
    that has no entry matching the pattern, is not an error and does
    nothing at all: not even the destination directory is created. *)
Theorem copy_files_nothing_to_stage (src dst pat : string)
    (filelist : option (list string)) (file_suffix pre suf : option string)
    (w : world) :
  plain_pattern src pat = true ->
  (os.is_dir (fs w) (glob_root w (os_path.join src pat)) = false
   \/ forall name, name ∈ os.listdir (fs w) (glob_root w (os_path.join src pat)) ->
        fnmatch pat name = false) ->
  copy_files src dst (Some pat) filelist file_suffix pre suf w = (Ok tt, w).
Proof.
  intros Hplain Hnone. destruct (plain_pattern_spec _ _ Hplain) as [Hne Hsf].
  assert (list_files src (Some pat) filelist w = (Ok [], w)) as Hlist.
  { unfold list_files. simpl truthy. rewrite Hne.
    unfold bind, glob.iglob, ret. simpl default.
    rewrite (basename_join src pat Hsf). fold (glob_root w (os_path.join src pat)).
    destruct (os.is_dir (fs w) (glob_root w (os_path.join src pat))) eqn:Hd;
      [|reflexivity].
    destruct Hnone as [Hnd|Hnm]; [discriminate|].
    destruct (filter _ _) as [|n l] eqn:Hf; [reflexivity|].
    assert (n ∈ n :: l) as Hin by left.
    rewrite <- Hf in Hin. apply list_elem_of_filter in Hin as [HP Hn].
    apply andb_true_iff in HP as [_ Hm]. rewrite (Hnm n Hn) in Hm. discriminate. }
  unfold copy_files. rewrite (bind_ok _ _ _ _ _ Hlist). reflexivity.
Qed.

Lemma copy_files_nothing_to_stage_witness :
  copy_files "no_such_dir" "out" (Some "*.h") None None None None sample_world
  = (Ok tt, sample_world).
Proof.
  apply copy_files_nothing_to_stage; [reflexivity | left; vm_compute; reflexivity].
Defined.

(** ** What staging leaves alone *)

Lemma move_file_frame src dst filename file_suffix pre suf w res w' K :
  move_file src dst filename file_suffix pre suf w = (res, w') ->
  K <> target_of w dst filename file_suffix ->
  files (fs w') !! K = files (fs w) !! K.
Proof.
  unfold move_file, target_of. intros H HK.
  apply bind_inv in H as [(u & w1 & Hmk & H)|(e & Hmk & _)].
  2:{ apply mkdir_p_frame in Hmk as (Hf & _). rewrite Hf. reflexivity. }
  apply mkdir_p_frame in Hmk as (Hf1 & Hc1 & _).
  assert (os.abspath w1 = os.abspath w) as Habs.
  { unfold os.abspath. rewrite Hc1. reflexivity. }
  apply bind_inv in H as [(h & w2 & Hr & H)|(e & Hr & _)].
  2:{ unfold open_r in Hr. destruct (files (fs w1) !! _); [discriminate|].
      destruct (os.is_dir _ _); inversion Hr; subst; rewrite Hf1; reflexivity. }
  unfold open_r in Hr. destruct (files (fs w1) !! _); [|destruct (os.is_dir _ _); discriminate].
  inversion Hr; subst h w2. clear Hr.
  apply bind_inv in H as [(o & w3 & Ho & H)|(e & Ho & _)].
  2:{ unfold open_w in Ho. cbv zeta in Ho.
      destruct (os.is_dir _ _); [inversion Ho; subst; simpl; rewrite Hf1; reflexivity|].
      destruct (negb _); inversion Ho; subst; simpl; rewrite Hf1; reflexivity. }
  unfold open_w in Ho. cbv zeta in Ho.
  change (os.abspath (log _ w1)) with (os.abspath w1) in Ho.
  change (fs (log ?ev w1)) with (fs w1) in Ho.
  rewrite Habs in Ho.
  destruct (os.is_dir _ _); [discriminate|].
  destruct (negb _); [discriminate|].
  inversion Ho; subst o w3. clear Ho.
  revert H. unfold bind, when, file_write, file_read. simpl.
  destruct (truthy pre); destruct (truthy suf); simpl;
    intros H; inversion H; subst w'; simpl;
    rewrite ?insert_insert_eq; rewrite lookup_insert_ne by congruence;
    rewrite Hf1; reflexivity.
Qed.

Lemma staging_frame src dst file_suffix pre suf names K : forall w res w',
  for_each names (fun filename =>
    move_file src dst filename file_suffix pre suf) w = (res, w') ->
  (forall name, name ∈ names -> K <> target_of w dst name file_suffix) ->
  files (fs w') !! K = files (fs w) !! K.
Proof.
  induction names as [|x names IH]; intros w res w' H HK.
  - inversion H; subst. reflexivity.
  - simpl in H. apply bind_inv in H as [(u & w1 & Hx & H)|(e & Hx & _)].
    + pose proof (move_file_fs _ _ _ _ _ _ _ _ _ Hx) as [Hc1 _].
      rewrite (IH _ _ _ H).
      * eapply move_file_frame; [exact Hx|]. apply HK. left.
      * intros name Hn. unfold target_of. rewrite (abspath_cwd w w1 _ Hc1).
        apply HK. right. exact Hn.
    + eapply move_file_frame; [exact Hx|]. apply HK. left.
Qed.

(** X5: staging never deletes anything and writes nowhere but into its
    destination directory. Whatever the outcome of [copy_files], the
    working directory and the registry objects are as before, every
    file and directory that existed still exists, a new directory is
    the destination or one of its ancestors, and a file whose path is
    not the destination joined with an output name keeps its
    contents. *)
Theorem copy_files_frame (src dst : string) (pattern : option string)
    (filelist : option (list string)) (file_suffix pre suf : option string)
    (w : world) :
  let w' := (copy_files src dst pattern filelist file_suffix pre suf w).2 in
  cwd w' = cwd w
  /\ heap w' = heap w
  /\ dirs (fs w) ⊆ dirs (fs w')
  /\ dom (files (fs w)) ⊆ dom (files (fs w'))
  /\ (forall K, K ∈ dirs (fs w') -> K ∈ dirs (fs w) \/ new_dirs w dst K)
  /\ (forall K,
        (forall name, slash_free name -> K <> target_of w dst name file_suffix) ->
        files (fs w') !! K = files (fs w) !! K).
Proof.
  cbv zeta.
  destruct (copy_files src dst pattern filelist file_suffix pre suf w) as [res w'] eqn:H.
  simpl.
  pose proof (preserves_copy_files heap (fun _ _ => eq_refl) (fun _ _ => eq_refl)
                _ _ _ _ _ _ _ _ _ _ H) as Hheap.
  unfold copy_files in H.
  apply bind_inv in H as [(names & w1 & Hls & H)|(e & Hls & _)].
  - apply list_files_names in Hls as [-> Hsf]. specialize (Hsf names eq_refl).
    rewrite Forall_forall in Hsf.
    pose proof (staging_fs _ _ _ _ _ _ _ _ _ H) as (Hc & Hd & Hf & Hnd & _).
    split; [exact Hc|]. split; [exact Hheap|]. split; [exact Hd|].
    split; [exact Hf|]. split; [exact Hnd|].
    intros K HK. eapply staging_frame; [exact H|].
    intros name Hn. apply HK, Hsf, Hn.
  - apply list_files_names in Hls as [-> _].
    repeat split; auto.
Qed.

Lemma copy_files_frame_witness :
  files (fs (copy_files "src" "darwin_common/src" (Some "*.c") None None None None
               sample_world).2) !! "/w/src/prep_cif.c"
  = files (fs sample_world) !! "/w/src/prep_cif.c".
Proof.
  refine (proj2 (proj2 (proj2 (proj2 (proj2
            (copy_files_frame "src" "darwin_common/src" (Some "*.c") None None None None
               sample_world))))) "/w/src/prep_cif.c" _).
  intros name Hname. unfold target_of, out_filename.
  rewrite join_relative
    by (first [apply no_slash_relative; exact Hname | reflexivity]).
  vm_compute. discriminate.
Defined.

(** ** What the unifier writes *)

Lemma writes_frame (B : tag_tuple -> string) h tags : forall w res w',
  for_each tags (fun t => file_write h (B t)) w = (res, w') ->
  cwd w' = cwd w /\ trace w' = trace w
  /\ forall K, K <> h -> files (fs w') !! K = files (fs w) !! K.
Proof.
  induction tags as [|t tags IH]; intros w res w' H.
  - inversion H; subst. auto.
  - simpl in H. unfold bind at 1 in H. unfold file_write at 1 in H.
    apply IH in H as (Hc & Ht & Hf). simpl in *.
    split; [exact Hc|]. split; [exact Ht|].
    intros K HK. rewrite (Hf K HK). apply lookup_insert_ne. congruence.
Qed.

Lemma unify_one_frame header_name tag_tuples w res w' :
  (let '(basename, suffix) := os_path.splitext header_name in
   let* header := open_w (os_path.join "darwin_common/include" header_name) in
   for_each tag_tuples (fun tag_tuple =>
     file_write header (include_block basename suffix tag_tuple))) w = (res, w') ->
  cwd w' = cwd w
  /\ trace w' = trace w ++ [EvOpenW (os_path.join "darwin_common/include" header_name)]
  /\ forall K, K <> umbrella_target w header_name ->
       files (fs w') !! K = files (fs w) !! K.
Proof.
  unfold umbrella_target.
  destruct (os_path.splitext header_name) as [stem ext]. intros H.
  apply bind_inv in H as [(h & w1 & Ho & H)|(e & Ho & _)].
  - pose proof (trace_open_w _ _ _ _ Ho) as Ht.
    unfold open_w in Ho. cbv zeta in Ho.
    change (os.abspath (log _ w)) with (os.abspath w) in Ho.
    change (fs (log ?ev w)) with (fs w) in Ho.
    destruct (os.is_dir _ _); [discriminate|].
    destruct (negb _); [discriminate|].
    inversion Ho; subst h w1. clear Ho.
    apply writes_frame in H as (Hc & Ht' & Hf). simpl in *.
    split; [exact Hc|]. split; [exact Ht'|].
    intros K HK. rewrite (Hf K HK). apply lookup_insert_ne. congruence.
  - pose proof (trace_open_w _ _ _ _ Ho) as Ht.
    unfold open_w in Ho. cbv zeta in Ho.
    destruct (os.is_dir _ _); [inversion Ho; subst; simpl; auto|].
    destruct (negb _); inversion Ho; subst; simpl; auto.
Qed.

Lemma unify_loop_frame (items : list (string * list tag_tuple)) : forall w res w',
  for_each items (fun '(header_name, tag_tuples) =>
    let '(basename, suffix) := os_path.splitext header_name in
    let* header := open_w (os_path.join "darwin_common/include" header_name) in
    for_each tag_tuples (fun tag_tuple =>
      file_write header (include_block basename suffix tag_tuple))) w = (res, w') ->
  cwd w' = cwd w
  /\ (exists new, trace w' = trace w ++ new
        /\ Forall (fun ev => exists it, it ∈ items
                     /\ ev = EvOpenW (os_path.join "darwin_common/include" it.1)) new)
  /\ forall K, (forall it, it ∈ items -> K <> umbrella_target w it.1) ->
       files (fs w') !! K = files (fs w) !! K.
Proof.
  induction items as [|[name tags] items IH]; intros w res w' H.
  - inversion H; subst. split; [reflexivity|]. split; [|reflexivity].
    exists []. rewrite app_nil_r. split; [reflexivity|constructor].
  - simpl in H. apply bind_inv in H as [(u & w1 & Hx & H)|(e & Hx & _)].
    + apply unify_one_frame in Hx as (Hc1 & Ht1 & Hf1).
      apply IH in H as (Hc & (new & Ht & Hall) & Hf).
      split; [congruence|]. split.
      * exists (EvOpenW (os_path.join "darwin_common/include" name) :: new).
        split; [rewrite Ht, Ht1, <- app_assoc; reflexivity|].
        constructor 2.
        -- exists (name, tags). split; [left|reflexivity].
        -- eapply Forall_impl; [exact Hall|]. simpl.
           intros ev (it & Hin & ->). exists it. split; [right; exact Hin|reflexivity].
      * intros K HK. rewrite Hf.
        -- apply Hf1. apply (HK (name, tags)). left.
        -- intros it Hin. unfold umbrella_target.
           rewrite (abspath_cwd w w1 _ Hc1). apply HK. right. exact Hin.
    + apply unify_one_frame in Hx as (Hc1 & Ht1 & Hf1).
      split; [exact Hc1|]. split.
      * exists [EvOpenW (os_path.join "darwin_common/include" name)].
        split; [exact Ht1|]. constructor 2; [|constructor 1].
        exists (name, tags). split; [left|reflexivity].
      * intros K HK. apply Hf1. apply (HK (name, tags)). left.
Qed.

(** X6: the unifier touches nothing but the umbrella headers. Whatever
    its outcome, it creates [darwin_common/include] first, then opens
    for writing only files of that directory named by a key of the
    registry; a file at any other path keeps its contents, and the
    registry objects and the working directory are as before. With an
    empty registry it creates the directory and writes no file. *)
Theorem unify_headers_frame (platform_headers : nat) (w : world) :
  let w' := (unify_headers platform_headers w).2 in
  cwd w' = cwd w
  /\ heap w' = heap w
  /\ (exists opened,
        new_events w w' = EvMakedirs "darwin_common/include" :: opened
        /\ Forall (fun ev => exists name,
                     is_Some (registry_at w platform_headers !! name)
                     /\ ev = EvOpenW (os_path.join "darwin_common/include" name))
             opened)
  /\ (forall K,
        (forall name, is_Some (registry_at w platform_headers !! name) ->
           K <> umbrella_target w name) ->
        files (fs w') !! K = files (fs w) !! K)
  /\ (registry_at w platform_headers = ∅ ->
      files (fs w') = files (fs w)
      /\ new_events w w' = [EvMakedirs "darwin_common/include"]).
Proof.
  cbv zeta.
  destruct (unify_headers platform_headers w) as [res w'] eqn:H. simpl.
  pose proof (preserves_unify_headers heap platform_headers heap_no_fs _ _ _ H) as Hheap.
  unfold unify_headers in H.
  assert (forall name tags,
            (name, tags) ∈ prod_map id elements
                           <$> map_to_list (registry_at w platform_headers) ->
            is_Some (registry_at w platform_headers !! name)) as Hkey.
  { intros name tags Hin. apply list_elem_of_fmap in Hin as ([n S] & Heq & Hin).
    inversion Heq; subst. apply elem_of_map_to_list in Hin. eauto. }
  apply bind_inv in H as [(u & w1 & Hmk & H)|(e & Hmk & _)].
  - pose proof (trace_mkdir_p _ _ _ _ Hmk) as Ht1.
    apply mkdir_p_frame in Hmk as (Hf1 & Hc1 & Hh1).
    apply bind_inv in H as [(items & w2 & Hi & H)|(e & Hi & _)]; [|discriminate].
    inversion Hi; subst items w2. clear Hi.
    assert (registry_at w1 platform_headers = registry_at w platform_headers) as Hreg1.
    { unfold registry_at. rewrite Hh1. reflexivity. }
    rewrite Hreg1 in H.
    apply unify_loop_frame in H as (Hc & (new & Ht & Hall) & Hf).
    assert (new_events w w' = EvMakedirs "darwin_common/include" :: new) as Hnew.
    { apply new_events_app. rewrite Ht, Ht1, <- app_assoc. reflexivity. }
    split; [congruence|]. split; [exact Hheap|]. split; [|split].
    + exists new. split; [exact Hnew|].
      eapply Forall_impl; [exact Hall|]. simpl.
      intros ev ([name tags] & Hin & ->). exists name. split; [|reflexivity].
      eapply Hkey. exact Hin.
    + intros K HK. rewrite Hf, Hf1; [reflexivity|].
      intros [name tags] Hin. unfold umbrella_target.
      rewrite (abspath_cwd w w1 _ Hc1). apply HK. eapply Hkey. exact Hin.
    + intros Hempty. rewrite Hempty, map_to_list_empty in Hall. simpl in Hall.
      destruct new as [|ev new].
      * split; [|exact Hnew].
        apply map_eq. intros K. rewrite Hf, Hf1; [reflexivity|].
        intros it Hin. rewrite Hempty, map_to_list_empty in Hin. inversion Hin.
      * apply Forall_cons_1 in Hall as [(it & Hin & _) _]. inversion Hin.
  - pose proof (trace_mkdir_p _ _ _ _ Hmk) as Ht1.
    apply mkdir_p_frame in Hmk as (Hf1 & Hc1 & Hh1).
    assert (new_events w w' = [EvMakedirs "darwin_common/include"]) as Hnew.
    { apply new_events_app. exact Ht1. }
    split; [exact Hc1|]. split; [exact Hheap|]. split; [|split].
    + exists []. split; [exact Hnew|constructor].
    + intros K _. rewrite Hf1. reflexivity.
    + intros _. split; [exact Hf1|exact Hnew].
Qed.

Lemma unify_headers_frame_witness :
  files (fs (unify_headers 0 sample_world_with_registry).2) !! "/w/include/ffi_common.h"
  = files (fs sample_world_with_registry) !! "/w/include/ffi_common.h"
  /\ files (fs (unify_headers 0 sample_world_empty_registry).2)
     = files (fs sample_world_empty_registry).
Proof.
  split.
  - refine (proj1 (proj2 (proj2 (proj2
              (unify_headers_frame 0 sample_world_with_registry))))
              "/w/include/ffi_common.h" _).
    intros name [S HS]. unfold registry_at in HS. simpl in HS.
    unfold sample_registry in HS. apply lookup_singleton_Some in HS as [<- _].
    vm_compute. discriminate.
  - refine (proj1 (proj2 (proj2 (proj2 (proj2
              (unify_headers_frame 0 sample_world_empty_registry)))) _)).
    reflexivity.
Defined.

(** ** The exceptions that come out *)

Section RaisesOnly.

Variable E : exn -> Prop.
Hypothesis E_os : forall en path, E (OSError en path).

Lemma raises_only_ret {A} (a : A) : raises_only E (ret a).
Proof. intros w e w' H. inversion H. Qed.

Lemma raises_only_bind {A B} (m : M A) (k : A -> M B) :
  raises_only E m -> (forall a, raises_only E (k a)) -> raises_only E (bind m k).
Proof.
  intros Hm Hk w e w' H.
  apply bind_inv in H as [(a & w1 & H1 & H2)|(e' & H1 & He)].
  - eapply Hk; eauto.
  - inversion He; subst. eapply Hm; eauto.
Qed.

Lemma raises_only_when b m : raises_only E m -> raises_only E (when b m).
Proof. destruct b; simpl; [auto|]. intros _. apply raises_only_ret. Qed.

Lemma raises_only_for_each {A} (l : list A) body :
  (forall x, raises_only E (body x)) -> raises_only E (for_each l body).
Proof.
  intros Hb. induction l as [|x l IH]; simpl; [apply raises_only_ret|].
  apply raises_only_bind; [apply Hb|]. intros _. exact IH.
Qed.


Lemma raises_only_makedirs path : raises_only E (os.makedirs path).
Proof.
  intros w e w'. unfold os.makedirs. cbv zeta.
  destruct (os.exists_ _ _); [|destruct (existsb _ _)];
    intros H; inversion H; subst; apply E_os.
Qed.

Lemma raises_only_mkdir_p path : raises_only E (mkdir_p path).
Proof.
  intros w e w'. unfold mkdir_p, try_except_OSError.
  destruct (os.makedirs path w) as [[u|e1] w1] eqn:Hmk.
  - intros H; inversion H.
  - apply raises_only_makedirs in Hmk. destruct e1 as [en p| | |].
    + destruct (decide (en ≠ EEXIST)); intros H; inversion H; subst; apply E_os.
    + intros H; inversion H; subst; exact Hmk.
    + intros H; inversion H; subst; exact Hmk.
    + intros H; inversion H; subst; exact Hmk.
Qed.

Lemma raises_only_open_r path : raises_only E (open_r path).
Proof.
  intros w e w'. unfold open_r. destruct (files (fs w) !! _); [intros H; inversion H|].
  destruct (os.is_dir _ _); intros H; inversion H; subst; apply E_os.
Qed.

Lemma raises_only_open_w path : raises_only E (open_w path).
Proof.
  intros w e w'. unfold open_w. cbv zeta.
  destruct (os.is_dir _ _); [intros H; inversion H; subst; apply E_os|].
  destruct (negb _); intros H; inversion H; subst; apply E_os.
Qed.

Lemma raises_only_chdir path : raises_only E (os.chdir path).
Proof.
  intros w e w'. unfold os.chdir. cbv zeta.
  destruct (os.is_dir _ _); [intros H; inversion H|].
  destruct (bool_decide _); intros H; inversion H; subst; apply E_os.
Qed.

Lemma raises_only_file_write h d : raises_only E (file_write h d).
Proof. intros w e w' H. inversion H. Qed.

Lemma raises_only_file_read h : raises_only E (file_read h).
Proof. intros w e w' H. inversion H. Qed.

Lemma raises_only_move_file src dst filename file_suffix pre suf :
  raises_only E (move_file src dst filename file_suffix pre suf).
Proof.
  unfold move_file.
  apply raises_only_bind; [apply raises_only_mkdir_p|]. intros _.
  apply raises_only_bind; [apply raises_only_open_r|]. intros h.
  apply raises_only_bind; [apply raises_only_open_w|]. intros o.
  apply raises_only_bind; [apply raises_only_when, raises_only_file_write|]. intros _.
  apply raises_only_bind.
  - apply raises_only_bind; [apply raises_only_file_read|].
    intros d. apply raises_only_file_write.
  - intros _. apply raises_only_when, raises_only_file_write.
Qed.

Lemma raises_only_list_files src pattern filelist :
  (truthy pattern = false -> filelist = None -> E TypeError) ->
  raises_only E (list_files src pattern filelist).
Proof.
  intros Hty w e w'. unfold list_files, bind.
  destruct (truthy pattern) eqn:Hp.
  - unfold glob.iglob, ret. destruct (os.is_dir _ _); intros H; inversion H.
  - unfold ret. destruct filelist as [l|]; intros H; inversion H; subst. auto.
Qed.

Lemma raises_only_copy_files src dst pattern filelist file_suffix pre suf :
  (truthy pattern = false -> filelist = None -> E TypeError) ->
  raises_only E (copy_files src dst pattern filelist file_suffix pre suf).
Proof.
  intros Hty. unfold copy_files.
  apply raises_only_bind; [apply raises_only_list_files, Hty|].
  intros names. apply raises_only_for_each. intros x. apply raises_only_move_file.
Qed.


Lemma raises_only_collect_headers p r dirs :
  raises_only E (collect_headers p r dirs).
Proof.
  unfold collect_headers. apply raises_only_for_each. intros d.
  apply raises_only_bind; [apply raises_only_copy_files; discriminate|]. intros _.
  apply raises_only_bind; [apply raises_only_list_files; discriminate|].
  intros names. apply raises_only_for_each. intros x w e w' H. inversion H.
Qed.




End RaisesOnly.

Lemma build_target_phases child p r w :
  build_target child p r w
  = bind (configure_phase child p)
      (fun _ => collect_headers p r [build_dir p; os_path.join (build_dir p) "include"]) w.
Proof.
  unfold build_target, configure_phase, collect_headers, bind.
  destruct (mkdir_p (build_dir p) w) as [[u|e] w1]; [|reflexivity].
  unfold os.getcwd.
  destruct (try_finally _ _ w1) as [[u2|e] w2]; reflexivity.
Qed.

Lemma configure_phase_events child p :
  respects (only (fun ev => is_write ev = false)) (configure_phase child p).
Proof.
  set (P := fun ev => is_write ev = false).
  unfold configure_phase.
  apply (respects_bind _ (only_app P)).
  { apply (respects_mkdir_p _ (only_raise P)). apply only_one. reflexivity. }
  intros _. apply (respects_bind _ (only_app P)).
  { apply (respects_silent _ (only_nil P) (only_raise P)), silent_getcwd. }
  intros wd. apply (respects_try_finally _ (only_raise P)); [|apply silent_chdir].
  apply (respects_bind _ (only_app P)).
  { apply (respects_silent _ (only_nil P) (only_raise P)), silent_chdir. }
  intros _. apply only_check_call. intros rc. reflexivity.
Qed.

Lemma configure_phase_heap child p w r w' :
  configure_phase child p w = (r, w') -> heap w' = heap w.
Proof.
  unfold configure_phase. intros H.
  apply bind_inv in H as [(u & w1 & Hmk & H)|(e & Hmk & _)].
  - apply mkdir_p_frame in Hmk as (_ & _ & Hh1).
    apply bind_inv in H as [(wd & w1' & Hg & H)|(e & Hg & _)]; [|inversion Hg].
    inversion Hg; subst wd w1'. clear Hg.
    rewrite <- Hh1. exact (preserves_try_configure heap child p _ heap_no_fs _ _ _ H).
  - apply mkdir_p_frame in Hmk. tauto.
Qed.




Lemma check_call_failed child args env w rc cmd w' :
  check_call child args env w = (Raise (CalledProcessError rc cmd), w') ->
  rc <> 0 /\ cmd = args /\ trace w' = trace w ++ [EvCall args env rc].
Proof.
  unfold check_call. destruct (child args env (cwd w) (fs w)) as [[rc'|en] f'].
  - destruct (Z.eqb_spec rc' 0) as [->|Hne]; intros H; inversion H; subst. auto.
  - intros H; inversion H.
Qed.

Lemma not_OSError_CalledProcessError rc cmd : ~ is_OSError (CalledProcessError rc cmd).
Proof. intros (en & path & H). discriminate. Qed.

(** X8: when [build_target] ends with [CalledProcessError], the error
    is that of its own configure command with the non-zero status the
    child returned. All the call has done by then is to create the
    build directory and run configure: no header was staged and the
    registry is as it was. *)
Theorem build_target_failed_configure (child : process) (p : Platform) (r : nat)
    (w : world) (rc : Z) (cmd : list string) :
  (build_target child p r w).1 = Raise (CalledProcessError rc cmd) ->
  rc <> 0
  /\ cmd = ["../configure"; "-host"; triple p]
  /\ heap (build_target child p r w).2 = heap w
  /\ new_events w (build_target child p r w).2
     = [EvMakedirs (build_dir p); EvCall cmd (build_env p) rc].
Proof.
  intros Hr. destruct (build_target child p r w) as [res w'] eqn:H.
  simpl in *. subst res. rewrite build_target_phases in H.
  apply bind_inv in H as [(u & w1 & _ & H)|(e & H & He)].
  { apply (raises_only_collect_headers is_OSError) in H.
    - destruct (not_OSError_CalledProcessError _ _ H).
    - intros en path. exists en, path. reflexivity. }
  inversion He; subst e. clear He.
  pose proof (configure_phase_heap _ _ _ _ _ H) as Hheap.
  unfold configure_phase in H.
  apply bind_inv in H as [(u & w1 & Hmk & H)|(e & Hmk & He)].
  2:{ inversion He; subst e.
      apply (raises_only_mkdir_p is_OSError) in Hmk.
      - destruct (not_OSError_CalledProcessError _ _ Hmk).
      - intros en path. exists en, path. reflexivity. }
  pose proof (trace_mkdir_p _ _ _ _ Hmk) as Ht1.
  apply bind_inv in H as [(wd & w1' & Hg & H)|(e & Hg & _)]; [|inversion Hg].
  inversion Hg; subst wd w1'. clear Hg.
  apply try_finally_inv in H as (r1 & w2 & r2 & Hbody & Hfin & Hres).
  destruct r2 as [u2|e2].
  2:{ inversion Hres; subst e2.
      apply (raises_only_chdir is_OSError) in Hfin.
      - destruct (not_OSError_CalledProcessError _ _ Hfin).
      - intros en path. exists en, path. reflexivity. }
  subst r1. pose proof (silent_chdir _ _ _ _ Hfin) as Ht3.
  apply bind_inv in Hbody as [(u3 & w3 & Hcd & Hcall)|(e & Hcd & He)].
  2:{ inversion He; subst e.
      apply (raises_only_chdir is_OSError) in Hcd.
      - destruct (not_OSError_CalledProcessError _ _ Hcd).
      - intros en path. exists en, path. reflexivity. }
  pose proof (silent_chdir _ _ _ _ Hcd) as Ht2.
  apply check_call_failed in Hcall as (Hrc & -> & Ht).
  split; [exact Hrc|]. split; [reflexivity|]. split; [exact Hheap|].
  apply new_events_app. rewrite Ht3, Ht, Ht2, Ht1, <- app_assoc. reflexivity.
Qed.

Lemma build_target_failed_configure_witness :
  new_events sample_world_empty_registry
    (build_target (configure_failing_for "arm-apple-darwin11") ios_device_platform 0
       sample_world_empty_registry).2
  = [EvMakedirs (build_dir ios_device_platform);
     EvCall ["../configure"; "-host"; "arm-apple-darwin11"]
       (build_env ios_device_platform) 1].
Proof.
  refine (proj2 (proj2 (proj2
            (build_target_failed_configure
               (configure_failing_for "arm-apple-darwin11") ios_device_platform 0
               sample_world_empty_registry 1
               ["../configure"; "-host"; "arm-apple-darwin11"] _)))).
  vm_compute. reflexivity.
Defined.



(** ** A build directory that is not a directory *)

(** X10: [mkdir_p] takes any existing path for the directory it was
    asked for. When the build directory of a descriptor exists as a
    regular file, [build_target] gets past [mkdir_p] and fails on
    entering it, with [ENOTDIR]: configure is not run, and the file
    system, the registry and the working directory are as before. *)
Theorem build_target_build_dir_is_file (child : process) (p : Platform) (r : nat)
    (w : world) (c : string) :
  files (fs w) !! os.abspath w (build_dir p) = Some c ->
  os.is_dir (fs w) (os.abspath w (build_dir p)) = false ->
  os.is_dir (fs w) (cwd w) = true ->
  Str.startswith (cwd w) "/" = true ->
  (build_target child p r w).1 = Raise (OSError ENOTDIR (build_dir p))
  /\ new_events w (build_target child p r w).2 = [EvMakedirs (build_dir p)]
  /\ fs (build_target child p r w).2 = fs w
  /\ cwd (build_target child p r w).2 = cwd w
  /\ heap (build_target child p r w).2 = heap w.
Proof.
  intros Hfile Hnd Hcwd Habs.
  assert (mkdir_p (build_dir p) w = (Ok tt, log (EvMakedirs (build_dir p)) w)) as Hmk.
  { apply mkdir_p_exists. unfold os.exists_. rewrite Hfile, Hnd. reflexivity. }
  set (w1 := log (EvMakedirs (build_dir p)) w) in *.
  assert (os.chdir (build_dir p) w1 = (Raise (OSError ENOTDIR (build_dir p)), w1)) as Hcd.
  { unfold os.chdir. cbv zeta.
    change (os.abspath w1 (build_dir p)) with (os.abspath w (build_dir p)).
    change (fs w1) with (fs w). rewrite Hnd, Hfile. reflexivity. }
  assert (os.chdir (cwd w) w1 = (Ok tt, set_cwd (cwd w) w1)) as Hback.
  { unfold os.chdir. cbv zeta.
    rewrite (abspath_absolute w1 (cwd w) Habs).
    change (fs w1) with (fs w). rewrite Hcwd. reflexivity. }
  assert (configure_phase child p w
          = (Raise (OSError ENOTDIR (build_dir p)), set_cwd (cwd w) w1)) as Hphase.
  { unfold configure_phase. rewrite (bind_ok _ _ _ _ _ Hmk). fold w1.
    unfold bind, os.getcwd, try_finally. change (cwd w1) with (cwd w).
    rewrite Hcd, Hback. reflexivity. }
  rewrite build_target_phases, (bind_raise _ _ _ _ _ Hphase). simpl.
  repeat split. apply new_events_app. reflexivity.
Qed.

Lemma build_target_build_dir_is_file_witness :
  (build_target configure_ok desktop_arm64_platform 0
     (World "/w" (Filesystem {[ "/w/build_macosx-arm64" := "" ]} {[ "/w" ]}) [∅] [])).1
  = Raise (OSError ENOTDIR "build_macosx-arm64").
Proof.
  refine (proj1 (build_target_build_dir_is_file configure_ok desktop_arm64_platform 0
                   (World "/w" (Filesystem {[ "/w/build_macosx-arm64" := "" ]} {[ "/w" ]})
                      [∅] []) "" _ _ _ _));
    vm_compute; reflexivity.
Defined.

(** ** The registry and the staged headers agree *)

Lemma move_file_creates src dst filename file_suffix pre suf w w' :
  move_file src dst filename file_suffix pre suf w = (Ok tt, w') ->
  is_Some (files (fs w') !! target_of w dst filename file_suffix).
Proof.
  intros H.
  destruct (move_file_files _ _ _ _ _ _ _ _ H) as (c & Hc & _ & Hf).
  destruct (decide (source_of w src filename = target_of w dst filename file_suffix))
    as [Heq|Hne].
  - apply move_file_fs in H as (_ & _ & Hdom & _).
    apply elem_of_dom. apply Hdom. apply elem_of_dom. rewrite <- Heq. eauto.
  - rewrite (Hf Hne), lookup_insert_eq. eauto.
Qed.

Lemma staging_creates src dst file_suffix pre suf names : forall w w',
  for_each names (fun filename =>
    move_file src dst filename file_suffix pre suf) w = (Ok tt, w') ->
  forall f, f ∈ names -> is_Some (files (fs w') !! target_of w dst f file_suffix).
Proof.
  induction names as [|x names IH]; intros w w' H f Hf; [inversion Hf|].
  simpl in H. apply bind_inv in H as [(u & w1 & Hx & H)|(e & _ & He)]; [|discriminate].
  destruct u. pose proof (move_file_fs _ _ _ _ _ _ _ _ _ Hx) as [Hc1 _].
  apply elem_of_cons in Hf as [->|Hf].
  - apply move_file_creates in Hx.
    apply staging_fs in H as (_ & _ & Hdom & _).
    apply elem_of_dom. apply Hdom. apply elem_of_dom. exact Hx.
  - unfold target_of. rewrite <- (abspath_cwd w w1 _ Hc1). apply (IH _ _ H), Hf.
Qed.

Lemma copy_glob_creates src dst file_suffix pre suf w w' :
  copy_files src dst (Some "*.h") None file_suffix pre suf w = (Ok tt, w') ->
  forall name, name ∈ glob_names w src "*.h" ->
    is_Some (files (fs w') !! target_of w dst name file_suffix).
Proof.
  unfold copy_files. rewrite (bind_ok _ _ _ _ _ (list_files_glob_names w src)).
  apply staging_creates.
Qed.

Lemma register_fs r t names w :
  fs (for_each names (fun filename => defaultdict_add r filename t) w).2 = fs w
  /\ cwd (for_each names (fun filename => defaultdict_add r filename t) w).2 = cwd w.
Proof. rewrite register_names. split; reflexivity. Qed.

Lemma collect_headers_staged p r w w' :
  build_separated p = true ->
  collect_headers p r [build_dir p; os_path.join (build_dir p) "include"] w
  = (Ok tt, w') ->
  cwd w' = cwd w
  /\ forall name, name ∈ found_headers p w' ->
       is_Some (files (fs w')
                  !! target_of w (os_path.join (directory p) "include") name
                       (Some (arch p))).
Proof.
  unfold build_separated. intros Hsep H.
  apply andb_true_iff in Hsep as [Hsep Hap2]. apply andb_true_iff in Hsep as [Hsep Hap1].
  apply andb_true_iff in Hsep as [Hsep Hend]. apply andb_true_iff in Hsep as [Hrel Hne].
  apply negb_true_iff in Hend.
  set (inc := os_path.join (directory p) "include") in *.
  set (d1 := build_dir p) in *. set (d2 := os_path.join (build_dir p) "include") in *.
  unfold collect_headers in H. simpl in H.
  apply bind_inv in H as [(u & w2 & H1 & H2)|(e & _ & He)]; [|discriminate].
  apply bind_inv in H1 as [(u1 & wa & Hcp1 & Hreg1)|(e & _ & He)]; [|discriminate].
  rewrite (bind_ok _ _ _ _ _ (list_files_glob_names wa d1)) in Hreg1.
  rewrite register_names in Hreg1. inversion Hreg1; subst w2. clear Hreg1.
  apply bind_inv in H2 as [(u2 & w3 & H3 & H4)|(e & _ & He)]; [|discriminate].
  inversion H4; subst w3. clear H4.
  apply bind_inv in H3 as [(u3 & wc & Hcp2 & Hreg2)|(e & _ & He)]; [|discriminate].
  rewrite (bind_ok _ _ _ _ _ (list_files_glob_names wc d2)) in Hreg2.
  rewrite register_names in Hreg2. inversion Hreg2; subst w'. clear Hreg2.
  pose proof (copy_glob_fs _ _ _ _ _ _ _ _ _ Hcp1) as [Hca _].
  pose proof (copy_glob_fs _ _ _ _ _ _ _ _ _ Hcp2) as [Hcc (_ & Hdom2 & _)].
  simpl in Hcc, Hdom2.
  split; [simpl; congruence|].
  intros name Hname. unfold found_headers in Hname. fold d1 d2 in Hname.
  rewrite elem_of_app in Hname.
  rewrite (glob_names_ext wc (set_heap _ wc) d1) in Hname by reflexivity.
  rewrite (glob_names_ext wc (set_heap _ wc) d2) in Hname by reflexivity.
  rewrite (copy_keeps_listing _ _ d1 _ _ _ _ _ _ Hrel Hne Hend Hap1 Hcp2 name) in Hname.
  rewrite (glob_names_ext wa (set_heap _ wa) d1) in Hname by reflexivity.
  cbn [fs set_heap].
  destruct Hname as [Hname|Hname].
  - rewrite (copy_keeps_listing _ _ d1 _ _ _ _ _ _ Hrel Hne Hend Hap1 Hcp1 name) in Hname.
    destruct u1. apply (copy_glob_creates _ _ _ _ _ _ _ Hcp1) in Hname.
    apply elem_of_dom. apply Hdom2. simpl. apply elem_of_dom. exact Hname.
  - rewrite (copy_keeps_listing _ _ d2 _ _ _ _ _ _ Hrel Hne Hend Hap2 Hcp2 name) in Hname.
    destruct u3. apply (copy_glob_creates _ _ _ _ _ _ _ Hcp2) in Hname.
    unfold target_of in *.
    erewrite <- (abspath_cwd w (set_heap _ wa)); [exact Hname|exact Hca].
Qed.

(** X11: a completed [build_target] leaves the registry and the staged
    headers in agreement. The registry is the one before with the
    triple of the platform recorded under exactly the headers found in
    the two build directories, and each of these headers is then a
    file of the include directory of the platform, under the name
    [move_file] gives it for the architecture. *)
Theorem registered_headers_are_staged (child : process) (p : Platform) (r : nat)
    (w : world) :
  build_separated p = true ->
  (build_target child p r w).1 = Ok tt ->
  (r < length (heap w))%nat ->
  forall name,
    let w' := (build_target child p r w).2 in
    tags_of (registry_at w' r) name
    = (if decide (name ∈ found_headers p w')
       then tags_of (registry_at w r) name ∪ {[tag_of p]}
       else tags_of (registry_at w r) name)
    /\ (name ∈ found_headers p w' ->
        is_Some (files (fs w')
                   !! target_of w' (os_path.join (directory p) "include") name
                        (Some (arch p)))).
Proof.
  intros Hsep Hok Hr name. cbv zeta.
  destruct (build_target child p r w) as [res w'] eqn:H. simpl in *. subst res.
  apply build_target_inv in H as [(wc & Hc & Hcol)|(_ & e & He)]; [|discriminate].
  pose proof (collect_headers_staged _ _ _ _ Hsep Hcol) as [Hcwd Hstaged].
  apply collect_headers_found in Hcol as (names & Hh & Hn); [|exact Hsep].
  rewrite Hc in Hh. split.
  - destruct (registry_after _ _ _ _ _ Hh) as [[-> _]|(_ & _ & Hge)]; [|lia].
    rewrite tags_of_add_all.
    destruct (decide (name ∈ names)) as [Hin|Hnin];
      destruct (decide (name ∈ found_headers p w')) as [Hf|Hnf];
      try reflexivity.
    + destruct Hnf. apply Hn, Hin.
    + destruct Hnin. apply Hn, Hf.
  - intros Hf. unfold target_of. rewrite (abspath_cwd wc w' _ Hcwd).
    apply Hstaged, Hf.
Qed.

Lemma registered_headers_are_staged_witness :
  let w' := (build_target configure_ok ios_device64_platform 0
               sample_world_empty_registry).2 in
  tags_of (registry_at w' 0) "ffi.h"
  = (if decide ("ffi.h" ∈ found_headers ios_device64_platform w')
     then tags_of (registry_at sample_world_empty_registry 0) "ffi.h"
          ∪ {[tag_of ios_device64_platform]}
     else tags_of (registry_at sample_world_empty_registry 0) "ffi.h")
  /\ ("ffi.h" ∈ found_headers ios_device64_platform w' ->
      is_Some (files (fs w')
                 !! target_of w' (os_path.join (directory ios_device64_platform) "include")
                      "ffi.h" (Some (arch ios_device64_platform)))).
Proof.
  refine (registered_headers_are_staged configure_ok ios_device64_platform 0
            sample_world_empty_registry _ _ _ "ffi.h").
  - vm_compute. reflexivity.
  - vm_compute. reflexivity.
  - simpl. lia.
Defined.

Example staged_header_of_sample_build :
  let w' := (build_target configure_ok ios_device64_platform 0
               sample_world_empty_registry).2 in
  bool_decide ("ffi.h" ∈ found_headers ios_device64_platform w') = true
  /\ files (fs w') !! "/w/darwin_ios/include/ffi_arm64.h"
     = Some ("#ifdef __arm64__" +:+ LF +:+ LF +:+ "ffi for aarch64-apple-darwin13"
             +:+ LF +:+ LF +:+ "#endif").
Proof. split; vm_compute; reflexivity. Qed.

(** X12: where the umbrella header and the staged header meet. When a
    completed [build_target] has found a header whose name is not on
    the allow-list, the block the unifier writes for it includes the
    very name under which the header was staged, and that file exists
    in the include directory of the platform. A header on the
    allow-list is staged under its own name, which is never the name
    the block includes. *)
Theorem umbrella_block_names_staged_header (child : process) (p : Platform)
    (r : nat) (w : world) (name : string) :
  let w' := (build_target child p r w).2 in
  (build_separated p = true ->
   (build_target child p r w).1 = Ok tt ->
   Str.nonempty (arch p) = true ->
   name ∈ found_headers p w' ->
   name ∉ allow_list ->
   exists staged,
     staged = out_filename name (Some (arch p))
     /\ is_Some (files (fs w')
                   !! os.abspath w'
                        (os_path.join (os_path.join (directory p) "include") staged))
     /\ include_block (os_path.splitext name).1 (os_path.splitext name).2 (tag_of p)
        = prefix p +:+ "#include <" +:+ staged +:+ ">" +:+ LF +:+ suffix p +:+ LF)
  /\ (name ∈ allow_list ->
      out_filename name (Some (arch p)) = name
      /\ name <> (os_path.splitext name).1 +:+ "_" +:+ arch p
                 +:+ (os_path.splitext name).2).
Proof.
  cbv zeta. split.
  - intros Hsep Hok Harch Hfound Hallow.
    destruct (build_target child p r w) as [res w'] eqn:H. simpl in *. subst res.
    apply build_target_inv in H as [(wc & Hc & Hcol)|(_ & e & He)]; [|discriminate].
    pose proof (collect_headers_staged _ _ _ _ Hsep Hcol) as [Hcwd Hstaged].
    exists (out_filename name (Some (arch p))). split; [reflexivity|]. split.
    + unfold target_of in Hstaged. rewrite (abspath_cwd wc w' _ Hcwd).
      apply Hstaged, Hfound.
    + unfold include_block, out_filename, tag_of. simpl. rewrite Harch.
      unfold allow_list in Hallow. rewrite bool_decide_eq_false_2 by exact Hallow.
      rewrite !append_assoc. reflexivity.
  - intros Hallow. split.
    + unfold out_filename, allow_list in *.
      destruct (Str.nonempty (arch p)); [|reflexivity].
      rewrite bool_decide_eq_true_2 by exact Hallow. reflexivity.
    + unfold allow_list in Hallow.
      repeat (apply elem_of_cons in Hallow as [->|Hallow]);
        [| | |inversion Hallow]; vm_compute; discriminate.
Qed.

Lemma umbrella_block_names_staged_header_witness :
  let w' := (build_target configure_ok ios_device64_platform 0
               sample_world_empty_registry).2 in
  (exists staged,
     staged = out_filename "ffi.h" (Some (arch ios_device64_platform))
     /\ is_Some (files (fs w')
                   !! os.abspath w'
                        (os_path.join
                           (os_path.join (directory ios_device64_platform) "include")
                           staged))
     /\ include_block (os_path.splitext "ffi.h").1 (os_path.splitext "ffi.h").2
          (tag_of ios_device64_platform)
        = prefix ios_device64_platform +:+ "#include <" +:+ staged +:+ ">" +:+ LF
          +:+ suffix ios_device64_platform +:+ LF)
  /\ out_filename "internal.h" (Some (arch ios_device64_platform)) = "internal.h".
Proof.
  cbv zeta. split.
  - refine (proj1 (umbrella_block_names_staged_header configure_ok ios_device64_platform
                     0 sample_world_empty_registry "ffi.h") _ _ _ _ _).
    + vm_compute. reflexivity.
    + vm_compute. reflexivity.
    + reflexivity.
    + apply (bool_decide_eq_true_1 _). vm_compute. reflexivity.
    + unfold allow_list. intros H.
      repeat (apply elem_of_cons in H as [H|H]; [discriminate|]). inversion H.
  - refine (proj1 (proj2 (umbrella_block_names_staged_header configure_ok
                            ios_device64_platform 0 sample_world_empty_registry
                            "internal.h") _)).
    unfold allow_list. right. right. left.
Defined.

(** ** The order of the phases of a run *)











Example phases_of_a_sample_run :
  let new := new_events sample_world
               (generate_source_and_headers configure_ok true false false sample_world).2 in
  existsb is_call new = true
  /\ existsb (fun ev => existsb (fun p => stages p ev) all_platforms) new = true
  /\ existsb (fun ev => bool_decide
                          (ev = EvOpenW (os_path.join "darwin_common/include" "ffi.h")))
       new = true.
Proof. cbv zeta. repeat split; vm_compute; reflexivity. Qed.

(** ** The registry a run builds and the child processes it starts *)

Lemma kept_by_well_keyed p : kept_by p well_keyed.
Proof.
  intros names d Hsf Hd name S HS.
  pose proof (tags_of_add_all (tag_of p) names d name) as Ht.
  unfold tags_of in Ht at 1. rewrite HS in Ht. simpl in Ht.
  destruct (decide (name ∈ names)) as [Hin|Hnin].
  - split.
    + rewrite Forall_forall in Hsf. apply Hsf, Hin.
    + rewrite Ht. intros He.
      assert (tag_of p ∈ tags_of d name ∪ {[tag_of p]}) as Hel
        by (apply elem_of_union; right; apply elem_of_singleton; reflexivity).
      rewrite He in Hel. apply elem_of_empty in Hel. exact Hel.
  - destruct (add_all_is_Some (tag_of p) names d name) as [[S' HS']|Hin];
      [eauto| |contradiction].
    unfold tags_of in Ht. rewrite HS' in Ht. simpl in Ht. subst S'.
    apply (Hd name S HS').
Qed.

Lemma well_keyed_empty : well_keyed ∅.
Proof. intros name S H. rewrite lookup_empty in H. discriminate. Qed.

(** X14: the registry of a run (the object the run allocates, which
    is the next free reference of the heap it starts with), whatever
    the switches and however far the run got, is keyed by base names,
    and no key holds an empty set: a key is made only by recording a
    triple under it. So the unifier writes each umbrella header
    directly into [darwin_common/include], and none of them is
    empty. *)
Theorem registry_keys_well_formed (child : process)
    (generate_osx generate_ios generate_tvos : bool) (w : world) (name : string) :
  let registry :=
    registry_at
      (generate_source_and_headers child generate_osx generate_ios generate_tvos w).2
      (length (heap w)) in
  is_Some (registry !! name) ->
  slash_free name
  /\ tags_of registry name <> ∅
  /\ os_path.join "darwin_common/include" name = "darwin_common/include/" +:+ name.
Proof.
  cbv zeta. intros [S H].
  assert (well_keyed
            (registry_at
               (generate_source_and_headers child generate_osx generate_ios
                  generate_tvos w).2 (length (heap w)))) as Hwk.
  { apply (generate_invariant child well_keyed); [apply well_keyed_empty|].
    intros p _. apply kept_by_well_keyed. }
  destruct (Hwk name S H) as [Hsf Hne].
  split; [exact Hsf|]. split.
  - unfold tags_of. rewrite H. exact Hne.
  - apply join_include_relative, slash_free_relative, Hsf.
Qed.

Lemma registry_keys_well_formed_witness :
  slash_free "ffi.h"
  /\ tags_of
       (registry_at
          (generate_source_and_headers configure_ok true false false sample_world).2
          (length (heap sample_world))) "ffi.h" <> ∅
  /\ os_path.join "darwin_common/include" "ffi.h" = "darwin_common/include/" +:+ "ffi.h".
Proof.
  apply (registry_keys_well_formed configure_ok true false false sample_world "ffi.h").
  apply (bool_decide_eq_true_1 _). vm_compute. reflexivity.
Defined.

Lemma enabled_ios b1 b3 p :
  In p ios_platforms -> In p (enabled_platforms b1 true b3).
Proof. intros H. unfold enabled_platforms. apply in_or_app. left. exact H. Qed.

Lemma enabled_tvos b1 b2 p :
  In p tvos_platforms -> In p (enabled_platforms b1 b2 true).
Proof.
  intros H. unfold enabled_platforms. apply in_or_app. right.
  apply in_or_app. left. exact H.
Qed.

Lemma enabled_osx b2 b3 p :
  In p osx_platforms -> In p (enabled_platforms true b2 b3).
Proof.
  intros H. unfold enabled_platforms. apply in_or_app. right.
  apply in_or_app. right. exact H.
Qed.

Lemma family_configure_calls child (ps all : list Platform) b :
  (b = true -> forall p, In p ps -> In p all) ->
  family_ok child (only (configure_call all)) (configure_call all) b ps.
Proof.
  intros Hsub Hb. specialize (Hsub Hb). apply Forall_forall. intros p Hp.
  apply list_elem_of_In in Hp. split.
  - split; [exact I|]. split; apply Forall_forall; intros x _; exact I.
  - split; [exact I|]. split; [|split; [exact I|intros name _; exact I]].
    apply only_check_call. intros rc. exists p. auto.
Qed.

(** X15: the only child processes a run starts are the configure
    commands of the descriptors that are switched on, each as
    [../configure -host <triple>] and with an environment that holds
    the three variables [CC], [LD] and [CFLAGS] of the descriptor and
    nothing else. *)
Theorem every_call_is_configure (child : process)
    (generate_osx generate_ios generate_tvos : bool) (w : world) :
  Forall (configure_call (enabled_platforms generate_osx generate_ios generate_tvos))
    (new_events w
       (generate_source_and_headers child generate_osx generate_ios generate_tvos w).2)
  /\ forall p, fst <$> build_env p = ["CC"; "LD"; "CFLAGS"].
Proof.
  split; [|reflexivity].
  set (all := enabled_platforms generate_osx generate_ios generate_tvos).
  destruct (generate_source_and_headers child generate_osx generate_ios generate_tvos w)
    as [res w'] eqn:H. simpl.
  destruct (respects_generate_source_and_headers child (only (configure_call all))
              (only_nil _) (only_app _) (only_raise _) (configure_call all) (only_one _)
              generate_osx generate_ios generate_tvos) with (w := w) (r := res) (w' := w')
    as (new & Hn & HQ).
  - split; [exact I|]. split; [exact I|]. split; intros; exact I.
  - apply family_configure_calls. intros -> p Hp. apply enabled_ios, Hp.
  - apply family_configure_calls. intros -> p Hp. apply enabled_tvos, Hp.
  - apply family_configure_calls. intros -> p Hp. apply enabled_osx, Hp.
  - exact H.
  - rewrite (new_events_app _ _ _ Hn). exact HQ.
Qed.

(** ** Directories that [mkdir_p] creates *)

(** X16: [mkdir_p] on a path that does not exist creates it together
    with all its missing ancestors, and nothing else; it never lets a
    regular file stand for an intermediate directory: when an ancestor
    of the path is a regular file it fails with [ENOTDIR] and creates
    nothing. *)
Theorem mkdir_p_creates (path : string) (w : world) :
  os.exists_ (fs w) (os.abspath w path) = false ->
  ((mkdir_p path w).1 = Ok tt ->
   os.is_dir (fs (mkdir_p path w).2) (os.abspath w path) = true
   /\ (forall K, K ∈ os.ancestors (os.abspath w path) ->
         os.is_dir (fs (mkdir_p path w).2) K = true /\ files (fs w) !! K = None)
   /\ (forall K, K ∈ dirs (fs (mkdir_p path w).2) ->
         K ∈ dirs (fs w) \/ K ∈ os.ancestors (os.abspath w path)
         \/ K = os.abspath w path))
  /\ (forall K, K ∈ os.ancestors (os.abspath w path) ->
        is_Some (files (fs w) !! K) ->
        exists p,
          mkdir_p path w = (Raise (OSError ENOTDIR p), log (EvMakedirs path) w)).
Proof.
  intros Hex. split.
  - intros Hok. pose proof (mkdir_p_ok_exists path w Hok) as Hex'.
    destruct (mkdir_p path w) as [r w'] eqn:H. simpl in *. subst r.
    pose proof (mkdir_p_fs _ _ _ _ H) as (_ & Hcwd & _ & Hnew).
    rewrite (abspath_cwd w w' _ Hcwd) in Hex'.
    apply mkdir_p_ok_dirs in H as [Hsame|(_ & Hanc & Hfs)].
    + rewrite Hsame in Hex'. congruence.
    + rewrite Hfs. unfold os.is_dir. simpl. split; [|split].
      * apply orb_true_iff. right. apply bool_decide_eq_true. set_solver.
      * intros K HK. split.
        -- apply orb_true_iff. right. apply bool_decide_eq_true.
           apply elem_of_union. left. apply elem_of_union. right.
           apply elem_of_list_to_set. exact HK.
        -- destruct (files (fs w) !! K) as [c|] eqn:HKf; [|reflexivity].
           assert (existsb (fun a => bool_decide (is_Some (files (fs w) !! a)))
                     (os.ancestors (os.abspath w path)) = true) as Ht.
           { apply existsb_exists. exists K. split; [apply list_elem_of_In; exact HK|].
             apply bool_decide_eq_true. eauto. }
           congruence.
      * intros K HK. rewrite Hfs in Hnew. apply Hnew. exact HK.
  - intros K HK HKf. pose proof (mkdir_p_cases path w) as H. revert H.
    unfold os.makedirs. cbv zeta.
    change (os.abspath (log (EvMakedirs path) w) path) with (os.abspath w path).
    change (fs (log (EvMakedirs path) w)) with (fs w).
    rewrite Hex.
    assert (existsb (fun a => bool_decide (is_Some (files (fs w) !! a)))
              (os.ancestors (os.abspath w path)) = true) as ->.
    { apply existsb_exists. exists K. split; [apply list_elem_of_In; exact HK|].
      apply bool_decide_eq_true. exact HKf. }
    simpl. eauto.
Qed.

Lemma mkdir_p_creates_witness :
  os.is_dir (fs (mkdir_p "a/b/c" sample_world).2) (os.abspath sample_world "a/b/c") = true
  /\ exists p,
       mkdir_p "src/prep_cif.c/x" sample_world
       = (Raise (OSError ENOTDIR p), log (EvMakedirs "src/prep_cif.c/x") sample_world).
Proof.
  split.
  - refine (proj1 (proj1 (mkdir_p_creates "a/b/c" sample_world _) _));
      vm_compute; reflexivity.
  - refine (proj2 (mkdir_p_creates "src/prep_cif.c/x" sample_world _)
              "/w/src/prep_cif.c" _ _).
    + vm_compute. reflexivity.
    + apply (bool_decide_eq_true_1 _). vm_compute. reflexivity.
    + apply (bool_decide_eq_true_1 _). vm_compute. reflexivity.
Defined.

(** ** Renaming and the extension *)

Lemma contains_app c a b :
  Str.contains c (a +:+ b) = Str.contains c a || Str.contains c b.
Proof.
  induction a as [|x a IH]; [reflexivity|].
  rewrite append_cons. simpl. rewrite IH, orb_assoc. reflexivity.
Qed.

Lemma contains_take c k : forall s,
  Str.contains c s = false -> Str.contains c (Str.take k s) = false.
Proof.
  induction k as [|k IH]; intros [|a r]; try reflexivity. simpl.
  intros H. apply orb_false_iff in H as [-> Hr]. simpl. apply IH, Hr.
Qed.

Lemma contains_drop c k : forall s,
  Str.contains c s = false -> Str.contains c (Str.drop k s) = false.
Proof.
  induction k as [|k IH]; intros [|a r]; try reflexivity; simpl; [auto|].
  intros H. apply orb_false_iff in H as [_ Hr]. apply IH, Hr.
Qed.

Lemma all_are_app c a b :
  Str.all_are c (a +:+ b) = Str.all_are c a && Str.all_are c b.
Proof.
  induction a as [|x a IH]; [reflexivity|].
  rewrite append_cons. simpl. rewrite IH, andb_assoc. reflexivity.
Qed.

Lemma take_app_length a b : Str.take (String.length a) (a +:+ b) = a.
Proof.
  induction a as [|x a IH]; [destruct b; reflexivity|].
  rewrite append_cons. simpl. rewrite IH. reflexivity.
Qed.

Lemma take_app_le k : forall a b,
  (k <= String.length a)%nat -> Str.take k (a +:+ b) = Str.take k a.
Proof.
  induction k as [|k IH]; intros a b Hk; [reflexivity|].
  destruct a as [|x a]; [simpl in Hk; lia|].
  rewrite append_cons. simpl. rewrite IH by (simpl in Hk; lia). reflexivity.
Qed.

Lemma rfind_lt c s : Str.rfind c s < Z.of_nat (String.length s).
Proof.
  induction s as [|a r IH]; simpl String.length; simpl Str.rfind; [lia|].
  destruct (Z.leb_spec 0 (Str.rfind c r)); [lia|].
  destruct (Ascii.eqb a c); lia.
Qed.

Lemma rfind_split c s :
  0 <= Str.rfind c s ->
  exists rest,
    Str.drop (Z.to_nat (Str.rfind c s)) s = String c rest
    /\ Str.contains c rest = false.
Proof.
  induction s as [|a r IH]; simpl Str.rfind; [lia|].
  destruct (Z.leb_spec 0 (Str.rfind c r)) as [Hpos|Hneg].
  - intros _. destruct (IH Hpos) as (rest & Hd & Hc). exists rest.
    replace (Z.to_nat (1 + Str.rfind c r)) with (S (Z.to_nat (Str.rfind c r))) by lia.
    simpl. auto.
  - destruct (Ascii.eqb_spec a c) as [->|Hne]; [|lia].
    intros _. exists r. split; [reflexivity|]. apply rfind_absent. exact Hneg.
Qed.

Lemma rfind_head c rest : Str.contains c rest = false -> Str.rfind c (String c rest) = 0.
Proof.
  intros H. simpl. rewrite (rfind_none _ _ H). simpl. rewrite Ascii.eqb_refl. reflexivity.
Qed.

Lemma slice_from_start j s : Str.slice (-1 + 1) j s = Str.take (Z.to_nat j) s.
Proof.
  unfold Str.slice. change (Z.to_nat (-1 + 1)) with 0%nat. simpl Str.drop.
  f_equal. lia.
Qed.

Lemma splitext_join p : (os_path.splitext p).1 +:+ (os_path.splitext p).2 = p.
Proof.
  unfold os_path.splitext. destruct (_ && _); simpl.
  - apply take_drop.
  - apply append_nil_r.
Qed.

Lemma splitext_ext stem rest :
  slash_free stem -> slash_free rest -> Str.contains Str.dot rest = false ->
  Str.all_are Str.dot stem = false ->
  os_path.splitext (stem +:+ String Str.dot rest) = (stem, String Str.dot rest).
Proof.
  intros Hs Hr Hd Hall.
  assert (Str.rfind Str.slash (stem +:+ String Str.dot rest) = -1) as Hsep.
  { apply rfind_none. rewrite contains_app, Hs. simpl. exact Hr. }
  assert (Str.rfind Str.dot (stem +:+ String Str.dot rest)
          = Z.of_nat (String.length stem)) as Hdot.
  { rewrite rfind_app, (rfind_head _ _ Hd). simpl. lia. }
  unfold os_path.splitext. cbv zeta. rewrite Hsep, Hdot.
  rewrite slice_from_start, Nat2Z.id, take_app_length, Hall.
  destruct (Z.ltb_spec (-1) (Z.of_nat (String.length stem))); [|lia].
  simpl. f_equal.
  replace (String.length stem) with (String.length stem + 0)%nat by lia.
  apply drop_app_length.
Qed.

Lemma splitext_none p :
  slash_free p ->
  (Str.contains Str.dot p = false
   \/ Str.all_are Str.dot (Str.take (Z.to_nat (Str.rfind Str.dot p)) p) = true) ->
  os_path.splitext p = (p, "").
Proof.
  intros Hp H. unfold os_path.splitext. cbv zeta. rewrite (rfind_none _ _ Hp).
  destruct H as [H|H].
  - rewrite (rfind_none _ _ H). reflexivity.
  - rewrite slice_from_start, H, andb_false_r. reflexivity.
Qed.

Lemma splitext_inv name :
  slash_free name ->
  (exists stem rest,
     os_path.splitext name = (stem, String Str.dot rest)
     /\ name = stem +:+ String Str.dot rest
     /\ Str.contains Str.dot rest = false
     /\ Str.all_are Str.dot stem = false)
  \/ (os_path.splitext name = (name, "")
      /\ (Str.contains Str.dot name = false
          \/ Str.all_are Str.dot (Str.take (Z.to_nat (Str.rfind Str.dot name)) name)
             = true)).
Proof.
  intros Hn. pose proof (rfind_ge Str.dot name) as Hge.
  destruct (Z.ltb_spec (-1) (Str.rfind Str.dot name)) as [Hdot|Hnodot].
  - destruct (Str.all_are Str.dot (Str.take (Z.to_nat (Str.rfind Str.dot name)) name))
      eqn:Hall.
    + right. split; [|right; reflexivity].
      apply splitext_none; [exact Hn|right; exact Hall].
    + left. destruct (rfind_split Str.dot name ltac:(lia)) as (rest & Hdrop & Hrest).
      exists (Str.take (Z.to_nat (Str.rfind Str.dot name)) name), rest.
      assert (name = Str.take (Z.to_nat (Str.rfind Str.dot name)) name
                     +:+ String Str.dot rest) as Hname.
      { rewrite <- Hdrop. symmetry. apply take_drop. }
      split; [|split; [exact Hname|split; [exact Hrest|exact Hall]]].
      rewrite Hname at 1.
      apply splitext_ext; [apply contains_take, Hn| |exact Hrest|exact Hall].
      assert (Str.contains Str.slash (String Str.dot rest) = false) as H
        by (rewrite <- Hdrop; apply contains_drop, Hn).
      exact H.
  - right. assert (Str.contains Str.dot name = false) as Hc
      by (apply rfind_absent; lia).
    split; [|left; exact Hc]. apply splitext_none; auto.
Qed.

Lemma splitext_renamed name sfx :
  slash_free name -> slash_free sfx -> Str.contains Str.dot sfx = false ->
  os_path.splitext ((os_path.splitext name).1 +:+ "_" +:+ sfx
                    +:+ (os_path.splitext name).2)
  = ((os_path.splitext name).1 +:+ "_" +:+ sfx, (os_path.splitext name).2).
Proof.
  intros Hn Hs Hd.
  destruct (splitext_inv name Hn)
    as [(stem & rest & -> & Hname & Hrest & Hall)|(-> & Hnone)]; simpl fst; simpl snd.
  - assert (slash_free stem /\ slash_free rest) as [Hstem Hr].
    { unfold slash_free in *. rewrite Hname, contains_app in Hn.
      apply orb_false_iff in Hn as [H1 H2]. split; [exact H1|exact H2]. }
    replace (stem +:+ "_" +:+ sfx +:+ String Str.dot rest)
      with ((stem +:+ "_" +:+ sfx) +:+ String Str.dot rest)
      by (rewrite !append_assoc; reflexivity).
    apply splitext_ext; [|exact Hr|exact Hrest|].
    + unfold slash_free in *. rewrite !contains_app, Hstem, Hs. reflexivity.
    + rewrite all_are_app, (all_are_app _ "_" sfx). simpl.
      rewrite andb_false_r. reflexivity.
  - rewrite append_nil_r. apply splitext_none.
    + unfold slash_free in *. rewrite !contains_app, Hn, Hs. reflexivity.
    + assert (Str.rfind Str.dot ("_" +:+ sfx) = -1) as Htail
        by (apply rfind_none; rewrite contains_app, Hd; reflexivity).
      destruct Hnone as [Hc|Hall].
      * left. rewrite !contains_app, Hc, Hd. reflexivity.
      * right. rewrite rfind_app, Htail. change (0 <=? -1) with false. cbv iota.
        destruct (Z.leb_spec 0 (Str.rfind Str.dot name)) as [Hpos|Hneg].
        -- rewrite take_app_le by (pose proof (rfind_lt Str.dot name); lia). exact Hall.
        -- replace (Z.to_nat (Str.rfind Str.dot name)) with 0%nat in * by lia.
           reflexivity.
Qed.

Lemma length_append a b :
  String.length (a +:+ b) = (String.length a + String.length b)%nat.
Proof.
  induction a as [|x a IH]; [reflexivity|]. rewrite append_cons. simpl. rewrite IH.
  reflexivity.
Qed.

Lemma append_inj_tail t : forall a b, a +:+ t = b +:+ t -> a = b.
Proof.
  induction a as [|x a IH]; intros [|y b] H.
  - reflexivity.
  - apply (f_equal String.length) in H. rewrite append_nil, append_cons in H.
    simpl in H. rewrite length_append in H. lia.
  - apply (f_equal String.length) in H. rewrite append_nil, append_cons in H.
    simpl in H. rewrite length_append in H. lia.
  - rewrite !append_cons in H. inversion H; subst. f_equal. apply IH. assumption.
Qed.

Lemma allow_list_no_underscore name :
  name ∈ allow_list -> Str.contains "_" name = false.
Proof.
  unfold allow_list. intros H.
  repeat (apply elem_of_cons in H as [->|H]; [reflexivity|]). inversion H.
Qed.

Lemma out_filename_cases name sfx :
  (out_filename name (Some sfx) = name
   /\ (Str.nonempty sfx = false \/ name ∈ allow_list))
  \/ (out_filename name (Some sfx)
      = (os_path.splitext name).1 +:+ "_" +:+ sfx +:+ (os_path.splitext name).2
      /\ Str.nonempty sfx = true /\ name ∉ allow_list).
Proof.
  unfold out_filename, allow_list. destruct (Str.nonempty sfx); [|left; auto].
  destruct (decide (name ∈ ["internal64.h"; "asmnames.h"; "internal.h"])) as [Hin|Hnin].
  - rewrite bool_decide_eq_true_2 by exact Hin. left. auto.
  - rewrite bool_decide_eq_false_2 by exact Hnin. right. auto.
Qed.

(** X17: renaming keeps the extension. For a base name and an
    architecture without dot or slash, the name [move_file] writes to
    has the extension of the original name, and its stem is the
    original stem followed by [_] and the architecture, unless the name
    is on the allow-list or no architecture is given, in which case the
    name is kept. A staged header is still a [.h] file. *)
Theorem renaming_keeps_extension (filename sfx : string) :
  slash_free filename -> slash_free sfx -> Str.contains Str.dot sfx = false ->
  (os_path.splitext (out_filename filename (Some sfx))).2
  = (os_path.splitext filename).2
  /\ (Str.nonempty sfx = true -> filename ∉ allow_list ->
      (os_path.splitext (out_filename filename (Some sfx))).1
      = (os_path.splitext filename).1 +:+ "_" +:+ sfx)
  /\ (os_path.splitext filename).1 +:+ (os_path.splitext filename).2 = filename.
Proof.
  intros Hn Hs Hd. split; [|split; [|apply splitext_join]].
  - destruct (out_filename_cases filename sfx) as [[-> _]|(-> & _ & _)]; [reflexivity|].
    rewrite (splitext_renamed _ _ Hn Hs Hd). reflexivity.
  - intros Hne Hallow.
    destruct (out_filename_cases filename sfx) as [[_ [H|H]]|(-> & _ & _)].
    + congruence.
    + contradiction.
    + rewrite (splitext_renamed _ _ Hn Hs Hd). reflexivity.
Qed.

Lemma renaming_keeps_extension_witness :
  (os_path.splitext (out_filename "ffi.h" (Some "arm64"))).2
  = (os_path.splitext "ffi.h").2
  /\ (os_path.splitext (out_filename "ffi.h" (Some "arm64"))).1
     = (os_path.splitext "ffi.h").1 +:+ "_" +:+ "arm64".
Proof.
  pose proof (renaming_keeps_extension "ffi.h" "arm64" eq_refl eq_refl eq_refl) as H.
  split; [exact (proj1 H)|]. apply (proj1 (proj2 H)); [reflexivity|].
  unfold allow_list. intros Hin.
  repeat (apply elem_of_cons in Hin as [Hin|Hin]; [discriminate|]). inversion Hin.
Defined.


(** ** The staged sources *)




Example staged_source_of_sample :
  files (fs (copy_src_platform_files ios_device64_platform sample_world).2)
    !! "/w/darwin_ios/src/aarch64/sysv_arm64.S"
  = Some ("#ifdef __arm64__" +:+ LF +:+ LF +:+ "aarch64 sysv" +:+ LF +:+ LF +:+ "#endif").
Proof. vm_compute. reflexivity. Qed.

(** ** Staging without guards *)

Lemma join_slash_inj a b f g :
  slash_free f -> slash_free g ->
  a +:+ "/" +:+ f = b +:+ "/" +:+ g -> a = b /\ f = g.
Proof.
  intros Hf Hg H. change (a +:+ String "/" f = b +:+ String "/" g) in H.
  assert (f = g) as ->.
  { apply (f_equal os_path.basename) in H.
    rewrite !basename_after_slash in H by assumption. exact H. }
  split; [|reflexivity]. apply (append_inj_tail (String "/" g)). exact H.
Qed.

Lemma join_relative_path a f :
  relative a = true -> Str.nonempty a = true -> Str.endswith a "/" = false ->
  slash_free f ->
  os_path.join a f = a +:+ "/" +:+ f /\ Str.startswith (a +:+ "/" +:+ f) "/" = false.
Proof.
  intros Hrel Hne Hend Hf. split.
  - apply join_relative; [apply no_slash_relative, Hf|exact Hne|exact Hend].
  - unfold relative in Hrel. apply negb_true_iff in Hrel.
    destruct a as [|x a]; [discriminate|]. rewrite append_cons. exact Hrel.
Qed.



(** ** The headers a build stages *)










Lemma splitext_slash_free f :
  slash_free f ->
  slash_free (os_path.splitext f).1 /\ slash_free (os_path.splitext f).2.
Proof.
  intros Hf. unfold slash_free in *.
  rewrite <- (splitext_join f), contains_app in Hf.
  apply orb_false_iff in Hf. exact Hf.
Qed.

Lemma out_filename_slash_free f sfx :
  slash_free f -> slash_free sfx -> slash_free (out_filename f (Some sfx)).
Proof.
  intros Hf Hs.
  destruct (out_filename_cases f sfx) as [[-> _]|(-> & _ & _)]; [exact Hf|].
  destruct (splitext_slash_free f Hf) as [H1 H2].
  unfold slash_free in *. rewrite !contains_app, H1, Hs, H2. reflexivity.
Qed.

Lemma out_filename_inj sfx a b :
  slash_free sfx -> Str.contains Str.dot sfx = false ->
  slash_free a -> slash_free b ->
  out_filename a (Some sfx) = out_filename b (Some sfx) ->
  a = b.
Proof.
  intros Hs Hd Ha Hb.
  assert (forall x y,
            slash_free y -> x ∈ allow_list ->
            x <> (os_path.splitext y).1 +:+ "_" +:+ sfx +:+ (os_path.splitext y).2)
    as Hclash.
  { intros x y Hy Hx Heq. apply allow_list_no_underscore in Hx.
    rewrite Heq, !contains_app in Hx. simpl in Hx.
    rewrite orb_true_r in Hx. discriminate. }
  destruct (out_filename_cases a sfx) as [[-> [Hea|Hina]]|(-> & Hne & Hna)];
    destruct (out_filename_cases b sfx) as [[-> [Heb|Hinb]]|(-> & Hne' & Hnb)];
    try (intros H; exact H); try congruence.
  - intros H. destruct (Hclash a b Hb Hina H).
  - intros H. symmetry in H. destruct (Hclash b a Ha Hinb H).
  - intros H. apply (f_equal os_path.splitext) in H.
    rewrite (splitext_renamed _ _ Ha Hs Hd), (splitext_renamed _ _ Hb Hs Hd) in H.
    inversion H as [[Hstem Hext]].
    rewrite <- (splitext_join a), <- (splitext_join b), Hext. f_equal.
    apply (append_inj_tail ("_" +:+ sfx)). exact Hstem.
Qed.

Lemma target_inj w inc sfx f g :
  relative inc = true -> Str.nonempty inc = true -> Str.endswith inc "/" = false ->
  slash_free sfx -> Str.contains Str.dot sfx = false ->
  slash_free f -> slash_free g ->
  target_of w inc f (Some sfx) = target_of w inc g (Some sfx) -> f = g.
Proof.
  intros Hrel Hne Hend Hs Hd Hf Hg H. unfold target_of in H.
  destruct (join_relative_path inc _ Hrel Hne Hend (out_filename_slash_free f sfx Hf Hs))
    as [Hjf Hrf].
  destruct (join_relative_path inc _ Hrel Hne Hend (out_filename_slash_free g sfx Hg Hs))
    as [Hjg Hrg].
  rewrite Hjf, Hjg in H. apply abspath_inj in H; [|exact Hrf|exact Hrg].
  apply join_slash_inj in H as [_ H];
    [|apply out_filename_slash_free; assumption..].
  exact (out_filename_inj sfx f g Hs Hd Hf Hg H).
Qed.







(** X21: renaming never maps two base names to the same name. For an
    architecture without dot or slash, two base names that
    [move_file] writes under the same output name are the same name,
    so that two files staged into one directory in one go never land
    on the same path. *)
Theorem renaming_is_injective (sfx a b : string) :
  slash_free sfx -> Str.contains Str.dot sfx = false ->
  slash_free a -> slash_free b ->
  (out_filename a (Some sfx) = out_filename b (Some sfx) -> a = b)
  /\ (forall w dst, plain_dir dst = true ->
        target_of w dst a (Some sfx) = target_of w dst b (Some sfx) -> a = b).
Proof.
  intros Hs Hd Ha Hb. split; [apply out_filename_inj; assumption|].
  intros w dst Hp. unfold plain_dir in Hp. apply andb_true_iff in Hp as [Hp Hend].
  apply andb_true_iff in Hp as [Hrel Hne]. apply negb_true_iff in Hend.
  apply target_inj; assumption.
Qed.

Lemma renaming_is_injective_witness :
  (out_filename "ffi.h" (Some "arm64") = out_filename "ffi.h" (Some "arm64") ->
   "ffi.h" = "ffi.h")
  /\ (forall w dst, plain_dir dst = true ->
        target_of w dst "ffi.h" (Some "arm64") = target_of w dst "ffi.h" (Some "arm64") ->
        "ffi.h" = "ffi.h").
Proof.
  apply (renaming_is_injective "arm64" "ffi.h" "ffi.h"); reflexivity.
Defined.

(** ** The working directory over a whole run *)

Section Stays.

Variable Inv : world -> Prop.

Lemma stays_ret {A} (a : A) : stays Inv (ret a).
Proof. intros w r w' H. inversion H; subst. auto. Qed.

Lemma stays_bind {A B} (m : M A) (k : A -> M B) :
  stays Inv m -> (forall a, stays Inv (k a)) -> stays Inv (bind m k).
Proof.
  intros Hm Hk w r w' H HInv.
  apply bind_inv in H as [(a & w1 & H1 & H2)|(e & H1 & _)].
  - eapply Hk; [exact H2|]. eapply Hm; eauto.
  - eapply Hm; eauto.
Qed.

Lemma stays_when b m : stays Inv m -> stays Inv (when b m).
Proof. destruct b; simpl; [auto|]. intros _. apply stays_ret. Qed.

Lemma stays_for_each {A} (l : list A) body :
  (forall x, stays Inv (body x)) -> stays Inv (for_each l body).
Proof.
  intros Hb. induction l as [|x l IH]; simpl; [apply stays_ret|].
  apply stays_bind; [apply Hb|]. intros _. exact IH.
Qed.

End Stays.

Section AtHome.

Variable home : string.

Lemma at_home_same w w' :
  cwd w' = cwd w -> dirs (fs w') = dirs (fs w) -> at_home home w -> at_home home w'.
Proof.
  intros Hc Hd [H1 H2]. split; [congruence|].
  unfold os.is_dir in *. rewrite Hd. exact H2.
Qed.

Lemma stays_mkdir_p path : stays (at_home home) (mkdir_p path).
Proof.
  intros w r w' H [Hc Hd]. split.
  - apply mkdir_p_frame in H as (_ & Hc' & _). congruence.
  - eapply is_dir_mkdir_p; eauto.
Qed.

Lemma stays_open_r path : stays (at_home home) (open_r path).
Proof.
  intros w r w'. unfold open_r. destruct (files (fs w) !! _);
    [|destruct (os.is_dir _ _)]; intros H; inversion H; subst; auto.
Qed.

Lemma stays_open_w path : stays (at_home home) (open_w path).
Proof.
  intros w r w'. unfold open_w. cbv zeta.
  destruct (os.is_dir _ _); [|destruct (negb _)];
    intros H; inversion H; subst; apply at_home_same; reflexivity.
Qed.

Lemma stays_file_write h d : stays (at_home home) (file_write h d).
Proof.
  intros w r w' H. inversion H; subst. apply at_home_same; reflexivity.
Qed.

Lemma stays_file_read h : stays (at_home home) (file_read h).
Proof. intros w r w' H. inversion H; subst. auto. Qed.

Lemma stays_list_files src pattern filelist :
  stays (at_home home) (list_files src pattern filelist).
Proof. intros w r w' H. apply list_files_names in H as [-> _]. auto. Qed.

Lemma stays_move_file src dst filename file_suffix pre suf :
  stays (at_home home) (move_file src dst filename file_suffix pre suf).
Proof.
  unfold move_file.
  apply stays_bind; [apply stays_mkdir_p|]. intros _.
  apply stays_bind; [apply stays_open_r|]. intros h.
  apply stays_bind; [apply stays_open_w|]. intros o.
  apply stays_bind; [apply stays_when, stays_file_write|]. intros _.
  apply stays_bind.
  - apply stays_bind; [apply stays_file_read|]. intros d. apply stays_file_write.
  - intros _. apply stays_when, stays_file_write.
Qed.

Lemma stays_copy_files src dst pattern filelist file_suffix pre suf :
  stays (at_home home) (copy_files src dst pattern filelist file_suffix pre suf).
Proof.
  unfold copy_files. apply stays_bind; [apply stays_list_files|].
  intros names. apply stays_for_each. intros x. apply stays_move_file.
Qed.

Lemma stays_copy_src_platform_files p :
  stays (at_home home) (copy_src_platform_files p).
Proof.
  unfold copy_src_platform_files.
  apply stays_bind; [|intros _]; apply stays_copy_files.
Qed.

Lemma stays_collect_headers p r dirs :
  stays (at_home home) (collect_headers p r dirs).
Proof.
  unfold collect_headers. apply stays_for_each. intros d.
  apply stays_bind; [apply stays_copy_files|]. intros _.
  apply stays_bind; [apply stays_list_files|]. intros names.
  apply stays_for_each. intros x w r' w' H. inversion H; subst.
  apply at_home_same; reflexivity.
Qed.

Lemma stays_unify_headers r : stays (at_home home) (unify_headers r).
Proof.
  unfold unify_headers.
  apply stays_bind; [apply stays_mkdir_p|]. intros _.
  apply stays_bind; [intros w r' w' H; inversion H; subst; auto|]. intros items.
  apply stays_for_each. intros [name tags].
  destruct (os_path.splitext name) as [stem ext].
  apply stays_bind; [apply stays_open_w|]. intros h.
  apply stays_for_each. intros t. apply stays_file_write.
Qed.

Lemma stays_configure_phase child p :
  keeps_directories child -> Str.startswith home "/" = true ->
  stays (at_home home) (configure_phase child p).
Proof.
  intros Hkeep Habs w r w' H Hhome.
  unfold configure_phase in H.
  apply bind_inv in H as [(u & w1 & Hmk & H)|(e & Hmk & _)];
    [|exact (stays_mkdir_p _ _ _ _ Hmk Hhome)].
  pose proof (stays_mkdir_p _ _ _ _ Hmk Hhome) as [Hc1 Hd1].
  apply bind_inv in H as [(wd & w1' & Hg & H)|(e & Hg & _)]; [|inversion Hg].
  inversion Hg; subst wd w1'. clear Hg.
  apply try_finally_inv in H as (rb & wb & rf & Hb & Hf & _).
  assert (os.is_dir (fs wb) home = true) as Hdb.
  { apply bind_inv in Hb as [(u' & wc & Hcd & Hcall)|(e & Hcd & _)].
    - eapply is_dir_check_call; eauto.
      rewrite (chdir_fs _ _ _ _ Hcd). exact Hd1.
    - rewrite (chdir_fs _ _ _ _ Hcd). exact Hd1. }
  rewrite Hc1, (chdir_back home wb Habs Hdb) in Hf.
  inversion Hf; subst. split; [reflexivity|exact Hdb].
Qed.

Lemma stays_build_target child p r :
  keeps_directories child -> Str.startswith home "/" = true ->
  stays (at_home home) (build_target child p r).
Proof.
  intros Hkeep Habs w res w' H. rewrite build_target_phases in H. revert w res w' H.
  apply stays_bind; [apply stays_configure_phase; assumption|].
  intros _. apply stays_collect_headers.
Qed.

End AtHome.

(** X22: a whole run leaves the process in the working directory it
    started in, however it ends, as long as the child processes do not
    remove directories and the run starts in an existing directory
    given by an absolute path; that directory still exists at the
    end. *)
Theorem run_restores_cwd (child : process)
    (generate_osx generate_ios generate_tvos : bool) (w : world) :
  keeps_directories child ->
  Str.startswith (cwd w) "/" = true ->
  os.is_dir (fs w) (cwd w) = true ->
  let w' := (generate_source_and_headers child generate_osx generate_ios
               generate_tvos w).2 in
  cwd w' = cwd w /\ os.is_dir (fs w') (cwd w) = true.
Proof.
  intros Hkeep Habs Hdir. cbv zeta.
  destruct (generate_source_and_headers child generate_osx generate_ios generate_tvos w)
    as [res w'] eqn:H. cbn [snd].
  assert (stays (at_home (cwd w))
            (generate_source_and_headers child generate_osx generate_ios generate_tvos))
    as Hstays.
  { unfold generate_source_and_headers.
    apply stays_bind; [apply stays_copy_files|]. intros _.
    apply stays_bind; [apply stays_copy_files|]. intros _.
    apply stays_bind.
    { apply stays_when.
      repeat (apply stays_bind; [apply stays_copy_src_platform_files|intros _]).
      apply stays_copy_src_platform_files. }
    intros _. apply stays_bind.
    { apply stays_when.
      repeat (apply stays_bind; [apply stays_copy_src_platform_files|intros _]).
      apply stays_copy_src_platform_files. }
    intros _. apply stays_bind.
    { apply stays_when.
      repeat (apply stays_bind; [apply stays_copy_src_platform_files|intros _]).
      apply stays_copy_src_platform_files. }
    intros _. apply stays_bind.
    { intros v r v' Hv. inversion Hv; subst. apply at_home_same; reflexivity. }
    intros r. apply stays_bind.
    { apply stays_when.
      repeat (apply stays_bind; [apply stays_build_target; assumption|intros _]).
      apply stays_build_target; assumption. }
    intros _. apply stays_bind.
    { apply stays_when.
      repeat (apply stays_bind; [apply stays_build_target; assumption|intros _]).
      apply stays_build_target; assumption. }
    intros _. apply stays_bind.
    { apply stays_when.
      repeat (apply stays_bind; [apply stays_build_target; assumption|intros _]).
      apply stays_build_target; assumption. }
    intros _. apply stays_unify_headers. }
  apply (Hstays _ _ _ H). split; [reflexivity|exact Hdir].
Qed.

Lemma run_restores_cwd_witness :
  cwd (generate_source_and_headers (configure_failing_for "arm-apple-darwin11")
         true true false sample_world).2 = cwd sample_world
  /\ os.is_dir
       (fs (generate_source_and_headers (configure_failing_for "arm-apple-darwin11")
              true true false sample_world).2) (cwd sample_world) = true.
Proof.
  apply (run_restores_cwd (configure_failing_for "arm-apple-darwin11") true true false
           sample_world).
  - apply keeps_directories_configure_failing_for.
  - reflexivity.
  - reflexivity.
Defined.
